(** * Portfolio site: theme resolver, preference store, section highlighter
    and field validator

  A shallow embedding of the JavaScript modules [assets/js/utils.js],
  [assets/js/theme.js], [assets/js/navigation.js], [assets/js/forms.js] and
  of the flat legacy [script.js], followed by the properties the
  specification states about them.

  JavaScript strings are sequences of UTF-16 code units; a code unit is a
  number of type [N].  Browser state the code reads or writes (local
  storage, the media queries, the document) is threaded explicitly. *)

From Stdlib Require Import NArith ZArith List Bool String Ascii Lia.
From Stdlib Require DecimalString.
From stdpp Require Import gmap list.
Import ListNotations.

Set Warnings "-register-all".
Local Open Scope N_scope.

(* ===================================================================== *)
(** ** JavaScript strings and values *)
(* ===================================================================== *)

Module JS.

(** A string is the list of its code units. *)
Abbreviation jsstring := (list N).

(** Code units of a literal written in the source. *)
Fixpoint lit (s : string) : jsstring :=
  match s with
  | EmptyString => []
  | String a r => N_of_ascii a :: lit r
  end.

(** [===] on two strings. *)
Definition streq (a b : jsstring) : bool := bool_decide (a = b).

(** A number is kept as the exact decimal it was read from:
    [(-1)^neg * mant * 10^exp10].  The rounding to binary64 is not
    modelled; no function below depends on more than whether a value is
    a string. *)
Record jsnum := { neg : bool; mant : N; exp10 : Z }.

(** The values JSON denotes, and [undefined]. *)
Inductive jsval :=
| JUndefined
| JNull
| JBool (b : bool)
| JNum (n : jsnum)
| JStr (s : jsstring)
| JArr (l : list jsval)
| JObj (l : list (jsstring * jsval)).

(** ToBoolean. *)
Definition truthy (v : jsval) : bool :=
  match v with
  | JUndefined | JNull => false
  | JBool b => b
  | JNum n => negb (mant n =? 0)
  | JStr s => match s with [] => false | _ => true end
  | JArr _ | JObj _ => true
  end.

(** [Array.prototype.includes] on an array of strings: SameValueZero
    finds [v] only when [v] is a string equal to an element. *)
Definition includes (arr : list jsstring) (v : jsval) : bool :=
  match v with
  | JStr s => existsb (streq s) arr
  | _ => false
  end.

(** The property names every plain object inherits from
    [Object.prototype].  In an object used as a table, [table[name]] under
    such a name is a function or an object, not [undefined], unless the
    table has an entry of its own. *)
Definition inherited (name : jsstring) : bool :=
  existsb (streq name)
    [lit "constructor"; lit "hasOwnProperty"; lit "isPrototypeOf";
     lit "propertyIsEnumerable"; lit "toLocaleString"; lit "toString";
     lit "valueOf"; lit "__proto__"; lit "__defineGetter__";
     lit "__defineSetter__"; lit "__lookupGetter__"; lit "__lookupSetter__"].

(** WhiteSpace and LineTerminator code units: the class [\s] of a
    regular expression and the characters [String.prototype.trim]
    strips. *)
Definition is_space (c : N) : bool :=
  (c =? 9) || (c =? 10) || (c =? 11) || (c =? 12) || (c =? 13) || (c =? 32)
  || (c =? 160) || (c =? 5760) || ((8192 <=? c) && (c <=? 8202))
  || (c =? 8232) || (c =? 8233) || (c =? 8239) || (c =? 8287)
  || (c =? 12288) || (c =? 65279).

Fixpoint trim_start (s : jsstring) : jsstring :=
  match s with
  | c :: r => if is_space c then trim_start r else s
  | [] => []
  end.

(** [String.prototype.trim]. *)
Definition trim (s : jsstring) : jsstring :=
  rev (trim_start (rev (trim_start s))).

(** Decimal digits of an integer, as [String(n)] prints a number of
    that value below 10^21. *)
Definition of_Z (z : Z) : jsstring :=
  lit (DecimalString.NilZero.string_of_int (Z.to_int z)).

(** A completion: a normal value or a thrown exception. *)
Inductive exn := SyntaxError | SecurityError | QuotaExceededError | TypeError.

Inductive completion (A : Type) :=
| Normal (a : A)
| Throw (e : exn).
Arguments Normal {A} a.
Arguments Throw {A} e.

End JS.
Import JS.

(* ===================================================================== *)
(** ** The platform's JSON object *)
(* ===================================================================== *)

Module JSON.

Inductive token :=
| TLBrace | TRBrace | TLBracket | TRBracket | TColon | TComma
| TStr (s : jsstring)
| TNum (n : jsnum)
| TTrue | TFalse | TNull.

(** States of the number automaton: an optional minus, then 0 or a
    digit 1-9 and digits, an optional fraction (a dot and one or more
    digits), an optional exponent (e or E, an optional sign, one or more
    digits). *)
Inductive numst :=
| NMinus | NZero | NInt | NDot | NFrac | NExp | NExpSign | NExpDigits.

Record numacc := {
  n_neg : bool;      (* a leading minus was read *)
  n_mant : N;        (* integer and fraction digits read so far *)
  n_frac : N;        (* how many of them are fraction digits *)
  n_eneg : bool;     (* the exponent has a minus *)
  n_exp : N          (* exponent digits read so far *)
}.

Definition num_of (a : numacc) : jsnum :=
  {| neg := n_neg a;
     mant := n_mant a;
     exp10 := ((if n_eneg a then - Z.of_N (n_exp a) else Z.of_N (n_exp a))
               - Z.of_N (n_frac a))%Z |}.

Definition push_int (a : numacc) (d : N) : numacc :=
  {| n_neg := n_neg a; n_mant := n_mant a * 10 + d; n_frac := n_frac a;
     n_eneg := n_eneg a; n_exp := n_exp a |}.
Definition push_frac (a : numacc) (d : N) : numacc :=
  {| n_neg := n_neg a; n_mant := n_mant a * 10 + d; n_frac := n_frac a + 1;
     n_eneg := n_eneg a; n_exp := n_exp a |}.
Definition push_exp (a : numacc) (d : N) : numacc :=
  {| n_neg := n_neg a; n_mant := n_mant a; n_frac := n_frac a;
     n_eneg := n_eneg a; n_exp := n_exp a * 10 + d |}.
Definition neg_exp (a : numacc) : numacc :=
  {| n_neg := n_neg a; n_mant := n_mant a; n_frac := n_frac a;
     n_eneg := true; n_exp := n_exp a |}.
Definition num0 (negative : bool) (d : N) : numacc :=
  {| n_neg := negative; n_mant := d; n_frac := 0; n_eneg := false; n_exp := 0 |}.

Inductive lexst :=
| LDefault
| LString (acc : jsstring)                  (* inside a string; [acc] reversed *)
| LEscape (acc : jsstring)                  (* after a backslash *)
| LUnicode (acc : jsstring) (k : nat) (u : N) (* [k] hex digits of \u read *)
| LNumber (st : numst) (a : numacc)
| LLiteral (rest : jsstring) (t : token)    (* inside true, false or null *)
| LError.

Definition is_digit (c : N) : bool := (48 <=? c) && (c <=? 57).
Definition is_e (c : N) : bool := (c =? 101) || (c =? 69).

Definition hex_value (c : N) : option N :=
  if (48 <=? c) && (c <=? 57) then Some (c - 48)
  else if (97 <=? c) && (c <=? 102) then Some (c - 87)
  else if (65 <=? c) && (c <=? 70) then Some (c - 55)
  else None.

(** One character read between tokens. [toks] is reversed. *)
Definition lex_default (toks : list token) (c : N) : lexst * list token :=
  if (c =? 9) || (c =? 10) || (c =? 13) || (c =? 32) then (LDefault, toks)
  else if c =? 123 then (LDefault, TLBrace :: toks)
  else if c =? 125 then (LDefault, TRBrace :: toks)
  else if c =? 91 then (LDefault, TLBracket :: toks)
  else if c =? 93 then (LDefault, TRBracket :: toks)
  else if c =? 58 then (LDefault, TColon :: toks)
  else if c =? 44 then (LDefault, TComma :: toks)
  else if c =? 34 then (LString [], toks)
  else if c =? 45 then (LNumber NMinus (num0 true 0), toks)
  else if c =? 48 then (LNumber NZero (num0 false 0), toks)
  else if is_digit c then (LNumber NInt (num0 false (c - 48)), toks)
  else if c =? 116 then (LLiteral (lit "rue") TTrue, toks)
  else if c =? 102 then (LLiteral (lit "alse") TFalse, toks)
  else if c =? 110 then (LLiteral (lit "ull") TNull, toks)
  else (LError, toks).

Definition accepting (st : numst) : bool :=
  match st with
  | NZero | NInt | NFrac | NExpDigits => true
  | _ => false
  end.

(** The number ends before [c]: emit it and read [c] afresh. *)
Definition end_number (a : numacc) (toks : list token) (c : N) :=
  lex_default (TNum (num_of a) :: toks) c.

Definition lex_number (st : numst) (a : numacc) (toks : list token) (c : N)
  : lexst * list token :=
  match st with
  | NMinus =>
      if c =? 48 then (LNumber NZero a, toks)
      else if is_digit c then (LNumber NInt (push_int a (c - 48)), toks)
      else (LError, toks)
  | NZero =>
      if c =? 46 then (LNumber NDot a, toks)
      else if is_e c then (LNumber NExp a, toks)
      else end_number a toks c
  | NInt =>
      if is_digit c then (LNumber NInt (push_int a (c - 48)), toks)
      else if c =? 46 then (LNumber NDot a, toks)
      else if is_e c then (LNumber NExp a, toks)
      else end_number a toks c
  | NDot =>
      if is_digit c then (LNumber NFrac (push_frac a (c - 48)), toks)
      else (LError, toks)
  | NFrac =>
      if is_digit c then (LNumber NFrac (push_frac a (c - 48)), toks)
      else if is_e c then (LNumber NExp a, toks)
      else end_number a toks c
  | NExp =>
      if c =? 43 then (LNumber NExpSign a, toks)
      else if c =? 45 then (LNumber NExpSign (neg_exp a), toks)
      else if is_digit c then (LNumber NExpDigits (push_exp a (c - 48)), toks)
      else (LError, toks)
  | NExpSign =>
      if is_digit c then (LNumber NExpDigits (push_exp a (c - 48)), toks)
      else (LError, toks)
  | NExpDigits =>
      if is_digit c then (LNumber NExpDigits (push_exp a (c - 48)), toks)
      else end_number a toks c
  end.

Definition lex_escape (acc : jsstring) (c : N) : lexst :=
  if c =? 34 then LString (34 :: acc)
  else if c =? 92 then LString (92 :: acc)
  else if c =? 47 then LString (47 :: acc)
  else if c =? 98 then LString (8 :: acc)
  else if c =? 102 then LString (12 :: acc)
  else if c =? 110 then LString (10 :: acc)
  else if c =? 114 then LString (13 :: acc)
  else if c =? 116 then LString (9 :: acc)
  else if c =? 117 then LUnicode acc 0 0
  else LError.

Definition lex_step (s : lexst * list token) (c : N) : lexst * list token :=
  let (st, toks) := s in
  match st with
  | LDefault => lex_default toks c
  | LString acc =>
      if c =? 34 then (LDefault, TStr (rev acc) :: toks)
      else if c =? 92 then (LEscape acc, toks)
      else if c <? 32 then (LError, toks)
      else (LString (c :: acc), toks)
  | LEscape acc => (lex_escape acc c, toks)
  | LUnicode acc k u =>
      match hex_value c with
      | Some h =>
          if Nat.eqb k 3 then (LString ((u * 16 + h) :: acc), toks)
          else (LUnicode acc (S k) (u * 16 + h), toks)
      | None => (LError, toks)
      end
  | LNumber nst a => lex_number nst a toks c
  | LLiteral rest t =>
      match rest with
      | x :: r =>
          if c =? x
          then match r with
               | [] => (LDefault, t :: toks)
               | _ => (LLiteral r t, toks)
               end
          else (LError, toks)
      | [] => (LError, toks)
      end
  | LError => (LError, toks)
  end.

(** The tokens of a text, or [None] when it is no sequence of tokens. *)
Definition tokens (text : jsstring) : option (list token) :=
  match fold_left lex_step text (LDefault, []) with
  | (LDefault, toks) => Some (rev toks)
  | (LNumber st a, toks) =>
      if accepting st then Some (rev (TNum (num_of a) :: toks)) else None
  | _ => None
  end.

(** The container a value under construction belongs to. *)
Inductive context :=
| CArr (acc : list jsval)                              (* elements, reversed *)
| CObj (acc : list (jsstring * jsval)) (key : jsstring) (* members, reversed *).

Inductive pstate :=
| SValue (stk : list context)       (* a value must follow *)
| SArrStart (stk : list context)    (* after an opening bracket *)
| SArrNext (acc : list jsval) (stk : list context)
| SObjStart (stk : list context)    (* after an opening brace *)
| SObjKey (acc : list (jsstring * jsval)) (stk : list context)
| SObjColon (acc : list (jsstring * jsval)) (key : jsstring) (stk : list context)
| SObjNext (acc : list (jsstring * jsval)) (stk : list context)
| SDone (v : jsval)
| SError.

(** A value is complete: hand it to the enclosing container. *)
Definition complete (v : jsval) (stk : list context) : pstate :=
  match stk with
  | [] => SDone v
  | CArr acc :: k => SArrNext (v :: acc) k
  | CObj acc key :: k => SObjNext ((key, v) :: acc) k
  end.

Definition start_value (t : token) (stk : list context) : pstate :=
  match t with
  | TStr s => complete (JStr s) stk
  | TNum n => complete (JNum n) stk
  | TTrue => complete (JBool true) stk
  | TFalse => complete (JBool false) stk
  | TNull => complete JNull stk
  | TLBracket => SArrStart stk
  | TLBrace => SObjStart stk
  | _ => SError
  end.

Definition parse_step (st : pstate) (t : token) : pstate :=
  match st with
  | SValue stk => start_value t stk
  | SArrStart stk =>
      match t with
      | TRBracket => complete (JArr []) stk
      | _ => start_value t (CArr [] :: stk)
      end
  | SArrNext acc stk =>
      match t with
      | TComma => SValue (CArr acc :: stk)
      | TRBracket => complete (JArr (rev acc)) stk
      | _ => SError
      end
  | SObjStart stk =>
      match t with
      | TRBrace => complete (JObj []) stk
      | TStr k => SObjColon [] k stk
      | _ => SError
      end
  | SObjKey acc stk =>
      match t with
      | TStr k => SObjColon acc k stk
      | _ => SError
      end
  | SObjColon acc k stk =>
      match t with
      | TColon => SValue (CObj acc k :: stk)
      | _ => SError
      end
  | SObjNext acc stk =>
      match t with
      | TComma => SObjKey acc stk
      | TRBrace => complete (JObj (rev acc)) stk
      | _ => SError
      end
  | SDone _ => SError
  | SError => SError
  end.

(** [JSON.parse(text)]: the value, or a thrown [SyntaxError].  The
    members of an object are kept in the order of the text. *)
Definition parse (text : jsstring) : completion jsval :=
  match tokens text with
  | Some toks =>
      match fold_left parse_step toks (SValue []) with
      | SDone v => Normal v
      | _ => Throw SyntaxError
      end
  | None => Throw SyntaxError
  end.

Definition hex_digit (h : N) : N := if h <? 10 then 48 + h else 87 + h.

(** The six characters of the escape of a code unit. *)
Definition unicode_escape (c : N) : jsstring :=
  [92; 117; hex_digit (c / 4096 mod 16); hex_digit (c / 256 mod 16);
   hex_digit (c / 16 mod 16); hex_digit (c mod 16)].

Definition is_lead (c : N) : bool := (55296 <=? c) && (c <=? 56319).
Definition is_trail (c : N) : bool := (56320 <=? c) && (c <=? 57343).

Fixpoint quote_chars (s : jsstring) : jsstring :=
  match s with
  | [] => []
  | c :: r =>
      if c =? 8 then 92 :: 98 :: quote_chars r
      else if c =? 9 then 92 :: 116 :: quote_chars r
      else if c =? 10 then 92 :: 110 :: quote_chars r
      else if c =? 12 then 92 :: 102 :: quote_chars r
      else if c =? 13 then 92 :: 114 :: quote_chars r
      else if c =? 34 then 92 :: 34 :: quote_chars r
      else if c =? 92 then 92 :: 92 :: quote_chars r
      else if c <? 32 then unicode_escape c ++ quote_chars r
      else if is_lead c then
        match r with
        | d :: r' =>
            if is_trail d then c :: d :: quote_chars r'
            else unicode_escape c ++ quote_chars r
        | [] => unicode_escape c
        end
      else if is_trail c then unicode_escape c ++ quote_chars r
      else c :: quote_chars r
  end.

(** [JSON.stringify(s)] of a string [s]: the quoted, escaped text. *)
Definition stringify (s : jsstring) : jsstring :=
  34 :: quote_chars s ++ [34].

End JSON.

(* ===================================================================== *)
(** ** Exceptions, console and timers *)
(* ===================================================================== *)

Module Eff.

#[global] Instance completion_ret : MRet completion := fun A a => Normal a.

#[global] Instance completion_bind : MBind completion :=
  fun A B k c =>
    match c with
    | Normal a => k a
    | Throw e => Throw e
    end.

(** [try { body } catch (error) { handler }]. *)
Definition try_catch {A} (body : completion A) (handler : exn -> completion A)
  : completion A :=
  match body with
  | Normal a => Normal a
  | Throw e => handler e
  end.

(** What a timer does when it fires. *)
Inductive timer :=
| RemoveThemeSwitching       (* toggleButton.classList.remove('theme-switching') *)
| RemoveThemeTransitioning.  (* body.classList.remove('theme-transitioning') *)

(** Effects a handler leaves behind besides the state it changes.  The
    parts of a console message are listed in order; an interpolated value
    is kept as the value it is. *)
Inductive effect :=
| ConsoleLog (parts : list jsval)
| ConsoleWarn (parts : list jsval)
| ConsoleError (parts : list jsval)
| Emit (event : jsstring) (theme effective : jsstring)
| SetTimeout (action : timer) (ms : N).

End Eff.
Import Eff.

(* ===================================================================== *)
(** ** window.localStorage *)
(* ===================================================================== *)

Module LocalStorage.

Record t := {
  items : gmap (list N) (list N);
  blocked : bool;   (* storage is disabled: every access throws SecurityError *)
  full : bool       (* the quota is used up: setItem throws QuotaExceededError *)
}.

(** [localStorage.getItem(key)]: the string, or [None] for [null]. *)
Definition getItem (ls : t) (key : jsstring) : completion (option jsstring) :=
  if blocked ls then Throw SecurityError else Normal (items ls !! key).

(** [localStorage.setItem(key, value)]. *)
Definition setItem (ls : t) (key value : jsstring) : completion t :=
  if blocked ls then Throw SecurityError
  else if full ls then Throw QuotaExceededError
  else Normal {| items := <[key := value]> (items ls);
                 blocked := blocked ls; full := full ls |}.


(** [localStorage.clear()]. *)
Definition clear (ls : t) : completion t :=
  if blocked ls then Throw SecurityError
  else Normal {| items := ∅; blocked := blocked ls; full := full ls |}.

End LocalStorage.

(* ===================================================================== *)
(** ** assets/js/utils.js: Storage *)
(* ===================================================================== *)

Module Storage.

Import LocalStorage.

(** [Storage.get(key, fallback = null)]. *)
Definition get (ls : LocalStorage.t) (key : jsstring) (fallback : jsval)
  : completion (jsval * list effect) :=
  try_catch
    (item ← getItem ls key;
     match item with
     | Some s =>
         if truthy (JStr s)
         then v ← JSON.parse s; Normal (v, [])
         else Normal (fallback, [])
     | None => Normal (fallback, [])
     end)
    (fun error =>
       Normal (fallback,
               [ConsoleWarn [JStr (lit "Error getting "); JStr key;
                             JStr (lit " from localStorage:")]])).

(** [Storage.set(key, value)] for a string [value], the only kind of
    value the theme manager passes. *)
Definition set (ls : LocalStorage.t) (key : jsstring) (value : jsstring)
  : completion (bool * LocalStorage.t * list effect) :=
  try_catch
    (ls' ← setItem ls key (JSON.stringify value);
     Normal (true, ls', []))
    (fun error =>
       Normal (false, ls,
               [ConsoleWarn [JStr (lit "Error setting "); JStr key;
                             JStr (lit " in localStorage:")]])).


(** [Storage.clear()]. *)
Definition clear (ls : LocalStorage.t)
  : completion (bool * LocalStorage.t * list effect) :=
  try_catch
    (ls' ← LocalStorage.clear ls;
     Normal (true, ls', []))
    (fun error =>
       Normal (false, ls,
               [ConsoleWarn [JStr (lit "Error clearing localStorage:")]])).

End Storage.

(* ===================================================================== *)
(** ** The part of the document the theme code touches *)
(* ===================================================================== *)

Module Dom.

(** [classList.remove(names...)]. *)
Definition class_remove (names : list jsstring) (cl : list jsstring)
  : list jsstring :=
  filter (fun c => negb (existsb (streq c) names)) cl.

(** [classList.add(name)]. *)
Definition class_add (name : jsstring) (cl : list jsstring) : list jsstring :=
  if existsb (streq name) cl then cl else cl ++ [name].

(** [classList.contains(name)]. *)
Definition class_contains (name : jsstring) (cl : list jsstring) : bool :=
  existsb (streq name) cl.

(** [classList.toggle(name, force)]. *)
Definition class_toggle (name : jsstring) (force : bool) (cl : list jsstring)
  : list jsstring :=
  if force then class_add name cl else class_remove [name] cl.

(** The element [#theme-toggle]. *)
Record ToggleButton := {
  btn_classes : list jsstring;
  btn_attrs : gmap (list N) (list N);
  icon : option jsstring     (* className of its [i] child, if it has one *)
}.

Record Document := {
  html_classes : list jsstring;
  html_data_theme : option jsstring;       (* the attribute data-theme *)
  body_classes : list jsstring;
  toggleButton : option ToggleButton;
  meta_theme_color : option jsstring       (* content of meta[name=theme-color],
                                              [None] while there is no such element *)
}.

End Dom.
Import Dom.

(* ===================================================================== *)
(** ** assets/js/theme.js: ThemeManager *)
(* ===================================================================== *)

Module Theme.

(** [this.THEMES] and [this.STORAGE_KEY]. *)
Definition LIGHT : jsstring := lit "light".
Definition DARK : jsstring := lit "dark".
Definition SYSTEM : jsstring := lit "system".
Definition STORAGE_KEY : jsstring := lit "portfolio-theme".

(** [Object.values(this.THEMES)]. *)
Definition THEME_VALUES : list jsstring := [LIGHT; DARK; SYSTEM].

(** The manager together with the browser state it reads and writes.
    [currentTheme] is [null] only between the first line of the
    constructor and [loadSavedTheme], where nothing reads it; a
    constructed manager holds a string. *)
Record State := {
  currentTheme : jsstring;
  storage : LocalStorage.t;
  prefersDark : bool;           (* matchMedia('(prefers-color-scheme: dark)').matches *)
  prefersReducedMotion : bool;  (* matchMedia('(prefers-reduced-motion: reduce)').matches *)
  document : Document;
  trace : list effect           (* console output, emitted events and timers, oldest first *)
}.

Definition set_currentTheme (v : jsstring) (st : State) : State :=
  {| currentTheme := v; storage := storage st; prefersDark := prefersDark st;
     prefersReducedMotion := prefersReducedMotion st;
     document := document st; trace := trace st |}.
Definition set_storage (v : LocalStorage.t) (st : State) : State :=
  {| currentTheme := currentTheme st; storage := v; prefersDark := prefersDark st;
     prefersReducedMotion := prefersReducedMotion st;
     document := document st; trace := trace st |}.
Definition set_prefersDark (v : bool) (st : State) : State :=
  {| currentTheme := currentTheme st; storage := storage st; prefersDark := v;
     prefersReducedMotion := prefersReducedMotion st;
     document := document st; trace := trace st |}.
Definition set_document (v : Document) (st : State) : State :=
  {| currentTheme := currentTheme st; storage := storage st; prefersDark := prefersDark st;
     prefersReducedMotion := prefersReducedMotion st;
     document := v; trace := trace st |}.
Definition emit (fx : list effect) (st : State) : State :=
  {| currentTheme := currentTheme st; storage := storage st; prefersDark := prefersDark st;
     prefersReducedMotion := prefersReducedMotion st;
     document := document st; trace := trace st ++ fx |}.

(** [setupToggleButton]. *)
Definition setupToggleButton (st : State) : State :=
  match toggleButton (document st) with
  | None => emit [ConsoleWarn [JStr (lit "Theme toggle button not found")]] st
  | Some b =>
      let attrs :=
        <[lit "tabindex" := lit "0"]>
          (<[lit "role" := lit "button"]>
             (<[lit "aria-label" := lit "Toggle theme"]> (btn_attrs b))) in
      let b' := {| btn_classes := btn_classes b; btn_attrs := attrs; icon := icon b |} in
      let d := document st in
      set_document
        {| html_classes := html_classes d; html_data_theme := html_data_theme d;
           body_classes := body_classes d; toggleButton := Some b';
           meta_theme_color := meta_theme_color d |} st
  end.

(** [loadSavedTheme]. *)
Definition loadSavedTheme (st : State) : completion State :=
  '(savedTheme, fx) ← Storage.get (storage st) STORAGE_KEY JNull;
  let st := emit fx st in
  if truthy savedTheme && includes THEME_VALUES savedTheme
  then match savedTheme with
       | JStr s => Normal (set_currentTheme s st)
       | _ => Normal (set_currentTheme SYSTEM st)  (* [includes] finds strings only *)
       end
  else
    (* Use system preference as default *)
    Normal (set_currentTheme SYSTEM st).

(** [getEffectiveTheme]. *)
Definition getEffectiveTheme (st : State) : jsstring :=
  if streq (currentTheme st) SYSTEM
  then (if prefersDark st then DARK else LIGHT)
  else currentTheme st.

(** [updateToggleButton]. *)
Definition updateToggleButton (effectiveTheme : jsstring) (st : State) : State :=
  match toggleButton (document st) with
  | None => st
  | Some b =>
      match icon b with
      | None => st
      | Some _ =>
          let className :=
            if streq effectiveTheme DARK then lit "fas fa-sun" else lit "fas fa-moon" in
          let nextTheme :=
            if streq effectiveTheme DARK then lit "light" else lit "dark" in
          let b' :=
            {| btn_classes := class_add (lit "theme-switching") (btn_classes b);
               btn_attrs :=
                 <[lit "aria-label" := lit "Switch to " ++ nextTheme ++ lit " theme"]>
                   (btn_attrs b);
               icon := Some className |} in
          let d := document st in
          emit [SetTimeout RemoveThemeSwitching 200]
            (set_document
               {| html_classes := html_classes d; html_data_theme := html_data_theme d;
                  body_classes := body_classes d; toggleButton := Some b';
                  meta_theme_color := meta_theme_color d |} st)
      end
  end.

(** The colour table of [updateMetaThemeColor]; a key it does not have
    reads as [undefined], which [setAttribute] writes as that word. *)
Definition colors (effectiveTheme : jsstring) : jsstring :=
  if streq effectiveTheme LIGHT then lit "#ffffff"
  else if streq effectiveTheme DARK then lit "#1a1a1a"
  else lit "undefined".

(** [updateMetaThemeColor]: the meta element is created when missing. *)
Definition updateMetaThemeColor (effectiveTheme : jsstring) (st : State) : State :=
  let d := document st in
  set_document
    {| html_classes := html_classes d; html_data_theme := html_data_theme d;
       body_classes := body_classes d; toggleButton := toggleButton d;
       meta_theme_color := Some (colors effectiveTheme) |} st.

(** [applyTheme]. *)
Definition applyTheme (st : State) : State :=
  let effectiveTheme := getEffectiveTheme st in
  let d := document st in
  let st :=
    set_document
      {| html_classes :=
           class_add effectiveTheme
             (class_remove [lit "light"; lit "dark"] (html_classes d));
         html_data_theme := Some effectiveTheme;
         body_classes := body_classes d; toggleButton := toggleButton d;
         meta_theme_color := meta_theme_color d |} st in
  let st := updateToggleButton effectiveTheme st in
  let st := updateMetaThemeColor effectiveTheme st in
  let st := emit [Emit (lit "themeChanged") (currentTheme st) effectiveTheme] st in
  emit [ConsoleLog [JStr (lit "Theme applied: "); JStr effectiveTheme;
                    JStr (lit " (set to: "); JStr (currentTheme st); JStr (lit ")")]] st.

(** [animateThemeChange]. *)
Definition animateThemeChange (from to : jsstring) (st : State) : State :=
  let d := document st in
  emit [SetTimeout RemoveThemeTransitioning 300]
    (set_document
       {| html_classes := html_classes d; html_data_theme := html_data_theme d;
          body_classes := class_add (lit "theme-transitioning") (body_classes d);
          toggleButton := toggleButton d;
          meta_theme_color := meta_theme_color d |} st).

(** [setTheme(theme)], for any value [theme]. *)
Definition setTheme (theme : jsval) (st : State) : completion State :=
  let invalid :=
    Normal (emit [ConsoleError [JStr (lit "Invalid theme: "); theme]] st) in
  if negb (includes THEME_VALUES theme) then invalid
  else
    match theme with
    | JStr s =>
        let previousTheme := currentTheme st in
        let st := set_currentTheme s st in
        (* Save to storage *)
        '(_, ls, fx) ← Storage.set (storage st) STORAGE_KEY s;
        let st := emit fx (set_storage ls st) in
        (* Apply theme *)
        let st := applyTheme st in
        (* Animate transition if supported *)
        let st :=
          if negb (prefersReducedMotion st)
          then animateThemeChange previousTheme s st else st in
        Normal (emit [ConsoleLog [JStr (lit "Theme changed from "); JStr previousTheme;
                                  JStr (lit " to "); JStr s]] st)
    | _ => invalid   (* [includes] finds strings only *)
    end.

(** [toggle]. *)
Definition toggle (st : State) : completion State :=
  let effectiveTheme := getEffectiveTheme st in
  let nextTheme := if streq effectiveTheme DARK then LIGHT else DARK in
  setTheme (JStr nextTheme) st.

(** [reset]. *)
Definition reset (st : State) : completion State :=
  setTheme (JStr SYSTEM) st.

(** [init], minus the registration of the listeners, which are the
    handlers below. *)
Definition init (st : State) : completion State :=
  let st := setupToggleButton st in
  st ← loadSavedTheme st;
  let st := applyTheme st in
  Normal (emit [ConsoleLog [JStr (lit "Theme system initialized")]] st).

(** The listener for [change] on the media query: the ambient scheme has
    become [dark]. *)
Definition onSystemChange (dark : bool) (st : State) : State :=
  let st := set_prefersDark dark st in
  if streq (currentTheme st) SYSTEM then applyTheme st else st.

(** The listener for [visibilitychange]. *)
Definition onVisibilityChange (hidden : bool) (st : State) : State :=
  if negb hidden && streq (currentTheme st) SYSTEM then applyTheme st else st.

(** A timer set by the manager fires. *)
Definition onTimer (a : timer) (st : State) : State :=
  let d := document st in
  match a with
  | RemoveThemeSwitching =>
      match toggleButton d with
      | Some b =>
          set_document
            {| html_classes := html_classes d; html_data_theme := html_data_theme d;
               body_classes := body_classes d;
               toggleButton :=
                 Some {| btn_classes := class_remove [lit "theme-switching"] (btn_classes b);
                         btn_attrs := btn_attrs b; icon := icon b |};
               meta_theme_color := meta_theme_color d |} st
      | None => st
      end
  | RemoveThemeTransitioning =>
      set_document
        {| html_classes := html_classes d; html_data_theme := html_data_theme d;
           body_classes := class_remove [lit "theme-transitioning"] (body_classes d);
           toggleButton := toggleButton d;
           meta_theme_color := meta_theme_color d |} st
  end.

(** Everything that can run on a constructed manager: its public methods
    and its listeners. *)
Inductive op :=
| OpToggle                       (* click, Enter or space on the button, Ctrl/Cmd+Shift+T *)
| OpSetTheme (theme : jsval)
| OpReset
| OpApplyTheme
| OpLoadSavedTheme
| OpInit
| OpSystemChange (dark : bool)
| OpVisibilityChange (hidden : bool)
| OpTimer (a : timer).

Definition run (o : op) (st : State) : completion State :=
  match o with
  | OpToggle => toggle st
  | OpSetTheme theme => setTheme theme st
  | OpReset => reset st
  | OpApplyTheme => Normal (applyTheme st)
  | OpLoadSavedTheme => loadSavedTheme st
  | OpInit => init st
  | OpSystemChange dark => Normal (onSystemChange dark st)
  | OpVisibilityChange hidden => Normal (onVisibilityChange hidden st)
  | OpTimer a => Normal (onTimer a st)
  end.

(** [new ThemeManager()] in a browser with the given storage, media
    queries and document. *)
Definition construct (ls : LocalStorage.t) (dark reduced : bool) (d : Document)
  : completion State :=
  init {| currentTheme := []; storage := ls; prefersDark := dark;
          prefersReducedMotion := reduced; document := d; trace := [] |}.

(** [isDark] and [isLight]. *)
Definition isDark (st : State) : bool := streq (getEffectiveTheme st) DARK.
Definition isLight (st : State) : bool := streq (getEffectiveTheme st) LIGHT.

(** The object [getThemeInfo] returns. *)
Record ThemeInfo := {
  current : jsstring;
  effective : jsstring;
  available : list jsstring;
  systemPreference : jsstring
}.

(** [getThemeInfo]. *)
Definition getThemeInfo (st : State) : ThemeInfo :=
  {| current := currentTheme st;
     effective := getEffectiveTheme st;
     available := THEME_VALUES;
     systemPreference := if prefersDark st then DARK else LIGHT |}.

End Theme.

(* ===================================================================== *)
(** ** script.js: the flat legacy theme toggle *)
(* ===================================================================== *)

Module Legacy.

Definition THEME_KEY : jsstring := lit "theme".

Record State := {
    storage : LocalStorage.t;
    document : Document
}.

Definition set_html_classes (cl : list jsstring) (d : Document) : Document :=
  {| html_classes := cl; html_data_theme := html_data_theme d;
     body_classes := body_classes d; toggleButton := toggleButton d;
     meta_theme_color := meta_theme_color d |}.

(** [updateThemeIcon(theme)]; [themeIcon] is [null] when the button has no
      [i] child, and assigning to its [className] then throws. *)
Definition updateThemeIcon (theme : jsstring) (d : Document) : completion Document :=
  match toggleButton d with
  | Some b =>
      match icon b with
      | Some _ =>
          let className :=
            if streq theme (lit "dark") then lit "fas fa-sun" else lit "fas fa-moon" in
          Normal {| html_classes := html_classes d; html_data_theme := html_data_theme d;
                    body_classes := body_classes d;
                    toggleButton :=
                      Some {| btn_classes := btn_classes b; btn_attrs := btn_attrs b;
                              icon := Some className |};
                    meta_theme_color := meta_theme_color d |}
      | None => Throw TypeError
      end
  | None => Throw TypeError
  end.

(** Lines 2-9: the statements run when the script loads.  The result is
      [savedTheme] and the state left behind. *)
Definition load (st : State) : completion (jsstring * State) :=
  match toggleButton (document st) with
  | None => Throw TypeError      (* themeToggle.querySelector on null *)
  | Some _ =>
      item ← LocalStorage.getItem (storage st) THEME_KEY;
      (* Check for saved theme preference or default to light mode *)
      let savedTheme :=
        match item with
        | Some s => if truthy (JStr s) then s else lit "light"
        | None => lit "light"
        end in
      let d :=
        set_html_classes
          (class_toggle (lit "dark") (streq savedTheme (lit "dark"))
             (html_classes (document st)))
          (document st) in
      d ← updateThemeIcon savedTheme d;
      Normal (savedTheme, {| storage := storage st; document := d |})
  end.

(** Lines 11-18: the click listener of the button. *)
Definition click (st : State) : completion State :=
  let isDark := class_contains (lit "dark") (html_classes (document st)) in
  let newTheme := if isDark then lit "light" else lit "dark" in
  let d :=
    set_html_classes
      (class_toggle (lit "dark") (negb isDark) (html_classes (document st)))
      (document st) in
  ls ← LocalStorage.setItem (storage st) THEME_KEY newTheme;
  d ← updateThemeIcon newTheme d;
  Normal {| storage := ls; document := d |}.

End Legacy.

(* ===================================================================== *)
(** ** assets/js/navigation.js: the active section *)
(* ===================================================================== *)

Module Navigation.

Local Open Scope Z_scope.

(** A cached section.  [cacheElements] keeps only the sections whose
      element exists, so the element is always there; its layout is read off
      it at each scroll.  Offsets are in whole CSS pixels. *)
Record Section := {
    id : jsstring;
    offsetTop : Z;        (* section.element.offsetTop *)
    offsetHeight : Z;     (* section.element.offsetHeight *)
    link : nat            (* position of section.link in navLinks *)
}.

Record State := {
    sections : list Section;
    navLinks : list (list jsstring);         (* the class list of each nav link *)
    isScrolling : bool;
    currentActiveSection : option nat;       (* position in [sections], or [null] *)
    inThrottle : bool                        (* the flag of Events.throttle *)
}.

(** [this.config.headerOffset]. *)
Definition headerOffset : Z := 80.

(** The test "we're in this section". *)
Definition in_section (scrollPosition : Z) (s : Section) : bool :=
  let sectionTop := offsetTop s in
  let sectionHeight := offsetHeight s in
  let sectionBottom := sectionTop + sectionHeight in
  (sectionTop - 100 <=? scrollPosition) && (scrollPosition <=? sectionBottom).

(** The loop [for (let i = k - 1; i >= 0; i--)]: the first position, going
      down from [k - 1], whose section passes the test. *)
Fixpoint find_from (scrollPosition : Z) (secs : list Section) (k : nat) : option nat :=
  match k with
  | O => None
  | S i =>
      match secs !! i with
      | Some s => if in_section scrollPosition s then Some i else find_from scrollPosition secs i
      | None => find_from scrollPosition secs i
      end
  end.

Definition findActiveSection (pageYOffset : Z) (secs : list Section) : option nat :=
  let scrollPosition := pageYOffset + headerOffset in
  find_from scrollPosition secs (length secs).

(** [updateActiveLinks(activeSection)]. *)
Definition updateActiveLinks (activeSection : option nat) (st : State) : State :=
  if bool_decide (activeSection = currentActiveSection st) then st
  else
    let cleared := map (class_remove [lit "active"]) (navLinks st) in
    let links :=
      match activeSection with
      | Some i =>
          match sections st !! i with
          | Some s => alter (class_add (lit "active")) (link s) cleared
          | None => cleared
          end
      | None => cleared
      end in
    {| sections := sections st; navLinks := links; isScrolling := isScrolling st;
       currentActiveSection := activeSection; inThrottle := inThrottle st |}.

(** The function handed to [Events.throttle] in [setupActiveSection]. *)
Definition updateActiveSection (pageYOffset : Z) (st : State) : State :=
  if isScrolling st then st
  else updateActiveLinks (findActiveSection pageYOffset (sections st)) st.

(** The throttled function: a call while [inThrottle] is set is dropped. *)
Definition onScroll (pageYOffset : Z) (st : State) : State :=
  if inThrottle st then st
  else
    let st := updateActiveSection pageYOffset st in
    {| sections := sections st; navLinks := navLinks st; isScrolling := isScrolling st;
       currentActiveSection := currentActiveSection st; inThrottle := true |}.

(** The timer of the throttle fires after 100 ms. *)
Definition onThrottleTimer (st : State) : State :=
  {| sections := sections st; navLinks := navLinks st; isScrolling := isScrolling st;
     currentActiveSection := currentActiveSection st; inThrottle := false |}.

End Navigation.

(* ===================================================================== *)
(** ** Regular expressions, as far as utils.js uses them *)
(* ===================================================================== *)

Module Regex.

(** A pattern over code units. *)
Inductive re :=
| Never
| Eps
| Class (p : N -> bool)
| Cat (a b : re)
| Alt (a b : re)
| Star (a : re).

Definition Plus (a : re) : re := Cat a (Star a).
Definition Opt (a : re) : re := Alt Eps a.

(** [a{0,n}]. *)
Fixpoint UpTo (n : nat) (a : re) : re :=
  match n with
  | O => Eps
  | S k => Opt (Cat a (UpTo k a))
  end.

Fixpoint nullable (r : re) : bool :=
  match r with
  | Never => false
  | Eps => true
  | Class _ => false
  | Cat a b => nullable a && nullable b
  | Alt a b => nullable a || nullable b
  | Star _ => true
  end.

(** The pattern of what may follow [c]. *)
Fixpoint deriv (c : N) (r : re) : re :=
  match r with
  | Never => Never
  | Eps => Never
  | Class p => if p c then Eps else Never
  | Cat a b =>
      if nullable a then Alt (Cat (deriv c a) b) (deriv c b)
      else Cat (deriv c a) b
  | Alt a b => Alt (deriv c a) (deriv c b)
  | Star a => Cat (deriv c a) (Star a)
  end.

(** [/^r$/.test(s)]: the whole of [s] matches [r]. *)
Definition test (r : re) (s : jsstring) : bool :=
  nullable (fold_left (fun r c => deriv c r) s r).

End Regex.

(* ===================================================================== *)
(** ** assets/js/utils.js: Validation *)
(* ===================================================================== *)

Module Validation.

Import Regex.

(** The class [[^\s@]]. *)
Definition not_space_at (c : N) : bool := negb (is_space c || (c =? 64)).

(** [/^[^\s@]+@[^\s@]+\.[^\s@]+$/]. *)
Definition email_re : re :=
  Cat (Plus (Class not_space_at))
    (Cat (Class (N.eqb 64))
       (Cat (Plus (Class not_space_at))
          (Cat (Class (N.eqb 46)) (Plus (Class not_space_at))))).

Definition isEmail (email : jsstring) : bool := test email_re email.

(** The class [[\s\-\(\)]]. *)
Definition phone_noise (c : N) : bool :=
  is_space c || (c =? 45) || (c =? 40) || (c =? 41).

(** [/^[\+]?[1-9][\d]{0,15}$/]. *)
Definition phone_re : re :=
  Cat (Opt (Class (N.eqb 43)))
    (Cat (Class (fun c => (49 <=? c) && (c <=? 57)))
       (UpTo 15 (Class (fun c => (48 <=? c) && (c <=? 57))))).

Definition isPhone (phone : jsstring) : bool :=
  test phone_re (List.filter (fun c => negb (phone_noise c)) phone).

(** [isNotEmpty(str)] for a string [str]. *)
Definition isNotEmpty (str : jsstring) : bool :=
  Nat.ltb 0 (length (trim str)).

(** [minLength(str, length)] and [maxLength(str, length)] for a string
    [str]; [length] is an integer or [undefined], and a comparison with
    [undefined] is false. *)
Definition minLength (str : jsstring) (len : option Z) : bool :=
  match len with
  | Some n => (n <=? Z.of_nat (length str))%Z
  | None => false
  end.

Definition maxLength (str : jsstring) (len : option Z) : bool :=
  match len with
  | Some n => (Z.of_nat (length str) <=? n)%Z
  | None => false
  end.

End Validation.

(* ===================================================================== *)
(** ** assets/js/forms.js: FormManager *)
(* ===================================================================== *)

Module Forms.

(** A number written in a rule.  The model takes the integers a
    JavaScript number holds exactly: they compare as integers, and a
    template literal prints them in plain decimal digits. *)
Record jsint := {
  int_val : Z;
  int_safe : (Z.abs int_val <=? 9007199254740991)%Z = true
}.

(** The [params] of a rule written as an object. *)
Inductive params :=
| PUndefined                 (* no [params] property *)
| PValue (n : jsint)         (* params: n *)
| PArray (l : list jsint).   (* params: [n1, n2, ...] *)

(** An entry of a rule list: a name, or [{ rule: name, params }]. *)
Inductive rule :=
| RName (name : jsstring)
| RObject (name : jsstring) (p : params).

Definition ruleName (r : rule) : jsstring :=
  match r with
  | RName n => n
  | RObject n _ => n
  end.

(** [ruleParams]; [None] is [undefined]. *)
Definition ruleParams (r : rule) : list (option jsint) :=
  match r with
  | RName _ => []
  | RObject _ PUndefined => [None]
  | RObject _ (PValue n) => [Some n]
  | RObject _ (PArray l) => map Some l
  end.

(** [ruleParams[0]]. *)
Definition param0 (ps : list (option jsint)) : option jsint :=
  match ps with
  | p :: _ => p
  | [] => None
  end.

Record validator := {
  validate : jsstring -> list (option jsint) -> bool;
  message : jsstring
}.

(** What [table[name]] yields when [table] is a plain object used as a
    table: the entry the table has of its own, or else what every object
    inherits under that name, or else [undefined]. *)
Inductive entry (A : Type) :=
| Own (a : A)
| FromPrototype
| Absent.
Arguments Own {A} a.
Arguments FromPrototype {A}.
Arguments Absent {A}.

Definition table_get {A : Type} (own : option A) (name : jsstring) : entry A :=
  match own with
  | Some a => Own a
  | None => if inherited name then FromPrototype else Absent
  end.

(** The five entries the object [this.defaultRules] has of its own. *)
Definition ownRules (name : jsstring) : option validator :=
  if streq name (lit "email") then
    Some {| validate := fun value _ => Validation.isEmail value;
            message := lit "Please enter a valid email address" |}
  else if streq name (lit "phone") then
    Some {| validate := fun value _ => Validation.isPhone value;
            message := lit "Please enter a valid phone number" |}
  else if streq name (lit "required") then
    Some {| validate := fun value _ => Validation.isNotEmpty value;
            message := lit "This field is required" |}
  else if streq name (lit "minLength") then
    Some {| validate :=
              fun value ps => Validation.minLength value (int_val <$> param0 ps);
            message := lit "Field is too short" |}
  else if streq name (lit "maxLength") then
    Some {| validate :=
              fun value ps => Validation.maxLength value (int_val <$> param0 ps);
            message := lit "Field is too long" |}
  else None.

(** [this.defaultRules[ruleName]]. *)
Definition defaultRules (name : jsstring) : entry validator :=
  table_get (ownRules name) name.

(** [`${x}`] for such an integer or [undefined]. *)
Definition show_param (p : option jsint) : jsstring :=
  match p with
  | Some n => of_Z (int_val n)
  | None => lit "undefined"
  end.

(** The message shown when rule [r] fails. *)
Definition failure_message (v : validator) (r : rule) : jsstring :=
  if streq (ruleName r) (lit "minLength") then
    lit "This field must be at least " ++ show_param (param0 (ruleParams r))
      ++ lit " characters"
  else if streq (ruleName r) (lit "maxLength") then
    lit "This field must be at most " ++ show_param (param0 (ruleParams r))
      ++ lit " characters"
  else message v.

(** The loop over the rules of [validateField].  The result is the message
    of the rule the loop returned at, if any, and the rules whose
    [validate] was called, in the order of the calls.  Under a name the
    table only inherits, [validator] is no validator and the call of
    [validator.validate] throws. *)
Fixpoint check_rules (value : jsstring) (rules : list rule)
  : completion (option jsstring * list rule) :=
  match rules with
  | [] => Normal (None, [])
  | r :: rest =>
      match defaultRules (ruleName r) with
      | Absent => check_rules value rest              (* continue *)
      | FromPrototype => Throw TypeError
      | Own v =>
          let isValid := validate v value (ruleParams r) in
          if negb isValid then Normal (Some (failure_message v r), [r])
          else
            '(m, calls) ← check_rules value rest;
            Normal (m, r :: calls)
      end
  end.

(** A form control.  [parent] names its [parentElement]: controls with
    the same number sit in the same element. *)
Record Field := {
  value : jsstring;
  defaultValue : jsstring;
  classes : list jsstring;
  aria_invalid : option jsstring;
  parent : nat
}.

(** A registered form.  [fields] and [errors] are the maps of that name,
    keyed by [field.name || field.id]; [field_order] lists the keys of
    [fields] in the order [forEach] visits them.  [validationRules] holds
    the entries the object [config.validationRules] has of its own.
    [messages] is what [parentElement.querySelector('.field-error')]
    finds: for each parent element that has such an element, its
    [textContent].  Controls in the same parent element share that
    element.  The markup of the page is not among the sources; the model
    takes it that the parents of the controls do not lie inside one
    another, that a parent has no such element besides the one
    [setFieldError] appends to it, and that [config.validationRules] is
    a plain object as [defaultRules] is, one that inherits from
    [Object.prototype] and nothing else. *)
Record Form := {
  validationRules : option (gmap (list N) (list rule));   (* config.validationRules *)
  fields : gmap (list N) Field;
  field_order : list (list N);
  errors : gmap (list N) (list N);
  messages : gmap nat (list N);
  error_styles : bool            (* the style element #field-error-styles exists *)
}.

(** The class and the attribute that mark a control as invalid. *)
Definition mark (invalid : bool) (f : Field) : Field :=
  if invalid then
    {| value := value f; defaultValue := defaultValue f;
       classes := class_add (lit "error") (classes f);
       aria_invalid := Some (lit "true");
       parent := parent f |}
  else
    {| value := value f; defaultValue := defaultValue f;
       classes := class_remove [lit "error"] (classes f);
       aria_invalid := None;
       parent := parent f |}.

(** [setFieldError(formId, field, message)]: the error element of the
    parent is found or created, and gets the message. *)
Definition setFieldError (fieldName : jsstring) (msg : jsstring) (form : Form) : Form :=
  {| validationRules := validationRules form;
     fields := alter (mark true) fieldName (fields form);
     field_order := field_order form;
     errors := <[fieldName := msg]> (errors form);
     messages :=
       match fields form !! fieldName with
       | Some f => <[parent f := msg]> (messages form)
       | None => messages form
       end;
     error_styles := true |}.

(** [clearFieldError(formId, field)]: the error element of the parent,
    if there is one, is removed. *)
Definition clearFieldError (fieldName : jsstring) (form : Form) : Form :=
  {| validationRules := validationRules form;
     fields := alter (mark false) fieldName (fields form);
     field_order := field_order form;
     errors := delete fieldName (errors form);
     messages :=
       match fields form !! fieldName with
       | Some f => delete (parent f) (messages form)
       | None => messages form
       end;
     error_styles := error_styles form |}.

(** What one call of [validateField] did: its result, the form it left and
    the rules whose [validate] it called. *)
Record Validated := {
  isValid : bool;
  after : Form;
  called : list rule
}.

(** [validateField(formId, field)] for the field named [fieldName] of a
    registered form; the listeners only ever pass a registered field.
    Under a field name the table of rules only inherits, [rules] is not
    iterable and the loop throws.  Nothing is written before the loop has
    returned, so a call that throws leaves the form as it was. *)
Definition validateField (fieldName : jsstring) (form : Form) : completion Validated :=
  let untouched := Normal {| isValid := true; after := form; called := [] |} in
  match validationRules form with
  | None => untouched
  | Some table =>
      match fields form !! fieldName with
      | None => untouched
      | Some f =>
          match table_get (table !! fieldName) fieldName with
          | Absent => untouched
          | FromPrototype => Throw TypeError
          | Own rules =>
              '(m, calls) ← check_rules (trim (value f)) rules;
              match m with
              | Some msg =>
                  Normal {| isValid := false;
                            after := setFieldError fieldName msg form;
                            called := calls |}
              | None =>
                  Normal {| isValid := true;
                            after := clearFieldError fieldName form;
                            called := calls |}
              end
          end
      end
  end.

(** [validateForm(formId)]: every field is validated, whatever the result
    of the fields before it, until a call throws.  The result is the form
    as it is left and what [validateForm] returned or threw. *)
Definition validateForm (form : Form) : Form * completion bool :=
  fold_left
    (fun '(fm, res) fieldName =>
       match res with
       | Throw e => (fm, Throw e)
       | Normal ok =>
           match validateField fieldName fm with
           | Normal r => (after r, Normal (ok && isValid r))
           | Throw e => (fm, Throw e)
           end
       end)
    (field_order form) (form, Normal true).

(** [form.reset()] of the DOM: every control returns to its default. *)
Definition dom_reset (form : Form) : Form :=
  {| validationRules := validationRules form;
     fields :=
       (fun f => {| value := defaultValue f; defaultValue := defaultValue f;
                    classes := classes f; aria_invalid := aria_invalid f;
                    parent := parent f |}) <$> fields form;
     field_order := field_order form;
     errors := errors form;
     messages := messages form;
     error_styles := error_styles form |}.

(** What the page can do to a registered form. *)
Inductive event :=
| Blur (fieldName : jsstring)                      (* the control loses focus *)
| Input (fieldName : jsstring) (text : jsstring)   (* the user edits the control *)
| Submit                                           (* the form is submitted *)
| SubmitResolved.                                  (* the submission resolves: form.reset() *)

Definition set_value (text : jsstring) (f : Field) : Field :=
  {| value := text; defaultValue := defaultValue f; classes := classes f;
     aria_invalid := aria_invalid f; parent := parent f |}.

(** The listeners [registerForm] attaches, and the tail of
    [handleContactSubmit]: the form an event leaves, and the exception
    [validateField] threw in the listener, if any (on a submission it is
    the promise of [handleFormSubmit] that is rejected with it). *)
Definition handle (e : event) (form : Form) : Form * option exn :=
  match e with
  | Blur fieldName =>
      match validateField fieldName form with
      | Normal r => (after r, None)
      | Throw x => (form, Some x)
      end
  | Input fieldName text =>
      (clearFieldError fieldName
         {| validationRules := validationRules form;
            fields := alter (set_value text) fieldName (fields form);
            field_order := field_order form;
            errors := errors form; messages := messages form;
            error_styles := error_styles form |},
       None)
  | Submit =>
      let '(fm, res) := validateForm form in
      (fm, match res with Throw x => Some x | Normal _ => None end)
  | SubmitResolved => (dom_reset form, None)
  end.

(** [getFormData(formId)]: an object with the trimmed value of every
    field.  Assigning a string to [data['__proto__']] sets no property. *)
Definition getFormData (form : Form) : gmap (list N) (list N) :=
  fold_left
    (fun data fieldName =>
       match fields form !! fieldName with
       | Some f =>
           if streq fieldName (lit "__proto__") then data
           else <[fieldName := trim (value f)]> data
       | None => data
       end)
    (field_order form) ∅.

(** What [handleFormSubmit] did: the form it left, the data it handed to
    [config.onSubmit], if it called it, and the exception its promise was
    rejected with, if validation threw.  The focus that a failed
    validation moves to the first element with the class [error] is not
    modelled; a blur that follows from it is an event of its own. *)
Record Submission := {
  form_after : Form;
  submitted : option (gmap (list N) (list N));
  rejected : option exn
}.

(** [handleFormSubmit(formId)] up to the call of the submit handler;
    [hasOnSubmit] tells whether the configuration has one. *)
Definition handleFormSubmit (hasOnSubmit : bool) (form : Form) : Submission :=
  let '(form, res) := validateForm form in
  match res with
  | Throw x => {| form_after := form; submitted := None; rejected := Some x |}
  | Normal ok =>
      if negb ok then {| form_after := form; submitted := None; rejected := None |}
      else
        {| form_after := form;
           submitted := if hasOnSubmit then Some (getFormData form) else None;
           rejected := None |}
  end.



Definition hasErrors (form : Form) : bool := Nat.ltb 0 (size (errors form)).

End Forms.

(* ===================================================================== *)
(** ** assets/js/utils.js: Events *)
(* ===================================================================== *)

Module Events.

(** The object [events] of [createEmitter] holds, for each event that was
    ever subscribed to, the array of its callbacks.  A callback is known
    by a number, the same number for the same function.  [events] is a
    plain object, so under a name it inherits from [Object.prototype] the
    expression [events[event]] is a function or an object, not an array
    and not [undefined]; it never gets an entry of its own under such a
    name. *)

(** The value of [events[event]]. *)
Inductive slot :=
| Callbacks (l : list nat)
| Inherited
| Undefined.

Definition read (event : jsstring) (events : gmap (list N) (list nat)) : slot :=
  if inherited event then Inherited
  else match events !! event with
       | Some l => Callbacks l
       | None => Undefined
       end.

(** [on(event, callback)], up to the function it returns; [push] is not
    a method of what is inherited. *)
Definition on (event : jsstring) (callback : nat) (events : gmap (list N) (list nat))
  : completion (gmap (list N) (list nat)) :=
  match read event events with
  | Callbacks l => Normal (<[event := l ++ [callback]]> events)
  | Undefined => Normal (<[event := [callback]]> events)
  | Inherited => Throw TypeError
  end.

(** [indexOf(callback)] followed by [splice(index, 1)] when the index is
    not -1: the first occurrence goes. *)
Fixpoint remove_first (callback : nat) (l : list nat) : list nat :=
  match l with
  | [] => []
  | x :: rest => if Nat.eqb x callback then rest else x :: remove_first callback rest
  end.

(** The function [on] returns.  It reads [events[event]] without a guard. *)
Definition unsubscribe (event : jsstring) (callback : nat)
    (events : gmap (list N) (list nat)) : completion (gmap (list N) (list nat)) :=
  match read event events with
  | Callbacks l => Normal (<[event := remove_first callback l]> events)
  | Inherited | Undefined => Throw TypeError
  end.

(** [off(event, callback)]. *)
Definition off (event : jsstring) (callback : nat) (events : gmap (list N) (list nat))
  : completion (gmap (list N) (list nat)) :=
  match read event events with
  | Callbacks l => Normal (<[event := remove_first callback l]> events)
  | Undefined => Normal events
  | Inherited => Throw TypeError
  end.

(** [emit(event, data)]: the callbacks it calls, in the order of the
    calls. *)
Definition emit (event : jsstring) (events : gmap (list N) (list nat))
  : completion (list nat) :=
  match read event events with
  | Callbacks l => Normal l
  | Undefined => Normal []
  | Inherited => Throw TypeError
  end.

(** What drives a wrapped function: a call with its arguments, or the
    timer the wrapper has set going off. *)
Inductive tick (A : Type) :=
| Call (args : A)
| Fire.
Arguments Call {A} args.
Arguments Fire {A}.

(** The function [once(func)] returns; the state is [executed], the result
    the arguments [func] is called with, if it is called. *)
Definition once_call {A} (args : A) (executed : bool) : bool * option A :=
  if negb executed then (true, Some args) else (executed, None).

(** The function [throttle(func, limit)] returns, and its timer; the state
    is [inThrottle]. *)
Definition throttle_step {A} (inThrottle : bool) (t : tick A) : bool * list A :=
  match t with
  | Call args => if negb inThrottle then (true, [args]) else (inThrottle, [])
  | Fire => (false, [])
  end.

(** The function [debounce(func, wait, immediate)] returns, and its timer.
    The state is [timeout]: the arguments the pending timer was set with,
    or [None] when no timer is pending. *)
Definition debounce_step {A} (immediate : bool) (timeout : option A) (t : tick A)
  : option A * list A :=
  match t with
  | Call args =>
      let callNow :=
        immediate && match timeout with None => true | Some _ => false end in
      (Some args, if callNow then [args] else [])
  | Fire =>
      match timeout with
      | Some args => (None, if negb immediate then [args] else [])
      | None => (None, [])
      end
  end.

(** A wrapper driven through a sequence of calls and timers: the state it
    ends in and the calls of [func] it made, in order. *)
Fixpoint drive {A S} (step : S -> tick A -> S * list A) (ts : list (tick A)) (s : S)
  : S * list A :=
  match ts with
  | [] => (s, [])
  | t :: rest =>
      let '(s1, calls1) := step s t in
      let '(s2, calls2) := drive step rest s1 in
      (s2, calls1 ++ calls2)
  end.

End Events.

(* ===================================================================== *)
(** ** assets/js/utils.js: Device, and its use in main.js *)
(* ===================================================================== *)

Module Device.

(** The canonical form of a code unit under the flag [i]: a lower-case
    ASCII letter becomes the upper-case one; no other code unit becomes an
    ASCII one. *)
Definition fold_case (c : N) : N :=
  if (97 <=? c) && (c <=? 122) then c - 32 else c.

(** The ASCII word [pat] is at the start of [s], case ignored. *)
Fixpoint starts_ci (pat : jsstring) (s : jsstring) : bool :=
  match pat, s with
  | [], _ => true
  | p :: pat', c :: s' => (fold_case p =? fold_case c) && starts_ci pat' s'
  | _ :: _, [] => false
  end.

(** [/pat/i.test(s)] for a word [pat]. *)
Fixpoint contains_ci (pat : jsstring) (s : jsstring) : bool :=
  starts_ci pat s ||
  match s with
  | _ :: s' => contains_ci pat s'
  | [] => false
  end.

(** The characters the dot of a pattern does not match. *)
Definition is_line_terminator (c : N) : bool :=
  (c =? 10) || (c =? 13) || (c =? 8232) || (c =? 8233).

(** [.*pat] matches at the start of [s]. *)
Fixpoint dot_star_then (pat : jsstring) (s : jsstring) : bool :=
  starts_ci pat s ||
  match s with
  | c :: s' => negb (is_line_terminator c) && dot_star_then pat s'
  | [] => false
  end.

(** [Android(?!.*Mobile)] matches somewhere in [s]. *)
Fixpoint android_not_mobile (s : jsstring) : bool :=
  (starts_ci (lit "Android") s &&
   negb (dot_star_then (lit "Mobile") (drop 7 s))) ||
  match s with
  | _ :: s' => android_not_mobile s'
  | [] => false
  end.

(** [isMobile], [isTablet] and [isDesktop] for [navigator.userAgent]. *)
Definition isMobile (userAgent : jsstring) : bool :=
  existsb (fun pat => contains_ci pat userAgent)
    [lit "Android"; lit "webOS"; lit "iPhone"; lit "iPad"; lit "iPod";
     lit "BlackBerry"; lit "IEMobile"; lit "Opera Mini"].

Definition isTablet (userAgent : jsstring) : bool :=
  contains_ci (lit "iPad") userAgent || android_not_mobile userAgent.

Definition isDesktop (userAgent : jsstring) : bool :=
  negb (isMobile userAgent) && negb (isTablet userAgent).

(** main.js, [setupDeviceDetection]: the device class added to [body]. *)
Definition deviceClass (userAgent : jsstring) : jsstring :=
  if isMobile userAgent then lit "is-mobile"
  else if isTablet userAgent then lit "is-tablet"
  else lit "is-desktop".

End Device.

(* ===================================================================== *)
(** ** assets/js/utils.js: Format *)
(* ===================================================================== *)

Module Format.

(** [truncate(str, length, suffix = '...')] for an integer [length];
    [substring] takes a negative end for 0. *)
Definition truncate (str : jsstring) (len : Z) (suffix : jsstring) : jsstring :=
  if (len <? Z.of_nat (length str))%Z
  then take (Z.to_nat len) str ++ suffix
  else str.

End Format.

(* ===================================================================== *)
(** ** assets/js/navigation.js: the mobile menu *)
(* ===================================================================== *)

Module Menu.

Record El := {
  classes : list jsstring;
  attrs : gmap (list N) (list N)
}.

Record State := {
  mobileMenuToggle : option El;     (* DOM.select('.mobile-menu-toggle') *)
  navLinksContainer : option El;    (* DOM.select('.nav-links') *)
  hasNavLinks : bool;               (* this.navLinks[0] is there *)
  bodyOverflow : jsstring;          (* document.body.style.overflow *)
  focusTimers : nat                 (* timers set to focus the first link *)
}.

(** Reaching into an element that is [null] throws. *)
Definition element (e : option El) : completion El :=
  match e with
  | Some x => Normal x
  | None => Throw TypeError
  end.

Definition add_class (name : jsstring) (e : El) : El :=
  {| classes := class_add name (classes e); attrs := attrs e |}.
Definition remove_class (name : jsstring) (e : El) : El :=
  {| classes := class_remove [name] (classes e); attrs := attrs e |}.
Definition set_attr (name value : jsstring) (e : El) : El :=
  {| classes := classes e; attrs := <[name := value]> (attrs e) |}.

(** [isMobileMenuOpen]. *)
Definition isMobileMenuOpen (st : State) : completion bool :=
  t ← element (mobileMenuToggle st);
  Normal (class_contains (lit "active") (classes t)).

(** [openMobileMenu]. *)
Definition openMobileMenu (st : State) : completion State :=
  t ← element (mobileMenuToggle st);
  let t := add_class (lit "active") t in
  c ← element (navLinksContainer st);
  let c := add_class (lit "active") c in
  (* Prevent body scroll when menu is open *)
  let overflow := lit "hidden" in
  (* Focus first menu item for accessibility *)
  let timers := if hasNavLinks st then S (focusTimers st) else focusTimers st in
  (* Update aria attributes *)
  let t := set_attr (lit "aria-expanded") (lit "true") t in
  let c := set_attr (lit "aria-hidden") (lit "false") c in
  Normal {| mobileMenuToggle := Some t; navLinksContainer := Some c;
            hasNavLinks := hasNavLinks st; bodyOverflow := overflow;
            focusTimers := timers |}.

(** [closeMobileMenu]. *)
Definition closeMobileMenu (st : State) : completion State :=
  t ← element (mobileMenuToggle st);
  let t := remove_class (lit "active") t in
  c ← element (navLinksContainer st);
  let c := remove_class (lit "active") c in
  (* Restore body scroll *)
  let overflow := [] in
  (* Update aria attributes *)
  let t := set_attr (lit "aria-expanded") (lit "false") t in
  let c := set_attr (lit "aria-hidden") (lit "true") c in
  Normal {| mobileMenuToggle := Some t; navLinksContainer := Some c;
            hasNavLinks := hasNavLinks st; bodyOverflow := overflow;
            focusTimers := focusTimers st |}.

(** [toggleMobileMenu]. *)
Definition toggleMobileMenu (st : State) : completion State :=
  isOpen ← isMobileMenuOpen st;
  if (isOpen : bool) then closeMobileMenu st else openMobileMenu st.

(** [setupMobileMenu] attaches its listeners only when both elements are
    there. *)
Definition listening (st : State) : bool :=
  match mobileMenuToggle st, navLinksContainer st with
  | Some _, Some _ => true
  | _, _ => false
  end.

(** [this.config.mobileBreakpoint]. *)
Definition mobileBreakpoint : Z := 768.

Inductive event :=
| ToggleClick                                (* a click on the toggle button *)
| LinkClick (hasTarget inContainer : bool)   (* a click on a nav link, which is not
                                                part of the toggle: its section
                                                exists, it lies in the container *)
| OtherClick                                 (* a click anywhere else *)
| KeyDown (key : jsstring)
| Resized (innerWidth : Z).                  (* the debounced resize listener runs *)

(** [if (cond && this.isMobileMenuOpen()) this.closeMobileMenu()]. *)
Definition close_if_open (cond : bool) (st : State) : completion State :=
  if cond then
    isOpen ← isMobileMenuOpen st;
    if (isOpen : bool) then closeMobileMenu st else Normal st
  else Normal st.

(** The listeners that run on an event, in the order they were attached:
    the one of [setupSmoothScrolling] for a link, then those of
    [setupMobileMenu]. *)
Definition handle (e : event) (st : State) : completion State :=
  match e with
  | ToggleClick =>
      if listening st then
        st ← toggleMobileMenu st;
        (* the click listener of the document sees a click on the toggle *)
        close_if_open false st
      else Normal st
  | LinkClick hasTarget inContainer =>
      st ← (if hasTarget then closeMobileMenu st else Normal st);
      if listening st then
        st ← closeMobileMenu st;
        close_if_open (negb inContainer) st
      else Normal st
  | OtherClick =>
      if listening st then close_if_open true st else Normal st
  | KeyDown key =>
      if listening st then close_if_open (streq key (lit "Escape")) st else Normal st
  | Resized innerWidth =>
      if listening st then close_if_open (mobileBreakpoint <=? innerWidth)%Z st
      else Normal st
  end.

End Menu.

(* ===================================================================== *)
(** ** assets/js/navigation.js: the header on scroll, the arrow keys *)
(* ===================================================================== *)

Module Header.

(** The header element and the two variables [setupScrollHeader] keeps. *)
Record State := {
  classes : list jsstring;
  transform : option jsstring;     (* header.style.transform, once written *)
  lastScrollY : Z;
  isHeaderHidden : bool
}.

(** The function handed to [Events.throttle] in [setupScrollHeader];
    [isDesktop] is [Device.isDesktop()]. *)
Definition updateHeader (isDesktop : bool) (currentScrollY : Z) (st : State) : State :=
  let scrollingDown := (lastScrollY st <? currentScrollY)%Z in
  let scrolledPastThreshold := (100 <? currentScrollY)%Z in
  (* Add scrolled class for styling *)
  let cl := class_toggle (lit "scrolled") scrolledPastThreshold (classes st) in
  let '(tr, hidden) :=
    if isDesktop && scrolledPastThreshold then
      if scrollingDown && negb (isHeaderHidden st) then
        (Some (lit "translateY(-100%)"), true)
      else if negb scrollingDown && isHeaderHidden st then
        (Some (lit "translateY(0)"), false)
      else (transform st, isHeaderHidden st)
    else if negb scrolledPastThreshold && isHeaderHidden st then
      (Some (lit "translateY(0)"), false)
    else (transform st, isHeaderHidden st) in
  {| classes := cl; transform := tr; lastScrollY := currentScrollY;
     isHeaderHidden := hidden |}.

End Header.

Module Keyboard.

(** [setupKeyboardNavigation]: the link that gets the focus when [key] is
    pressed on link [index] of [length] links, if the key moves it.  The
    listener sits on a link, so there is at least one. *)
Definition onLinkKey (key : jsstring) (index length : nat) : option nat :=
  if streq key (lit "ArrowDown") || streq key (lit "ArrowRight") then
    Some ((index + 1) mod length)%nat
  else if streq key (lit "ArrowUp") || streq key (lit "ArrowLeft") then
    Some ((index + length - 1) mod length)%nat
  else if streq key (lit "Home") then Some 0%nat
  else if streq key (lit "End") then Some (length - 1)%nat
  else None.

End Keyboard.

(* ===================================================================== *)
(** * The vocabulary of the properties *)
(* ===================================================================== *)

(** ** The theme resolver *)

Section ThemeVocabulary.
Import Theme.

(** The three preference values. *)
Definition valid_theme (t : jsstring) : Prop :=
  t = LIGHT \/ t = DARK \/ t = SYSTEM.

(** The ambient scheme as a theme value. *)
Definition ambient (dark : bool) : jsstring :=
  if dark then DARK else LIGHT.

(** The effective theme as a function of preference and ambient scheme. *)
Definition resolve (preference : jsstring) (dark : bool) : jsstring :=
  if streq preference SYSTEM then ambient dark else preference.

(** The claim of C5 as it is worded: what is stored under the key is one
    of the three words themselves. *)
Definition stored_literally (st : State) : Prop :=
  forall raw,
    LocalStorage.items (storage st) !! STORAGE_KEY = Some raw ->
    In raw THEME_VALUES.

(** An empty, working store. *)
Definition empty_storage : LocalStorage.t :=
  {| LocalStorage.items := ∅; LocalStorage.blocked := false; LocalStorage.full := false |}.

(** A page with the toggle button and its icon. *)
Definition page : Document :=
  {| html_classes := []; html_data_theme := None; body_classes := [];
     toggleButton := Some {| btn_classes := []; btn_attrs := ∅;
                             icon := Some (lit "fas fa-moon") |};
     meta_theme_color := None |}.

(** A manager following the system, in a browser whose ambient scheme is
    [dark] and whose store is [ls]. *)
Definition following_system (dark : bool) (ls : LocalStorage.t) : State :=
  {| currentTheme := SYSTEM; storage := ls; prefersDark := dark;
     prefersReducedMotion := false; document := page; trace := [] |}.

(** The states a manager can be in: it is constructed in some browser,
    its operations run, and scripts outside it may change the store. *)
Inductive reachable : State -> Prop :=
| reach_construct ls dark reduced d st :
    construct ls dark reduced d = Normal st -> reachable st
| reach_run o st st' :
    reachable st -> run o st = Normal st' -> reachable st'
| reach_storage ls st :
    reachable st -> reachable (set_storage ls st).

(** A store in which [Storage.set] has saved the preference dark: the
    entry is the word in double quotes. *)
Definition dark_saved : LocalStorage.t :=
  {| LocalStorage.items := {[ STORAGE_KEY := 34 :: DARK ++ [34] ]};
     LocalStorage.blocked := false; LocalStorage.full := false |}.

End ThemeVocabulary.

(** ** The active section *)

Section NavigationVocabulary.
Import Navigation.

(** The range test in arithmetic. *)
Definition contains (position : Z) (s : Section) : Prop :=
  (offsetTop s - 100 <= position /\ position <= offsetTop s + offsetHeight s)%Z.

(** The active section as the specification words it: the last section,
    in document order, whose top is at or above [position]. *)
Fixpoint last_top_above_from (position : Z) (secs : list Section) (i : nat)
  : option nat :=
  match secs with
  | [] => None
  | s :: rest =>
      match last_top_above_from position rest (S i) with
      | Some j => Some j
      | None => if (offsetTop s <=? position)%Z then Some i else None
      end
  end.

Definition last_top_above (position : Z) (secs : list Section) : option nat :=
  last_top_above_from position secs 0.

(** Two sections of 600 pixels one after the other, and a footer below. *)
Definition two_sections : list Section :=
  [ {| id := lit "hero"; offsetTop := 0; offsetHeight := 600; link := 0 |};
    {| id := lit "about"; offsetTop := 600; offsetHeight := 600; link := 1 |} ].

Definition reading_about : State :=
  {| sections := two_sections;
     navLinks := [[lit "nav-link"]; [lit "nav-link"; lit "active"]];
     isScrolling := false;
     currentActiveSection := Some 1%nat;
     inThrottle := false |}.

End NavigationVocabulary.

(** ** The field validator *)

Section FormsVocabulary.
Import Forms.

(** The rule has a validator of its own in [defaultRules]. *)
Definition known_rule (r : rule) : bool :=
  match defaultRules (ruleName r) with
  | Own _ => true
  | _ => false
  end.

(** The name of the rule is not one that [defaultRules] only inherits
    from [Object.prototype]. *)
Definition sound_name (r : rule) : Prop := inherited (ruleName r) = false.

(** The rule does not stop the loop: it has no entry at all, or its
    validator accepts the value. *)
Definition passes (value : jsstring) (r : rule) : Prop :=
  match defaultRules (ruleName r) with
  | Own v => validate v value (ruleParams r) = true
  | Absent => True
  | FromPrototype => False
  end.

(** The rule stops the loop with message [msg]. *)
Definition fails_with (value : jsstring) (r : rule) (msg : jsstring) : Prop :=
  exists v, defaultRules (ruleName r) = Own v /\
            validate v value (ruleParams r) = false /\
            msg = failure_message v r.









(** The form after the events [es], one after the other. *)
Definition run (es : list event) (form : Form) : Form :=
  foldl (fun fm e => fst (handle e fm)) form es.


(** The numbers in the rules of the contact form. *)
Definition two : jsint := {| int_val := 2; int_safe := eq_refl |}.
Definition ten : jsint := {| int_val := 10; int_safe := eq_refl |}.

(** The rules [setupContactForm] registers. *)
Definition contact_rules : gmap (list N) (list rule) :=
  <[lit "name" := [RName (lit "required"); RObject (lit "minLength") (PValue two)]]>
    (<[lit "email" := [RName (lit "required"); RName (lit "email")]]>
       (<[lit "subject" := [RName (lit "required")]]>
          (<[lit "message" := [RName (lit "required");
                               RObject (lit "minLength") (PValue ten)]]> ∅))).

(** A control without marks, in the parent element [p]. *)
Definition blank (text : jsstring) (p : nat) : Field :=
  {| value := text; defaultValue := []; classes := [lit "form-input"];
     aria_invalid := None; parent := p |}.

(** The contact form with [text] typed into the field [email] and the
    other fields empty; each control in an element of its own. *)
Definition contact_form (text : jsstring) : Form :=
  {| validationRules := Some contact_rules;
     fields := <[lit "name" := blank [] 0]>
                 (<[lit "email" := blank text 1]>
                    (<[lit "subject" := blank [] 2]>
                       (<[lit "message" := blank [] 3]> ∅)));
     field_order := [lit "name"; lit "email"; lit "subject"; lit "message"];
     errors := ∅;
     messages := ∅;
     error_styles := false |}.



End FormsVocabulary.

Section FormCallsVocabulary.
Import Forms.

(** What [validateField] has to go by for a field: its rules and its
    trimmed value, when the table of rules has an entry of its own for
    the field and the field is registered. *)
Definition subject (fieldName : jsstring) (form : Form)
  : option (list rule * jsstring) :=
  table ← validationRules form;
  rules ← table !! fieldName;
  f ← fields form !! fieldName;
  Some (rules, trim (value f)).

(** What the rules make of a value: the message of the rule that fails,
    if any, or the exception of the loop. *)
Definition verdict (s : list rule * jsstring) : completion (option jsstring) :=
  '(m, _) ← check_rules (snd s) (fst s);
  Normal m.

(** The field is registered, and the table of rules has no entry of its
    own under its name but inherits one from [Object.prototype]. *)
Definition inherits_rules (fieldName : jsstring) (form : Form) : Prop :=
  exists table,
    validationRules form = Some table /\
    is_Some (fields form !! fieldName) /\
    table !! fieldName = None /\
    inherited fieldName = true.

(** [validateField] cannot go through with the field: what it finds as
    the rules of the field is inherited, or the loop over the rules meets
    a rule name that [defaultRules] only inherits. *)
Definition breaks (fieldName : jsstring) (form : Form) : Prop :=
  inherits_rules fieldName form \/
  exists s e, subject fieldName form = Some s /\ verdict s = Throw e.

(** How [validateField] ends: with a message through [setFieldError],
    without one through [clearFieldError]. *)
Definition settle (fieldName : jsstring) (m : option jsstring) (form : Form) : Form :=
  match m with
  | Some msg => setFieldError fieldName msg form
  | None => clearFieldError fieldName form
  end.

(** The two forms have the same rules and the same controls, with the
    same values, in the same parent elements. *)
Definition same_input (form form' : Form) : Prop :=
  validationRules form' = validationRules form /\
  field_order form' = field_order form /\
  forall m,
    (fun f => (value f, parent f)) <$> fields form' !! m
    = (fun f => (value f, parent f)) <$> fields form !! m.

(** The loop of [validateForm] from any point on. *)
Definition validate_from (names : list jsstring) (start : Form * completion bool)
  : Form * completion bool :=
  fold_left
    (fun '(fm, res) fieldName =>
       match res with
       | Throw e => (fm, Throw e)
       | Normal ok =>
           match validateField fieldName fm with
           | Normal r => (after r, Normal (ok && isValid r))
           | Throw e => (fm, Throw e)
           end
       end)
    names start.

End FormCallsVocabulary.

(** ** The rest of the code *)

Section ThemeRest.
Import Theme.

(** The manager a fresh browser constructs: empty store, light ambient
    scheme, the page with its button. *)
Definition fresh_manager : State :=
  match construct empty_storage false false page with
  | Normal st => st
  | Throw _ => following_system false empty_storage
  end.

(** The toggle button as [updateToggleButton] leaves it in the effective
    theme [e]: icon, label and the transient class; a button without an
    icon is left alone. *)
Definition button_after (e : jsstring) (b : ToggleButton) : ToggleButton :=
  match icon b with
  | None => b
  | Some _ =>
      {| btn_classes := class_add (lit "theme-switching") (btn_classes b);
         btn_attrs :=
           <[lit "aria-label" :=
               lit "Switch to " ++ (if streq e DARK then lit "light" else lit "dark")
                 ++ lit " theme"]> (btn_attrs b);
         icon := Some (if streq e DARK then lit "fas fa-sun" else lit "fas fa-moon") |}
  end.

End ThemeRest.

Section EventsVocabulary.
Import Events.

(** The timers among what drives a wrapper. *)
Definition fires {A} (ts : list (tick A)) : nat :=
  length (List.filter (fun t => match t with Fire => true | Call _ => false end) ts).

(** The function [once(func)] returns, called with each of [argss] in
    turn: the calls of [func] it makes. *)
Definition once_run {A} (argss : list A) : list A :=
  snd (fold_left
         (fun '(executed, calls) args =>
            let '(executed', r) := once_call args executed in
            (executed', calls ++ option_list r))
         argss (false, [])).

End EventsVocabulary.

Section HeaderVocabulary.
Import Header.

(** The style written to the header agrees with the flag the listener
    keeps: nothing was written while the header was never hidden, and
    otherwise the last transform is the one of the flag. *)
Definition in_step (st : State) : Prop :=
  match transform st with
  | None => isHeaderHidden st = false
  | Some t =>
      t = if isHeaderHidden st then lit "translateY(-100%)" else lit "translateY(0)"
  end.

(** The throttled listener run at each of the scroll offsets [ys]. *)
Definition scroll_run (isDesktop : bool) (ys : list Z) (st : State) : State :=
  fold_left (fun st y => updateHeader isDesktop y st) ys st.

End HeaderVocabulary.

Section MenuVocabulary.
Import Menu.

(** The menu is open: the toggle carries the class active. *)
Definition is_open (st : State) : bool :=
  match mobileMenuToggle st with
  | Some t => class_contains (lit "active") (classes t)
  | None => false
  end.

(** Everything that shows the state of the menu shows the same state:
    the class on the toggle and on the container, the two aria
    attributes and the scroll lock of the body. *)
Definition synced (st : State) : Prop :=
  exists t c,
    mobileMenuToggle st = Some t /\
    navLinksContainer st = Some c /\
    class_contains (lit "active") (classes c) = is_open st /\
    attrs t !! lit "aria-expanded"
    = Some (if is_open st then lit "true" else lit "false") /\
    attrs c !! lit "aria-hidden"
    = Some (if is_open st then lit "false" else lit "true") /\
    bodyOverflow st = (if is_open st then lit "hidden" else []).

(** What an event makes of an open or closed menu. *)
Definition open_after (e : event) (was_open : bool) : bool :=
  match e with
  | ToggleClick => negb was_open
  | LinkClick _ _ => false
  | OtherClick => false
  | KeyDown key => was_open && negb (streq key (lit "Escape"))
  | Resized innerWidth => was_open && (innerWidth <? 768)%Z
  end.

(** A page with the menu closed, as the markup has it, and a page
    without the menu. *)
Definition closed_menu : State :=
  {| mobileMenuToggle := Some {| classes := [lit "mobile-menu-toggle"]; attrs := ∅ |};
     navLinksContainer := Some {| classes := [lit "nav-links"]; attrs := ∅ |};
     hasNavLinks := true; bodyOverflow := []; focusTimers := 0 |}.

Definition no_menu : State :=
  {| mobileMenuToggle := None; navLinksContainer := None;
     hasNavLinks := true; bodyOverflow := []; focusTimers := 0 |}.

End MenuVocabulary.

Section LinksVocabulary.
Import Navigation.

(** The links that carry the class active are exactly the link of the
    active section: none when there is no active section. *)
Definition highlighted (st : State) : Prop :=
  forall j cl,
    navLinks st !! j = Some cl ->
    (In (lit "active") cl <->
     exists i s,
       currentActiveSection st = Some i /\ sections st !! i = Some s /\ link s = j).

End LinksVocabulary.

Section FormsRestVocabulary.
Import Forms.

(** [form'] is [form] with the fields [checked] validated, one after the
    other.  A field the rules apply to has the message the rules have
    for its value in the map of errors, or no entry, and is marked
    accordingly.  The other fields and entries are as they were.  The
    error element of a parent shows the verdict on the last of these
    fields among the controls of that parent; a parent without such a
    control is as it was. *)
Definition validated (checked : list jsstring) (form form' : Form) : Prop :=
  (forall n s,
     In n checked -> subject n form = Some s ->
     verdict s = Normal (errors form' !! n) /\
     exists f,
       fields form !! n = Some f /\
       fields form' !! n = Some (mark (bool_decide (is_Some (errors form' !! n))) f)) /\
  (forall n,
     ~ In n checked \/ subject n form = None ->
     errors form' !! n = errors form !! n /\
     fields form' !! n = fields form !! n) /\
  (forall before n later s f,
     checked = before ++ n :: later ->
     subject n form = Some s ->
     fields form !! n = Some f ->
     (forall k g, In k later -> fields form !! k = Some g -> parent g = parent f ->
                  subject k form = None) ->
     verdict s = Normal (messages form' !! parent f)) /\
  (forall p,
     (forall n f, In n checked -> fields form !! n = Some f -> parent f = p ->
                  subject n form = None) ->
     messages form' !! p = messages form !! p).




(** A form with a control named [constructor], for which the table of
    rules has no entry of its own, after the required field [email]. *)
Definition with_constructor (text : jsstring) : Form :=
  {| validationRules := Some {[ lit "email" := [RName (lit "required")] ]};
     fields := <[lit "constructor" := blank [] 1]> {[ lit "email" := blank text 0 ]};
     field_order := [lit "email"; lit "constructor"];
     errors := ∅;
     messages := ∅;
     error_styles := false |}.

End FormsRestVocabulary.

Section RegexVocabulary.
Import Regex.

(** The strings a pattern matches as a whole. *)
Inductive matches : re -> jsstring -> Prop :=
| matches_eps : matches Eps []
| matches_class p c : p c = true -> matches (Class p) [c]
| matches_cat a b s t : matches a s -> matches b t -> matches (Cat a b) (s ++ t)
| matches_alt_l a b s : matches a s -> matches (Alt a b) s
| matches_alt_r a b s : matches b s -> matches (Alt a b) s
| matches_star_nil a : matches (Star a) []
| matches_star_cons a s t :
    matches a s -> matches (Star a) t -> matches (Star a) (s ++ t).

(** A code unit that is neither white space nor the at sign. *)
Definition plain (c : N) : Prop := is_space c = false /\ c <> 64.

End RegexVocabulary.

(** The string holds a character other than white space. *)
Definition visible (s : jsstring) : Prop :=
  Exists (fun c => is_space c = false) s.

(* ===================================================================== *)
(** * Properties *)
(* ===================================================================== *)

(** ** Strings and the theme constants *)

Lemma streq_true (a b : jsstring) : streq a b = true <-> a = b.
Proof. unfold streq. apply bool_decide_eq_true. Qed.

Lemma streq_false (a b : jsstring) : streq a b = false <-> a <> b.
Proof. unfold streq. apply bool_decide_eq_false. Qed.

Lemma streq_refl (a : jsstring) : streq a a = true.
Proof. by apply streq_true. Qed.

Lemma existsb_streq (a : jsstring) (l : list jsstring) :
  existsb (streq a) l = true <-> In a l.
Proof.
  rewrite existsb_exists. split.
  - intros (x & Hx & Heq). apply streq_true in Heq. by subst.
  - intros H. exists a. split; [done | apply streq_refl].
Qed.

Lemma includes_spec (arr : list jsstring) (v : jsval) :
  includes arr v = true <-> exists s, v = JStr s /\ In s arr.
Proof.
  destruct v; simpl; try (split; [done | by intros (? & ? & ?)]).
  rewrite existsb_streq. split.
  - intros H. eauto.
  - intros (s' & Heq & H). by simplify_eq.
Qed.

Lemma valid_theme_In (t : jsstring) : valid_theme t <-> In t Theme.THEME_VALUES.
Proof. unfold valid_theme, Theme.THEME_VALUES. simpl. intuition congruence. Qed.

(** ** JSON text of a string *)

Lemma hex_value_digit (h : N) : h < 16 -> JSON.hex_value (JSON.hex_digit h) = Some h.
Proof.
  intros Hh. unfold JSON.hex_digit, JSON.hex_value.
  destruct (h <? 10) eqn:H10.
  - apply N.ltb_lt in H10.
    assert ((48 <=? 48 + h) && (48 + h <=? 57) = true) as ->.
    { apply andb_true_iff. rewrite !N.leb_le. lia. }
    f_equal. lia.
  - apply N.ltb_ge in H10.
    assert ((48 <=? 87 + h) && (87 + h <=? 57) = false) as ->.
    { apply andb_false_iff. right. apply N.leb_gt. lia. }
    assert ((97 <=? 87 + h) && (87 + h <=? 102) = true) as ->.
    { apply andb_true_iff. rewrite !N.leb_le. lia. }
    f_equal. lia.
Qed.

Lemma hex_digits_value (c : N) :
  c < 65536 ->
  ((c / 4096 mod 16 * 16 + c / 256 mod 16) * 16 + c / 16 mod 16) * 16 + c mod 16 = c.
Proof.
  intros Hc.
  pose proof (N.div_mod c 16 ltac:(lia)).
  pose proof (N.div_mod (c / 16) 16 ltac:(lia)).
  pose proof (N.div_mod (c / 16 / 16) 16 ltac:(lia)).
  rewrite !N.Div0.div_div in *. change (16 * 16) with 256 in *. change (256 * 16) with 4096 in *.
  assert (c / 4096 < 16) by (apply N.Div0.div_lt_upper_bound; lia).
  rewrite (N.mod_small (c / 4096) 16) by done.
  lia.
Qed.

Lemma lex_unicode_escape (c : N) (acc : jsstring) (toks : list JSON.token) (rest : jsstring) :
  c < 65536 ->
  fold_left JSON.lex_step (JSON.unicode_escape c ++ rest) (JSON.LString acc, toks)
  = fold_left JSON.lex_step rest (JSON.LString (c :: acc), toks).
Proof.
  intros Hc. unfold JSON.unicode_escape. cbn [app fold_left].
  change (JSON.lex_step (JSON.LString acc, toks) 92) with (JSON.LEscape acc, toks).
  change (JSON.lex_step (JSON.LEscape acc, toks) 117) with (JSON.LUnicode acc 0 0, toks).
  assert (forall k u h, h < 16 ->
            JSON.lex_step (JSON.LUnicode acc k u, toks) (JSON.hex_digit h)
            = if Nat.eqb k 3 then (JSON.LString ((u * 16 + h) :: acc), toks)
              else (JSON.LUnicode acc (S k) (u * 16 + h), toks)) as Hstep.
  { intros k u h Hh. cbn [JSON.lex_step]. by rewrite hex_value_digit. }
  do 4 (rewrite Hstep by (apply N.mod_lt; lia); cbn [Nat.eqb]).
  rewrite N.mul_0_l, N.add_0_l.
  by rewrite hex_digits_value.
Qed.

Lemma lex_plain (c : N) (acc : jsstring) (toks : list JSON.token) :
  (c =? 34) = false -> (c =? 92) = false -> (c <? 32) = false ->
  JSON.lex_step (JSON.LString acc, toks) c = (JSON.LString (c :: acc), toks).
Proof. intros H1 H2 H3. cbn [JSON.lex_step]. by rewrite H1, H2, H3. Qed.

(** Reading the escaped characters of [s] inside a string rebuilds [s]. *)
Lemma lex_quote_chars (n : nat) :
  forall (s acc : jsstring) (toks : list JSON.token) (rest : jsstring),
    (length s <= n)%nat ->
    Forall (fun c => c < 65536) s ->
    fold_left JSON.lex_step (JSON.quote_chars s ++ rest) (JSON.LString acc, toks)
    = fold_left JSON.lex_step rest (JSON.LString (rev s ++ acc), toks).
Proof.
  induction n as [|n IH]; intros s acc toks rest Hlen Hall.
  { destruct s; [done | simpl in Hlen; lia]. }
  destruct s as [|c r]; [done |].
  inversion Hall as [|? ? Hc Hr]; subst.
  cbn [length] in Hlen.
  assert (rev (c :: r) ++ acc = rev r ++ c :: acc) as ->.
  { cbn [rev]. by rewrite <- app_assoc. }
  assert (forall esc,
            JSON.lex_step (JSON.LEscape acc, toks) esc = (JSON.LString (c :: acc), toks) ->
            fold_left JSON.lex_step ((92 :: esc :: JSON.quote_chars r) ++ rest)
              (JSON.LString acc, toks)
            = fold_left JSON.lex_step rest (JSON.LString (rev r ++ c :: acc), toks)) as Hesc.
  { intros esc Hstep. cbn [app fold_left].
    change (JSON.lex_step (JSON.LString acc, toks) 92) with (JSON.LEscape acc, toks).
    rewrite Hstep. apply IH; [lia | done]. }
  cbn [JSON.quote_chars].
  destruct (c =? 8) eqn:E8. { apply N.eqb_eq in E8 as ->. by apply Hesc. }
  destruct (c =? 9) eqn:E9. { apply N.eqb_eq in E9 as ->. by apply Hesc. }
  destruct (c =? 10) eqn:E10. { apply N.eqb_eq in E10 as ->. by apply Hesc. }
  destruct (c =? 12) eqn:E12. { apply N.eqb_eq in E12 as ->. by apply Hesc. }
  destruct (c =? 13) eqn:E13. { apply N.eqb_eq in E13 as ->. by apply Hesc. }
  destruct (c =? 34) eqn:E34. { apply N.eqb_eq in E34 as ->. by apply Hesc. }
  destruct (c =? 92) eqn:E92. { apply N.eqb_eq in E92 as ->. by apply Hesc. }
  destruct (c <? 32) eqn:E32.
  { rewrite <- app_assoc, lex_unicode_escape by done. apply IH; [lia | done]. }
  destruct (JSON.is_lead c) eqn:Elead.
  { destruct r as [|d r'].
    - rewrite lex_unicode_escape by done. done.
    - destruct (JSON.is_trail d) eqn:Etrail.
      + cbn [app fold_left]. rewrite (lex_plain c) by done.
        assert ((d =? 34) = false /\ (d =? 92) = false /\ (d <? 32) = false) as (D1 & D2 & D3).
        { unfold JSON.is_trail in Etrail. apply andb_true_iff in Etrail as [Hlo _].
          apply N.leb_le in Hlo. rewrite !N.eqb_neq, N.ltb_ge. lia. }
        rewrite (lex_plain d) by done.
        inversion Hr; subst. cbn [length] in Hlen.
        rewrite IH; [| lia | done]. cbn [rev]. by rewrite <- !app_assoc.
      + rewrite <- app_assoc, lex_unicode_escape by done. apply IH; [lia | done]. }
  destruct (JSON.is_trail c) eqn:Etrail.
  { rewrite <- app_assoc, lex_unicode_escape by done. apply IH; [lia | done]. }
  cbn [app fold_left]. rewrite lex_plain by done. apply IH; [lia | done].
Qed.

(** [JSON.parse] reads back what [JSON.stringify] wrote, for every
    string. *)
Lemma parse_stringify (s : jsstring) :
  Forall (fun c => c < 65536) s ->
  JSON.parse (JSON.stringify s) = Normal (JStr s).
Proof.
  intros Hall. unfold JSON.parse, JSON.tokens, JSON.stringify.
  cbn [fold_left].
  change (JSON.lex_step (JSON.LDefault, []) 34) with (JSON.LString [], @nil JSON.token).
  rewrite (lex_quote_chars (length s)) by done.
  cbn [fold_left]. rewrite app_nil_r.
  change (JSON.lex_step (JSON.LString (rev s), []) 34)
    with (JSON.LDefault, [JSON.TStr (rev (rev s))]).
  by rewrite rev_involutive.
Qed.

(** ** The preference store never throws *)

Lemma Storage_get_total (ls : LocalStorage.t) (key : jsstring) (fallback : jsval) :
  exists v fx, Storage.get ls key fallback = Normal (v, fx).
Proof.
  unfold Storage.get, LocalStorage.getItem.
  destruct (LocalStorage.blocked ls); simpl; [eauto |].
  destruct (LocalStorage.items ls !! key) as [s|]; simpl; [| eauto].
  destruct s as [|c s]; simpl; [eauto |].
  destruct (JSON.parse (c :: s)); simpl; eauto.
Qed.

(** What [Storage.get] yields, from the raw entry. *)
Lemma Storage_get_value (ls : LocalStorage.t) (key : jsstring) (v : jsval)
    (fx : list effect) :
  Storage.get ls key JNull = Normal (v, fx) ->
  v = JNull \/
  exists raw, LocalStorage.blocked ls = false /\
              LocalStorage.items ls !! key = Some raw /\
              JSON.parse raw = Normal v.
Proof.
  unfold Storage.get, LocalStorage.getItem.
  destruct (LocalStorage.blocked ls); simpl; [intros; simplify_eq; by left |].
  destruct (LocalStorage.items ls !! key) as [s|] eqn:Hk; simpl;
    [| intros; simplify_eq; by left].
  destruct s as [|c s]; simpl; [intros; simplify_eq; by left |].
  destruct (JSON.parse (c :: s)) eqn:Hp; simpl; intros; simplify_eq; [| by left].
  right. eauto.
Qed.

Lemma Storage_set_total (ls : LocalStorage.t) (key value : jsstring) :
  exists ok ls' fx, Storage.set ls key value = Normal (ok, ls', fx) /\
    (if LocalStorage.blocked ls || LocalStorage.full ls
     then ok = false /\ ls' = ls
     else ok = true /\ fx = [] /\
          LocalStorage.items ls' = <[key := JSON.stringify value]> (LocalStorage.items ls) /\
          LocalStorage.blocked ls' = false /\ LocalStorage.full ls' = false).
Proof.
  unfold Storage.set, LocalStorage.setItem.
  destruct (LocalStorage.blocked ls) eqn:Hb; simpl; [eauto 10 |].
  destruct (LocalStorage.full ls) eqn:Hf; simpl; eauto 10.
Qed.

(** A string saved through the preference store is the string read back,
    when the store takes the write. *)
Lemma Storage_set_then_get (ls : LocalStorage.t) (key s : jsstring) :
  Forall (fun c => c < 65536) s ->
  LocalStorage.blocked ls = false ->
  LocalStorage.full ls = false ->
  exists ls',
    Storage.set ls key s = Normal (true, ls', []) /\
    Storage.get ls' key JNull = Normal (JStr s, []).
Proof.
  intros Hs Hb Hf. unfold Storage.set, LocalStorage.setItem. rewrite Hb, Hf.
  eexists. split; [reflexivity |].
  unfold Storage.get, LocalStorage.getItem. cbn [LocalStorage.blocked LocalStorage.items].
  rewrite lookup_insert_eq. cbn [mbind completion_bind].
  change (truthy (JStr (JSON.stringify s))) with true. cbn iota.
  by rewrite parse_stringify.
Qed.

Lemma parse_stringify_theme (t : jsstring) :
  valid_theme t -> JSON.parse (JSON.stringify t) = Normal (JStr t).
Proof. intros [-> | [-> | ->]]; reflexivity. Qed.

Lemma stringify_nonempty (s : jsstring) : truthy (JStr (JSON.stringify s)) = true.
Proof. reflexivity. Qed.

(** Reading back what a successful [Storage.set] wrote. *)
Lemma Storage_get_after_set (ls ls' : LocalStorage.t) (key t : jsstring) :
  valid_theme t ->
  LocalStorage.blocked ls' = false ->
  LocalStorage.items ls' = <[key := JSON.stringify t]> (LocalStorage.items ls) ->
  Storage.get ls' key JNull = Normal (JStr t, []).
Proof.
  intros Hv Hb Hi. unfold Storage.get, LocalStorage.getItem.
  rewrite Hb, Hi, lookup_insert_eq. simpl.
  change (34 :: JSON.quote_chars t ++ [34]) with (JSON.stringify t).
  by rewrite parse_stringify_theme.
Qed.

(** ** The theme manager: what each step leaves alone *)

Section ThemeSteps.
Import Theme.

Lemma getEffectiveTheme_valid (st : State) :
  valid_theme (currentTheme st) ->
  getEffectiveTheme st = LIGHT \/ getEffectiveTheme st = DARK.
Proof.
  unfold getEffectiveTheme. intros [H | [H | H]]; rewrite H; simpl.
  - by left.
  - by right.
  - destruct (prefersDark st); [by right | by left].
Qed.

Lemma updateToggleButton_frame (e : jsstring) (st : State) :
  currentTheme (updateToggleButton e st) = currentTheme st /\
  storage (updateToggleButton e st) = storage st /\
  prefersDark (updateToggleButton e st) = prefersDark st /\
  prefersReducedMotion (updateToggleButton e st) = prefersReducedMotion st /\
  html_classes (document (updateToggleButton e st)) = html_classes (document st) /\
  html_data_theme (document (updateToggleButton e st)) = html_data_theme (document st) /\
  body_classes (document (updateToggleButton e st)) = body_classes (document st) /\
  meta_theme_color (document (updateToggleButton e st)) = meta_theme_color (document st) /\
  exists fx, trace (updateToggleButton e st) = trace st ++ fx /\
             forall a b c, ~ In (Emit a b c) fx.
Proof.
  unfold updateToggleButton.
  destruct (toggleButton (document st)) as [b|];
    [destruct (icon b) |]; simpl; repeat split; try done.
  - exists [SetTimeout RemoveThemeSwitching 200]. split; [done |].
    intros a b' c [H | []]. discriminate.
  - exists []. split; [by rewrite app_nil_r | by intros ? ? ? []].
  - exists []. split; [by rewrite app_nil_r | by intros ? ? ? []].
Qed.

Lemma applyTheme_frame (st : State) :
  currentTheme (applyTheme st) = currentTheme st /\
  storage (applyTheme st) = storage st /\
  prefersDark (applyTheme st) = prefersDark st /\
  prefersReducedMotion (applyTheme st) = prefersReducedMotion st /\
  body_classes (document (applyTheme st)) = body_classes (document st).
Proof.
  unfold applyTheme, updateMetaThemeColor. simpl.
  pose proof (updateToggleButton_frame (getEffectiveTheme st)
    (set_document
       {| html_classes :=
            class_add (getEffectiveTheme st)
              (class_remove [lit "light"; lit "dark"] (html_classes (document st)));
          html_data_theme := Some (getEffectiveTheme st);
          body_classes := body_classes (document st);
          toggleButton := toggleButton (document st);
          meta_theme_color := meta_theme_color (document st) |} st))
    as (H1 & H2 & H3 & H4 & _ & _ & H5 & _).
  simpl in *. by rewrite H1, H2, H3, H4, H5.
Qed.

(** What [applyTheme] writes to the document and announces. *)
Lemma applyTheme_document (st : State) :
  let e := getEffectiveTheme st in
  html_classes (document (applyTheme st))
    = class_add e (class_remove [lit "light"; lit "dark"] (html_classes (document st))) /\
  html_data_theme (document (applyTheme st)) = Some e /\
  meta_theme_color (document (applyTheme st)) = Some (colors e) /\
  exists fx, trace (applyTheme st)
             = trace st ++ fx ++ [Emit (lit "themeChanged") (currentTheme st) e;
                                  ConsoleLog [JStr (lit "Theme applied: "); JStr e;
                                              JStr (lit " (set to: ");
                                              JStr (currentTheme st); JStr (lit ")")]] /\
             forall a b c, ~ In (Emit a b c) fx.
Proof.
  intros e. unfold applyTheme, updateMetaThemeColor. simpl. fold e.
  pose proof (updateToggleButton_frame e
    (set_document
       {| html_classes :=
            class_add e (class_remove [lit "light"; lit "dark"] (html_classes (document st)));
          html_data_theme := Some e;
          body_classes := body_classes (document st);
          toggleButton := toggleButton (document st);
          meta_theme_color := meta_theme_color (document st) |} st))
    as (H1 & _ & _ & _ & H5 & H6 & _ & _ & fx & H8 & H9).
  simpl in *. rewrite H1, H5, H6, H8. repeat split; try done.
  exists fx. split; [| done]. by rewrite <- !app_assoc.
Qed.

End ThemeSteps.

(** ** The theme manager: [setTheme] *)

Section SetTheme.
Import Theme.

Lemma getEffectiveTheme_resolve (st : State) :
  getEffectiveTheme st = resolve (currentTheme st) (prefersDark st).
Proof. reflexivity. Qed.

Lemma animateThemeChange_frame (a b : jsstring) (st : State) :
  currentTheme (animateThemeChange a b st) = currentTheme st /\
  storage (animateThemeChange a b st) = storage st /\
  prefersDark (animateThemeChange a b st) = prefersDark st /\
  html_classes (document (animateThemeChange a b st)) = html_classes (document st) /\
  html_data_theme (document (animateThemeChange a b st)) = html_data_theme (document st) /\
  meta_theme_color (document (animateThemeChange a b st)) = meta_theme_color (document st) /\
  trace (animateThemeChange a b st) = trace st ++ [SetTimeout RemoveThemeTransitioning 300].
Proof. by repeat split. Qed.

(** [setTheme] with one of the three values: the preference is set, handed
    to the preference store and applied. *)
Lemma setTheme_valid (t : jsstring) (st : State) :
  valid_theme t ->
  exists ok ls fx st',
    Storage.set (storage st) STORAGE_KEY t = Normal (ok, ls, fx) /\
    setTheme (JStr t) st = Normal st' /\
    currentTheme st' = t /\
    storage st' = ls /\
    prefersDark st' = prefersDark st /\
    html_classes (document st')
      = class_add (resolve t (prefersDark st))
          (class_remove [lit "light"; lit "dark"] (html_classes (document st))) /\
    html_data_theme (document st') = Some (resolve t (prefersDark st)) /\
    meta_theme_color (document st') = Some (colors (resolve t (prefersDark st))) /\
    In (Emit (lit "themeChanged") t (resolve t (prefersDark st))) (trace st').
Proof.
  intros Hv.
  destruct (Storage_set_total (storage st) STORAGE_KEY t) as (ok & ls & fx & Hset & _).
  exists ok, ls, fx.
  unfold setTheme.
  assert (includes THEME_VALUES (JStr t) = true) as ->.
  { apply includes_spec. exists t. split; [done | by apply valid_theme_In]. }
  cbn [negb]. cbn [set_currentTheme storage]. rewrite Hset. cbn [mbind completion_bind].
  set (st1 := emit fx (set_storage ls (set_currentTheme t st))).
  pose proof (applyTheme_frame st1) as (F1 & F2 & F3 & F4 & _).
  pose proof (applyTheme_document st1) as (D1 & D2 & D3 & tr & D4 & _).
  assert (getEffectiveTheme st1 = resolve t (prefersDark st)) as He by reflexivity.
  rewrite He in D1, D2, D3, D4.
  destruct (negb (prefersReducedMotion (applyTheme st1))); eexists;
    (split; [reflexivity |]); (split; [reflexivity |]).
  - cbn [emit currentTheme storage prefersDark document trace].
    destruct (animateThemeChange_frame (currentTheme st) t (applyTheme st1))
      as (A1 & A2 & A3 & A4 & A5 & A6 & A7).
    rewrite A1, A2, A3, A4, A5, A6, A7, F1, F2, F3, D1, D2, D3, D4.
    repeat split; try done.
    rewrite !in_app_iff. left. left. right. right. simpl. by left.
  - cbn [emit currentTheme storage prefersDark document trace].
    rewrite F1, F2, F3, D1, D2, D3, D4.
    repeat split; try done.
    rewrite !in_app_iff. left. right. right. simpl. by left.
Qed.

(** [setTheme] with anything else: only the console hears of it. *)
Lemma setTheme_invalid (theme : jsval) (st : State) :
  includes THEME_VALUES theme = false ->
  setTheme theme st
  = Normal (emit [ConsoleError [JStr (lit "Invalid theme: "); theme]] st).
Proof. intros H. unfold setTheme. by rewrite H. Qed.

End SetTheme.

(** ** Class lists *)

Lemma class_add_In (name : jsstring) (cl : list jsstring) :
  In name (class_add name cl).
Proof.
  unfold class_add. destruct (existsb (streq name) cl) eqn:H.
  - by apply existsb_streq.
  - apply in_app_iff. right. by left.
Qed.

Lemma class_add_In_inv (name c : jsstring) (cl : list jsstring) :
  In c (class_add name cl) -> c = name \/ In c cl.
Proof.
  unfold class_add. destruct (existsb (streq name) cl); [by right |].
  rewrite in_app_iff. intros [H | [H | []]]; [by right | by left].
Qed.

Lemma class_remove_In (names : list jsstring) (c : jsstring) (cl : list jsstring) :
  In c (class_remove names cl) <-> In c cl /\ ~ In c names.
Proof.
  unfold class_remove. rewrite <- (list_elem_of_In _ c), list_elem_of_filter.
  rewrite list_elem_of_In, <- (existsb_streq c names).
  destruct (existsb (streq c) names); simpl.
  - split; [by intros [[] _] | by intros [_ []]].
  - split; [by intros [_ ?] | by intros [? _]].
Qed.

(** ** The theme resolver *)

Section ThemeClaims.
Import Theme.

(** C1.  With the preference Light or Dark the effective theme is that
    preference, whatever the ambient scheme; with the preference System it
    is the ambient scheme of the moment. *)
Theorem getEffectiveTheme_by_preference (st : State) (dark : bool) :
  let eff preference :=
    getEffectiveTheme (set_prefersDark dark (set_currentTheme preference st)) in
  eff LIGHT = LIGHT /\ eff DARK = DARK /\ eff SYSTEM = ambient dark.
Proof. by destruct dark. Qed.

(** The preference [toggle] leaves behind. *)
Lemma toggle_result (st : State) :
  exists st',
    toggle st = Normal st' /\
    currentTheme st' = (if streq (getEffectiveTheme st) DARK then LIGHT else DARK) /\
    prefersDark st' = prefersDark st.
Proof.
  unfold toggle.
  destruct (setTheme_valid (if streq (getEffectiveTheme st) DARK then LIGHT else DARK) st)
    as (ok & ls & fx & st' & _ & Hst & Hc & _ & Hd & _).
  { destruct (streq (getEffectiveTheme st) DARK); [by left | right; by left]. }
  by exists st'.
Qed.

(** C2.  From any preference and ambient scheme, [toggle] sets the
    preference to the concrete opposite of the effective theme, never to
    System; it hands that value to the preference store, where it is read
    back when the store took it; and it applies the theme to the
    document. *)
Theorem toggle_sets_opposite_and_applies (st : State) :
  valid_theme (currentTheme st) ->
  let e := getEffectiveTheme st in
  exists n st',
    toggle st = Normal st' /\
    (e = LIGHT /\ n = DARK \/ e = DARK /\ n = LIGHT) /\
    currentTheme st' = n /\ n <> SYSTEM /\
    (exists ok fx, Storage.set (storage st) STORAGE_KEY n = Normal (ok, storage st', fx)) /\
    (LocalStorage.blocked (storage st) = false ->
     LocalStorage.full (storage st) = false ->
     Storage.get (storage st') STORAGE_KEY JNull = Normal (JStr n, [])) /\
    getEffectiveTheme st' = n /\
    html_data_theme (document st') = Some n /\
    In n (html_classes (document st')) /\
    ~ In e (html_classes (document st')) /\
    meta_theme_color (document st') = Some (colors n) /\
    In (Emit (lit "themeChanged") n n) (trace st').
Proof.
  intros Hv e.
  set (n := if streq e DARK then LIGHT else DARK).
  assert (e = LIGHT /\ n = DARK \/ e = DARK /\ n = LIGHT) as Hopp.
  { destruct (getEffectiveTheme_valid st Hv) as [H | H]; fold e in H; subst n;
      rewrite H; [by left | by right]. }
  assert (valid_theme n) as Hn.
  { destruct Hopp as [[_ ->] | [_ ->]]; [right; by left | by left]. }
  assert (n <> SYSTEM) as Hns.
  { destruct Hopp as [[_ ->] | [_ ->]]; discriminate. }
  assert (resolve n (prefersDark st) = n) as Hr.
  { unfold resolve. apply streq_false in Hns. by rewrite Hns. }
  destruct (setTheme_valid n st Hn)
    as (ok & ls & fx & st' & Hset & Hst & Hc & Hs & Hd & Hcl & Hdt & Hm & Hem).
  rewrite Hr in Hcl, Hdt, Hm, Hem.
  exists n, st'. repeat split; try done.
  - exists ok, fx. by rewrite Hs.
  - intros Hb Hf.
    destruct (Storage_set_total (storage st) STORAGE_KEY n)
      as (ok' & ls' & fx' & Hset' & Hcase).
    rewrite Hset in Hset'. simplify_eq.
    rewrite Hb, Hf in Hcase. simpl in Hcase.
    destruct Hcase as (_ & _ & Hi & Hb' & _).
    by eapply Storage_get_after_set.
  - rewrite getEffectiveTheme_resolve, Hc, Hd. done.
  - rewrite Hcl. apply class_add_In.
  - rewrite Hcl. intros Hin. apply class_add_In_inv in Hin as [Hin | Hin].
    + destruct Hopp as [[He Hn'] | [He Hn']]; rewrite He, Hn' in Hin; discriminate.
    + apply class_remove_In in Hin as [_ Hin]. apply Hin.
      destruct Hopp as [[-> _] | [-> _]]; simpl; auto.
Qed.

(** C3.  With the ambient scheme held fixed, two toggles bring back the
    effective theme there was before the first. *)
Theorem toggle_twice_restores_effective (st : State) :
  valid_theme (currentTheme st) ->
  exists st1 st2,
    toggle st = Normal st1 /\
    toggle st1 = Normal st2 /\
    prefersDark st1 = prefersDark st /\
    prefersDark st2 = prefersDark st /\
    getEffectiveTheme st2 = getEffectiveTheme st.
Proof.
  intros Hv.
  destruct (toggle_result st) as (st1 & Ht1 & Hc1 & Hd1).
  destruct (toggle_result st1) as (st2 & Ht2 & Hc2 & Hd2).
  exists st1, st2.
  split; [done |]. split; [done |]. split; [done |]. split; [congruence |].
  rewrite (getEffectiveTheme_resolve st2), Hc2.
  rewrite (getEffectiveTheme_resolve st1), Hc1.
  destruct (getEffectiveTheme_valid st Hv) as [-> | ->]; reflexivity.
Qed.

End ThemeClaims.

(** ** Initialization and the error path of [setTheme] *)

Section ThemeInit.
Import Theme.

Lemma loadSavedTheme_spec (st : State) :
  exists stored fx,
    Storage.get (storage st) STORAGE_KEY JNull = Normal (stored, fx) /\
    loadSavedTheme st
    = Normal (set_currentTheme
                (match stored with
                 | JStr s => if includes THEME_VALUES stored then s else SYSTEM
                 | _ => SYSTEM
                 end)
                (emit fx st)).
Proof.
  destruct (Storage_get_total (storage st) STORAGE_KEY JNull) as (v & fx & Hget).
  exists v, fx. split; [done |].
  unfold loadSavedTheme. rewrite Hget. cbn [mbind completion_bind].
  destruct v as [| | b | n | s | l | l]; try reflexivity.
  - by destruct (truthy (JBool b)).
  - by destruct (truthy (JNum n)).
  - destruct (includes THEME_VALUES (JStr s)) eqn:Hin.
    + apply includes_spec in Hin as (s' & Heq & Hin). simplify_eq.
      assert (truthy (JStr s') = true) as ->; [| done].
      apply valid_theme_In in Hin as [-> | [-> | ->]]; reflexivity.
    + by rewrite andb_false_r.
Qed.

(** What [loadSavedTheme] and [init] make of what [Storage.get] yields.  *)
Lemma loadSavedTheme_outcome (st : State) :
  exists st' st'',
    loadSavedTheme st = Normal st' /\
    init st = Normal st'' /\
    currentTheme st'' = currentTheme st' /\
    valid_theme (currentTheme st') /\
    (forall stored fx,
       Storage.get (storage st) STORAGE_KEY JNull = Normal (stored, fx) ->
       (forall t, valid_theme t -> stored <> JStr t) ->
       currentTheme st' = SYSTEM) /\
    (LocalStorage.items (storage st) !! STORAGE_KEY = None ->
     currentTheme st' = SYSTEM) /\
    (forall raw,
       LocalStorage.items (storage st) !! STORAGE_KEY = Some raw ->
       (forall t, valid_theme t -> JSON.parse raw <> Normal (JStr t)) ->
       currentTheme st' = SYSTEM) /\
    (forall t fx,
       valid_theme t ->
       Storage.get (storage st) STORAGE_KEY JNull = Normal (JStr t, fx) ->
       currentTheme st' = t).
Proof.
  destruct (loadSavedTheme_spec st) as (stored & fx & Hget & Hload).
  assert (forall t, valid_theme t -> includes THEME_VALUES (JStr t) = true) as Hinc.
  { intros t Ht. apply includes_spec. exists t. split; [done | by apply valid_theme_In]. }
  assert ((forall t, valid_theme t -> stored <> JStr t) ->
          match stored with
          | JStr s => if includes THEME_VALUES stored then s else SYSTEM
          | _ => SYSTEM
          end = SYSTEM) as Hsys.
  { intros Hno. destruct stored as [| | | | s | |]; try done.
    destruct (includes THEME_VALUES (JStr s)) eqn:Hin; [| done].
    apply includes_spec in Hin as (s' & Heq & Hin). simplify_eq.
    apply valid_theme_In in Hin. by destruct (Hno s' Hin). }
  eexists. exists (emit [ConsoleLog [JStr (lit "Theme system initialized")]]
                   (applyTheme
                      (set_currentTheme
                         (match stored with
                          | JStr s => if includes THEME_VALUES stored then s else SYSTEM
                          | _ => SYSTEM
                          end)
                         (emit fx (setupToggleButton st))))).
  split; [exact Hload |]. split.
  { unfold init.
    destruct (loadSavedTheme_spec (setupToggleButton st)) as (stored' & fx' & Hget' & ->).
    assert (storage (setupToggleButton st) = storage st) as Hs.
    { unfold setupToggleButton. by destruct (toggleButton (document st)). }
    rewrite Hs, Hget in Hget'. by simplify_eq. }
  cbn [set_currentTheme currentTheme emit].
  split. { by destruct (applyTheme_frame (set_currentTheme
             (match stored with
              | JStr s => if includes THEME_VALUES stored then s else SYSTEM
              | _ => SYSTEM
              end) (emit fx (setupToggleButton st)))) as (-> & _). }
  split.
  { destruct stored as [| | | | s | |]; try (right; by right).
    destruct (includes THEME_VALUES (JStr s)) eqn:Hin; [| right; by right].
    apply includes_spec in Hin as (s' & Heq & Hin). simplify_eq.
    by apply valid_theme_In. }
  split. { intros v fx' Hget' Hno. rewrite Hget in Hget'. simplify_eq. by apply Hsys. }
  split.
  { intros Habsent. apply Hsys. intros t Ht ->.
    apply Storage_get_value in Hget as [? | (raw & _ & Hraw & _)]; [done |].
    by rewrite Habsent in Hraw. }
  split.
  { intros raw Hraw Hno. apply Hsys. intros t Ht ->.
    apply Storage_get_value in Hget as [? | (raw' & _ & Hraw' & Hp)]; [done |].
    rewrite Hraw in Hraw'. simplify_eq. by apply (Hno t Ht). }
  intros t fx' Ht Hget'. rewrite Hget in Hget'. simplify_eq. by rewrite (Hinc t Ht).
Qed.

(** C10.  [setTheme] with an argument that is none of the three strings
    leaves the preference, the store and the document as they are and does
    not apply the theme: the one thing it does is report the error on the
    console. *)
Theorem setTheme_invalid_changes_nothing (theme : jsval) (st : State) :
  (forall t, valid_theme t -> theme <> JStr t) ->
  exists st',
    setTheme theme st = Normal st' /\
    currentTheme st' = currentTheme st /\
    storage st' = storage st /\
    document st' = document st /\
    prefersDark st' = prefersDark st /\
    trace st' = trace st ++ [ConsoleError [JStr (lit "Invalid theme: "); theme]].
Proof.
  intros Hno. eexists. split.
  { apply setTheme_invalid.
    destruct (includes THEME_VALUES theme) eqn:Hin; [| done].
    apply includes_spec in Hin as (s & -> & Hin).
    apply valid_theme_In in Hin. by destruct (Hno s Hin). }
  by repeat split.
Qed.

End ThemeInit.

(** ** What the manager writes to the store *)

Section ThemePersistence.
Import Theme.

Lemma stringify_theme (t : jsstring) :
  valid_theme t -> JSON.stringify t = 34 :: t ++ [34].
Proof. intros [-> | [-> | ->]]; reflexivity. Qed.

Lemma setupToggleButton_frame (st : State) :
  storage (setupToggleButton st) = storage st /\
  currentTheme (setupToggleButton st) = currentTheme st.
Proof. unfold setupToggleButton. by destruct (toggleButton (document st)). Qed.

(** [setTheme] either leaves the store alone or writes the new preference
    under the one key. *)
Lemma setTheme_writes (theme : jsval) (st : State) :
  exists st',
    setTheme theme st = Normal st' /\
    (storage st' = storage st \/
     exists t, theme = JStr t /\ valid_theme t /\ currentTheme st' = t /\
       LocalStorage.blocked (storage st') = false /\
       LocalStorage.items (storage st')
       = <[STORAGE_KEY := JSON.stringify t]> (LocalStorage.items (storage st))).
Proof.
  destruct (includes THEME_VALUES theme) eqn:Hin.
  - apply includes_spec in Hin as (t & -> & Hin). apply valid_theme_In in Hin.
    destruct (setTheme_valid t st Hin) as (ok & ls & fx & st' & Hset & Hst & Hc & Hs & _).
    exists st'. split; [done |].
    destruct (Storage_set_total (storage st) STORAGE_KEY t)
      as (ok' & ls' & fx' & Hset' & Hcase).
    rewrite Hset in Hset'. injection Hset' as <- <- <-.
    destruct (LocalStorage.blocked (storage st) || LocalStorage.full (storage st)).
    + left. destruct Hcase as [_ Hls]. by rewrite Hs.
    + right. destruct Hcase as (_ & _ & Hi & Hb & _). exists t. by rewrite Hs.
  - rewrite (setTheme_invalid theme st Hin). eexists. split; [done |]. by left.
Qed.

(** Every operation runs to completion, and leaves the store alone or
    writes the preference it ends with under the one key. *)
Lemma run_writes (o : op) (st : State) :
  exists st',
    run o st = Normal st' /\
    (storage st' = storage st \/
     exists t, valid_theme t /\ currentTheme st' = t /\
       LocalStorage.blocked (storage st') = false /\
       LocalStorage.items (storage st')
       = <[STORAGE_KEY := JSON.stringify t]> (LocalStorage.items (storage st))).
Proof.
  assert (forall theme, exists st',
    setTheme theme st = Normal st' /\
    (storage st' = storage st \/
     exists t, valid_theme t /\ currentTheme st' = t /\
       LocalStorage.blocked (storage st') = false /\
       LocalStorage.items (storage st')
       = <[STORAGE_KEY := JSON.stringify t]> (LocalStorage.items (storage st)))) as Hset.
  { intros theme. destruct (setTheme_writes theme st) as (st' & Hst & [Hs | Hw]).
    - exists st'. split; [done | by left].
    - exists st'. split; [done |]. right.
      destruct Hw as (t & _ & Hv & Hc & Hb & Hi). by exists t. }
  destruct o as [| theme | | | | | dark | hidden | a]; simpl.
  - apply Hset.
  - apply Hset.
  - apply Hset.
  - eexists. split; [done |]. left. by destruct (applyTheme_frame st) as (_ & -> & _).
  - destruct (loadSavedTheme_spec st) as (stored & fx & _ & ->).
    eexists. split; [done |]. by left.
  - unfold init.
    destruct (loadSavedTheme_spec (setupToggleButton st)) as (stored & fx & _ & ->).
    eexists. split; [done |]. left. cbn [mbind completion_bind emit storage].
    match goal with
    | |- storage (applyTheme ?s) = _ =>
        destruct (applyTheme_frame s) as (_ & -> & _)
    end.
    cbn [set_currentTheme emit storage]. by destruct (setupToggleButton_frame st) as [-> _].
  - eexists. split; [done |]. left. unfold onSystemChange.
    destruct (streq _ _); [| done].
    by destruct (applyTheme_frame (set_prefersDark dark st)) as (_ & -> & _).
  - eexists. split; [done |]. left. unfold onVisibilityChange.
    destruct (_ && _); [| done].
    by destruct (applyTheme_frame st) as (_ & -> & _).
  - eexists. split; [done |]. left. unfold onTimer.
    destruct a; [by destruct (toggleButton (document st)) | done].
Qed.

(** C9.  The effective theme is a function of the preference and the
    ambient scheme and of nothing else in the state; and whatever an
    operation of the manager writes to the store is the preference it ends
    with, never a theme derived from it. *)
Theorem effective_theme_is_derived_never_stored :
  (forall st, getEffectiveTheme st = resolve (currentTheme st) (prefersDark st)) /\
  (forall st1 st2,
     currentTheme st1 = currentTheme st2 ->
     prefersDark st1 = prefersDark st2 ->
     getEffectiveTheme st1 = getEffectiveTheme st2) /\
  (forall o st, exists st',
     run o st = Normal st' /\
     (LocalStorage.items (storage st') = LocalStorage.items (storage st) \/
      LocalStorage.items (storage st')
      = <[STORAGE_KEY := JSON.stringify (currentTheme st')]>
          (LocalStorage.items (storage st)))).
Proof.
  split; [done |]. split.
  - intros st1 st2 Hc Hd. by rewrite !getEffectiveTheme_resolve, Hc, Hd.
  - intros o st. destruct (run_writes o st) as (st' & Hrun & [Hs | Hw]).
    + exists st'. split; [done |]. left. by rewrite Hs.
    + exists st'. split; [done |]. right.
      destruct Hw as (t & _ & <- & _ & Hi). done.
Qed.

(** C5, as amended.  Every operation of the manager leaves the entries of
    the store as they are or writes exactly one, under the key
    [portfolio-theme]: the JSON text of the preference, that is one of the
    three words between double quotes, which the preference store reads
    back as the word. *)
Theorem persisted_entry_is_json_text_under_one_key (o : op) (st : State) :
  exists st',
    run o st = Normal st' /\
    (LocalStorage.items (storage st') = LocalStorage.items (storage st) \/
     exists t,
       valid_theme t /\ currentTheme st' = t /\
       LocalStorage.items (storage st')
       = <[lit "portfolio-theme" := 34 :: t ++ [34]]> (LocalStorage.items (storage st)) /\
       (forall key, key <> lit "portfolio-theme" ->
          LocalStorage.items (storage st') !! key = LocalStorage.items (storage st) !! key) /\
       Storage.get (storage st') (lit "portfolio-theme") JNull = Normal (JStr t, [])).
Proof.
  destruct (run_writes o st) as (st' & Hrun & [Hs | Hw]).
  - exists st'. split; [done |]. left. by rewrite Hs.
  - exists st'. split; [done |]. right.
    destruct Hw as (t & Hv & Hc & Hb & Hi). exists t.
    rewrite (stringify_theme t Hv) in Hi. change (lit "portfolio-theme") with STORAGE_KEY.
    repeat split; try done.
    + intros key Hk. rewrite Hi. by apply lookup_insert_ne.
    + eapply Storage_get_after_set; [done | done |].
      by rewrite (stringify_theme t Hv).
Qed.

(** ** The preference of a constructed manager is one of the three *)

Lemma loaded_theme_valid (stored : jsval) :
  valid_theme (match stored with
               | JStr s => if includes THEME_VALUES stored then s else SYSTEM
               | _ => SYSTEM
               end).
Proof.
  destruct stored as [| | | | s | |]; try (right; by right).
  destruct (includes THEME_VALUES (JStr s)) eqn:Hin; [| right; by right].
  apply includes_spec in Hin as (s' & Heq & Hin). injection Heq as ->.
  by apply valid_theme_In.
Qed.

Lemma init_valid (st : State) :
  exists st', init st = Normal st' /\ valid_theme (currentTheme st').
Proof.
  unfold init.
  destruct (loadSavedTheme_spec (setupToggleButton st)) as (stored & fx & _ & ->).
  eexists. split; [reflexivity |].
  cbn [emit currentTheme].
  match goal with
  | |- valid_theme (currentTheme (applyTheme ?s)) =>
      destruct (applyTheme_frame s) as (-> & _)
  end.
  apply loaded_theme_valid.
Qed.

Lemma run_keeps_valid (o : op) (st st' : State) :
  valid_theme (currentTheme st) ->
  run o st = Normal st' ->
  valid_theme (currentTheme st').
Proof.
  intros Hv.
  assert (forall theme, setTheme theme st = Normal st' -> valid_theme (currentTheme st'))
    as Hset.
  { intros theme Hrun. destruct (includes THEME_VALUES theme) eqn:Hin.
    - apply includes_spec in Hin as (t & -> & Hin). apply valid_theme_In in Hin.
      destruct (setTheme_valid t st Hin) as (? & ? & ? & st1 & _ & Hst & Hc & _).
      rewrite Hst in Hrun. injection Hrun as <-. by rewrite Hc.
    - rewrite (setTheme_invalid theme st Hin) in Hrun. by injection Hrun as <-. }
  destruct o as [| theme | | | | | dark | hidden | a]; cbn [run]; intros Hrun.
  - by eapply Hset.
  - by eapply Hset.
  - by eapply Hset.
  - injection Hrun as <-. by destruct (applyTheme_frame st) as (-> & _).
  - destruct (loadSavedTheme_spec st) as (stored & fx & _ & Hload).
    rewrite Hload in Hrun. injection Hrun as <-. apply loaded_theme_valid.
  - destruct (init_valid st) as (st1 & Hinit & Hv1).
    rewrite Hinit in Hrun. by injection Hrun as <-.
  - injection Hrun as <-. unfold onSystemChange.
    destruct (streq _ _); [| done].
    by destruct (applyTheme_frame (set_prefersDark dark st)) as (-> & _).
  - injection Hrun as <-. unfold onVisibilityChange.
    destruct (_ && _); [| done].
    by destruct (applyTheme_frame st) as (-> & _).
  - injection Hrun as <-. unfold onTimer.
    destruct a; [by destruct (toggleButton (document st)) | done].
Qed.

(** Every state a manager can be in has one of the three preferences. *)
Lemma reachable_valid (st : State) :
  reachable st -> valid_theme (currentTheme st).
Proof.
  induction 1 as [ls dark reduced d st Hc | o st st' _ IH Hrun | ls st _ IH].
  - unfold construct in Hc.
    match type of Hc with
    | init ?s = _ => destruct (init_valid s) as (st1 & Hinit & Hv)
    end.
    rewrite Hinit in Hc. by injection Hc as <-.
  - by eapply run_keeps_valid.
  - done.
Qed.

(** When the preference follows the system, a change of the ambient
    scheme changes the effective theme and what the document shows, and
    the store is not written; with a concrete preference the change is
    ignored. *)
Lemma onSystemChange_follows_ambient (dark : bool) (st : State) :
  storage (onSystemChange dark st) = storage st /\
  currentTheme (onSystemChange dark st) = currentTheme st /\
  (currentTheme st = SYSTEM ->
   getEffectiveTheme (onSystemChange dark st) = ambient dark /\
   html_data_theme (document (onSystemChange dark st)) = Some (ambient dark)) /\
  (currentTheme st <> SYSTEM ->
   document (onSystemChange dark st) = document st /\
   getEffectiveTheme (onSystemChange dark st) = currentTheme st).
Proof.
  unfold onSystemChange. cbn [set_prefersDark currentTheme].
  destruct (streq (currentTheme st) SYSTEM) eqn:Hs.
  - apply streq_true in Hs.
    destruct (applyTheme_frame (set_prefersDark dark st)) as (F1 & F2 & F3 & _).
    destruct (applyTheme_document (set_prefersDark dark st)) as (_ & D2 & _).
    rewrite F1, F2. split; [done |]. split; [done |]. split.
    + intros _. rewrite getEffectiveTheme_resolve, F1, F3, D2.
      rewrite getEffectiveTheme_resolve. cbn [set_prefersDark currentTheme prefersDark].
      rewrite Hs. done.
    + intros Hne. by destruct Hne.
  - apply streq_false in Hs. split; [done |]. split; [done |]. split.
    + intros Heq. by destruct Hs.
    + intros _. split; [done |].
      rewrite getEffectiveTheme_resolve. cbn [set_prefersDark currentTheme prefersDark].
      unfold resolve. apply streq_false in Hs. by rewrite Hs.
Qed.

End ThemePersistence.

(** ** The theme resolver on a fresh browser *)

Section ThemeExamples.
Import Theme.

Lemma toggle_sets_opposite_and_applies_witness :
  valid_theme (currentTheme (following_system false empty_storage)) /\
  exists st',
    toggle (following_system false empty_storage) = Normal st' /\
    currentTheme st' = DARK /\
    Storage.get (storage st') STORAGE_KEY JNull = Normal (JStr DARK, []).
Proof.
  assert (valid_theme (currentTheme (following_system false empty_storage))) as Hv.
  { right. right. reflexivity. }
  split; [exact Hv |].
  destruct (toggle_sets_opposite_and_applies (following_system false empty_storage) Hv)
    as (n & st' & Ht & Ho & Hc & _ & _ & Hget & _).
  exists st'. split; [exact Ht |].
  assert (n = DARK) as Hn.
  { destruct Ho as [[_ H] | [H _]]; [exact H | discriminate H]. }
  rewrite Hn in Hc, Hget. split; [exact Hc |].
  apply Hget; reflexivity.
Defined.

Lemma toggle_twice_restores_effective_witness :
  valid_theme (currentTheme (following_system true empty_storage)) /\
  exists st1 st2,
    toggle (following_system true empty_storage) = Normal st1 /\
    toggle st1 = Normal st2 /\
    getEffectiveTheme st2 = DARK.
Proof.
  assert (valid_theme (currentTheme (following_system true empty_storage))) as Hv.
  { right. right. reflexivity. }
  split; [exact Hv |].
  destruct (toggle_twice_restores_effective (following_system true empty_storage) Hv)
    as (st1 & st2 & H1 & H2 & _ & _ & He).
  exists st1, st2. split; [exact H1 |]. split; [exact H2 |]. exact He.
Defined.

Lemma setTheme_invalid_changes_nothing_witness :
  (forall t, valid_theme t -> JStr (lit "blue") <> JStr t) /\
  exists st',
    setTheme (JStr (lit "blue")) (following_system false empty_storage) = Normal st' /\
    currentTheme st' = SYSTEM /\
    storage st' = empty_storage /\
    document st' = page.
Proof.
  assert (forall t, valid_theme t -> JStr (lit "blue") <> JStr t) as Hno.
  { intros t [Ht | [Ht | Ht]] Heq; rewrite Ht in Heq; discriminate Heq. }
  split; [exact Hno |].
  destruct (setTheme_invalid_changes_nothing (JStr (lit "blue"))
              (following_system false empty_storage) Hno)
    as (st' & Hs & Hc & Hst & Hd & _).
  exists st'. split; [exact Hs |]. split; [exact Hc |]. split; [exact Hst | exact Hd].
Defined.

(** C5 as worded fails: after a toggle on a fresh browser the store holds
    the six characters of the JSON text of [dark], quotes included, not the
    four of the word. *)
Lemma toggle_stores_json_text_not_the_word :
  exists st',
    toggle (following_system false empty_storage) = Normal st' /\
    LocalStorage.items (storage st') !! STORAGE_KEY = Some [34; 100; 97; 114; 107; 34] /\
    ~ stored_literally st'.
Proof.
  eexists. split; [vm_compute; reflexivity |].
  split; [vm_compute; reflexivity |].
  intros H. specialize (H [34; 100; 97; 114; 107; 34]).
  assert (In [34; 100; 97; 114; 107; 34] THEME_VALUES) as Hin.
  { apply H. vm_compute. reflexivity. }
  destruct Hin as [Heq | [Heq | [Heq | []]]]; discriminate Heq.
Qed.

(** The legacy script keeps its own entry, under another key, and there
    the word itself is stored. *)
Lemma legacy_click_stores_the_word (st st' : Legacy.State) :
  Legacy.click st = Normal st' ->
  exists w, (w = lit "light" \/ w = lit "dark") /\
    LocalStorage.items (Legacy.storage st')
    = <[lit "theme" := w]> (LocalStorage.items (Legacy.storage st)).
Proof.
  unfold Legacy.click, LocalStorage.setItem.
  destruct (LocalStorage.blocked (Legacy.storage st)); [done |].
  destruct (LocalStorage.full (Legacy.storage st)); [done |].
  cbn [mbind completion_bind].
  destruct (Legacy.updateThemeIcon _ _); [| done].
  cbn [mbind completion_bind]. intros Heq. injection Heq as <-. simpl.
  destruct (class_contains _ _); eauto.
Qed.

Lemma legacy_key_is_another_key : Legacy.THEME_KEY <> STORAGE_KEY.
Proof. discriminate. Qed.

(** The legacy script knows two themes only: with nothing stored it starts
    in light mode, as its comment says, and it does not guard its access to
    the store. *)
Lemma legacy_load_defaults_to_light (st : Legacy.State) (b : ToggleButton) (c : jsstring) :
  toggleButton (Legacy.document st) = Some b ->
  icon b = Some c ->
  LocalStorage.blocked (Legacy.storage st) = false ->
  LocalStorage.items (Legacy.storage st) !! Legacy.THEME_KEY = None ->
  exists st',
    Legacy.load st = Normal (lit "light", st') /\
    ~ In (lit "dark") (html_classes (Legacy.document st')).
Proof.
  intros Hb Hi Hblocked Habsent.
  unfold Legacy.load, LocalStorage.getItem. rewrite Hb, Hblocked, Habsent.
  cbn [mbind completion_bind]. unfold Legacy.updateThemeIcon.
  cbn [Legacy.set_html_classes toggleButton]. rewrite Hb, Hi.
  cbn [mbind completion_bind]. eexists. split; [reflexivity |].
  cbn [Legacy.document html_classes]. unfold class_toggle.
  change (streq (lit "light") (lit "dark")) with false. cbn iota.
  intros Hin. apply class_remove_In in Hin as [_ Hin]. apply Hin. by left.
Qed.

Lemma legacy_load_throws_when_blocked (st : Legacy.State) (b : ToggleButton) :
  toggleButton (Legacy.document st) = Some b ->
  LocalStorage.blocked (Legacy.storage st) = true ->
  Legacy.load st = Throw SecurityError.
Proof.
  intros Hb Hblocked. unfold Legacy.load, LocalStorage.getItem.
  by rewrite Hb, Hblocked.
Qed.

(** The scenario of the specification: an empty store, load, toggle,
    reload under the other ambient scheme. *)
Example scenario_load_toggle_reload :
  exists st0 st1 st2,
    construct empty_storage false false page = Normal st0 /\
    currentTheme st0 = SYSTEM /\ getEffectiveTheme st0 = LIGHT /\
    toggle st0 = Normal st1 /\
    currentTheme st1 = DARK /\
    construct (storage st1) false false page = Normal st2 /\
    currentTheme st2 = DARK /\ getEffectiveTheme st2 = DARK.
Proof.
  do 3 eexists.
  split; [vm_compute; reflexivity |].
  split; [reflexivity |]. split; [reflexivity |].
  split; [vm_compute; reflexivity |].
  split; [reflexivity |].
  split; [vm_compute; reflexivity |].
  split; reflexivity.
Qed.

End ThemeExamples.

(** ** Initialization, in the theme manager and in the legacy script *)

Section Initialization.
Import Theme.

(** What [Storage.get] makes of an entry that can be read. *)
Lemma Storage_get_entry (ls : LocalStorage.t) (key raw : jsstring) (fallback : jsval) :
  LocalStorage.blocked ls = false ->
  LocalStorage.items ls !! key = Some raw ->
  exists fx,
    Storage.get ls key fallback
    = Normal (match raw with
              | [] => fallback
              | _ :: _ =>
                  match JSON.parse raw with
                  | Normal decoded => decoded
                  | Throw _ => fallback
                  end
              end, fx).
Proof.
  intros Hb Hraw. unfold Storage.get, LocalStorage.getItem. rewrite Hb, Hraw.
  cbn [mbind completion_bind try_catch].
  destruct raw as [| c raw]; cbn [truthy mbind completion_bind try_catch]; [by eexists |].
  destruct (JSON.parse (c :: raw)); cbn [mbind completion_bind try_catch]; by eexists.
Qed.

(** The legacy script on a page with the button and its icon. *)
Lemma legacy_load_word (lst : Legacy.State) (b : ToggleButton) (c : jsstring) :
  toggleButton (Legacy.document lst) = Some b ->
  icon b = Some c ->
  LocalStorage.blocked (Legacy.storage lst) = false ->
  exists lst',
    Legacy.load lst
    = Normal (match LocalStorage.items (Legacy.storage lst) !! Legacy.THEME_KEY with
              | Some (x :: word) => x :: word
              | _ => lit "light"
              end, lst').
Proof.
  intros Hb Hi Hbl. unfold Legacy.load, Legacy.updateThemeIcon, LocalStorage.getItem.
  rewrite Hb, Hbl. cbn [mbind completion_bind Legacy.set_html_classes toggleButton].
  rewrite Hb, Hi. cbn [mbind completion_bind].
  destruct (LocalStorage.items (Legacy.storage lst) !! Legacy.THEME_KEY) as [[| x word] |];
    by eexists.
Qed.

(** C4 as worded fails.  The entry that [Storage.set] writes
    for dark, the word in double quotes, is none of the three preference
    strings, and initialization makes the preference dark of it, not
    System.  And the legacy script, with nothing stored, takes light: it
    has no System preference. *)
Lemma initialization_does_not_default_to_system :
  LocalStorage.items dark_saved !! STORAGE_KEY = Some [34; 100; 97; 114; 107; 34] /\
  ~ In [34; 100; 97; 114; 107; 34] THEME_VALUES /\
  (exists st,
     construct dark_saved false false page = Normal st /\
     currentTheme st = DARK /\ currentTheme st <> SYSTEM) /\
  (exists lst,
     Legacy.load {| Legacy.storage := empty_storage; Legacy.document := page |}
     = Normal (lit "light", lst)).
Proof.
  split; [by vm_compute |].
  split; [intros [H | [H | [H | []]]]; by vm_compute in H |].
  split.
  - eexists. split; [by vm_compute |]. split; [by vm_compute |].
    intros H. by vm_compute in H.
  - eexists. by vm_compute.
Qed.

(** C4, as amended.  Initialization of the theme manager never throws,
    whatever the store holds under the key and also when the store cannot
    be read.  The preference it ends with is the string the entry decodes
    to as JSON text when that string is one of the three, so the word in
    double quotes gives that word; in every other case it is System: no
    entry, an empty entry, an entry that is not JSON text, which includes
    the three bare words, JSON text of anything else, a store that cannot
    be read.  The legacy script has no System preference: it takes the
    word stored under its own key as it is, light when nothing or the
    empty string is stored, and it throws when the store cannot be
    read. *)
Theorem init_preference_is_decoded_entry_or_system (st : State) :
  (exists st' st'',
     loadSavedTheme st = Normal st' /\
     init st = Normal st'' /\
     currentTheme st'' = currentTheme st' /\
     valid_theme (currentTheme st') /\
     (LocalStorage.blocked (storage st) = true -> currentTheme st' = SYSTEM) /\
     (LocalStorage.items (storage st) !! STORAGE_KEY = None ->
      currentTheme st' = SYSTEM) /\
     (forall raw,
        LocalStorage.blocked (storage st) = false ->
        LocalStorage.items (storage st) !! STORAGE_KEY = Some raw ->
        (forall t, valid_theme t -> JSON.parse raw = Normal (JStr t) ->
                   currentTheme st' = t) /\
        (forall t, valid_theme t -> raw = 34 :: t ++ [34] -> currentTheme st' = t) /\
        ((forall t, valid_theme t -> JSON.parse raw <> Normal (JStr t)) ->
         currentTheme st' = SYSTEM) /\
        (raw = [] \/ In raw THEME_VALUES -> currentTheme st' = SYSTEM))) /\
  (forall (lst : Legacy.State) (b : ToggleButton) (c : jsstring),
     toggleButton (Legacy.document lst) = Some b ->
     icon b = Some c ->
     (LocalStorage.blocked (Legacy.storage lst) = true ->
      Legacy.load lst = Throw SecurityError) /\
     (LocalStorage.blocked (Legacy.storage lst) = false ->
      exists lst',
        Legacy.load lst
        = Normal (match LocalStorage.items (Legacy.storage lst) !! lit "theme" with
                  | Some (x :: word) => x :: word
                  | _ => lit "light"
                  end, lst'))).
Proof.
  split.
  - destruct (loadSavedTheme_outcome st)
      as (st' & st'' & H1 & H2 & H3 & H4 & H5 & H6 & H7 & H8).
    exists st', st''.
    split; [done |]. split; [done |]. split; [done |]. split; [done |].
    assert (forall raw,
              LocalStorage.blocked (storage st) = false ->
              LocalStorage.items (storage st) !! STORAGE_KEY = Some raw ->
              forall t, valid_theme t -> JSON.parse raw = Normal (JStr t) ->
                        currentTheme st' = t) as Hdec.
    { intros raw Hb Hraw t Ht Hp.
      destruct (Storage_get_entry (storage st) STORAGE_KEY raw JNull Hb Hraw) as (fx & Hget).
      destruct raw as [| x raw]; [by vm_compute in Hp |].
      rewrite Hp in Hget. by apply (H8 t fx). }
    split; [| split; [done |]].
    + intros Hb. destruct (Storage_get_total (storage st) STORAGE_KEY JNull) as (v & fx & Hget).
      apply (H5 v fx Hget). intros t Ht ->.
      apply Storage_get_value in Hget as [? | (raw & Hb' & _)]; [done | congruence].
    + intros raw Hb Hraw.
      split; [by apply Hdec |]. split; [| split].
      * intros t Ht ->. apply (Hdec _ Hb Hraw t Ht).
        rewrite <- (stringify_theme t Ht). by apply parse_stringify_theme.
      * by apply H7.
      * intros Hcase. apply (H7 raw Hraw). intros t Ht Hp.
        destruct Hcase as [-> | [<- | [<- | [<- | []]]]]; by vm_compute in Hp.
  - intros lst b c Hb Hi. split.
    + intros Hbl. by apply (legacy_load_throws_when_blocked lst b).
    + intros Hbl. by apply (legacy_load_word lst b c).
Qed.

End Initialization.

(* ===================================================================== *)
(** ** The active section *)
(* ===================================================================== *)

Section ActiveSection.
Import Navigation.

Lemma in_section_contains (position : Z) (s : Section) :
  in_section position s = true <-> contains position s.
Proof.
  unfold in_section, contains.
  rewrite andb_true_iff, !Z.leb_le. done.
Qed.

Lemma find_from_spec (position : Z) (secs : list Section) (k : nat) :
  match find_from position secs k with
  | Some i =>
      (i < k)%nat /\
      (exists s, secs !! i = Some s /\ contains position s) /\
      (forall j s, (i < j < k)%nat -> secs !! j = Some s -> ~ contains position s)
  | None =>
      forall j s, (j < k)%nat -> secs !! j = Some s -> ~ contains position s
  end.
Proof.
  induction k as [|k IH]; simpl.
  - intros j s Hj. lia.
  - destruct (secs !! k) as [s|] eqn:Hk.
    + destruct (in_section position s) eqn:Hin.
      * split; [lia |]. split.
        -- exists s. split; [done |]. by apply in_section_contains.
        -- intros j s' Hj. lia.
      * assert (~ contains position s) as Hno.
        { rewrite <- in_section_contains, Hin. done. }
        destruct (find_from position secs k) as [i|].
        -- destruct IH as (Hi & Hs & Hafter). split; [lia |]. split; [done |].
           intros j s' Hj Hl. destruct (decide (j = k)) as [-> | Hne].
           ++ rewrite Hk in Hl. by simplify_eq.
           ++ apply (Hafter j s'); [lia | done].
        -- intros j s' Hj Hl. destruct (decide (j = k)) as [-> | Hne].
           ++ rewrite Hk in Hl. by simplify_eq.
           ++ apply (IH j s'); [lia | done].
    + destruct (find_from position secs k) as [i|].
      * destruct IH as (Hi & Hs & Hafter). split; [lia |]. split; [done |].
        intros j s' Hj Hl. destruct (decide (j = k)) as [-> | Hne].
        -- by rewrite Hk in Hl.
        -- apply (Hafter j s'); [lia | done].
      * intros j s' Hj Hl. destruct (decide (j = k)) as [-> | Hne].
        -- by rewrite Hk in Hl.
        -- apply (IH j s'); [lia | done].
Qed.

Lemma updateActiveLinks_current (a : option nat) (st : State) :
  currentActiveSection (updateActiveLinks a st) = a /\
  sections (updateActiveLinks a st) = sections st.
Proof.
  unfold updateActiveLinks. case_bool_decide; [by subst | done].
Qed.

(** C6 as worded fails: scrolled to 1300, past the bottom of the last
    section, no section is active, though the top of the second one lies
    above the scroll offset, whichever way the header height is applied;
    and at 450 the second section is active although its top at 600 is
    below the offset. *)
Lemma active_section_not_decided_by_tops_alone :
  currentActiveSection (onScroll 1300 reading_about) = None /\
  last_top_above (1300 - headerOffset) two_sections = Some 1%nat /\
  last_top_above (1300 + headerOffset) two_sections = Some 1%nat /\
  currentActiveSection (onScroll 450 reading_about) = Some 1%nat /\
  last_top_above (450 - headerOffset) two_sections = Some 0%nat /\
  last_top_above (450 + headerOffset) two_sections = Some 0%nat.
Proof. repeat split; reflexivity. Qed.

(** C6, as amended.  A scroll update that runs while no programmatic
    scroll is under way makes active the last section, in document order,
    whose range from 100 pixels above its top down to its bottom holds the
    scroll offset plus the header height of 80; when no section's range
    holds it, no section is active.  While a programmatic scroll is under
    way the update changes nothing. *)
Theorem active_section_is_last_containing (pageYOffset : Z) (st : State) :
  (isScrolling st = false ->
   match currentActiveSection (updateActiveSection pageYOffset st) with
   | Some i =>
       (exists s, sections st !! i = Some s /\ contains (pageYOffset + 80) s) /\
       (forall j s, (i < j)%nat -> sections st !! j = Some s ->
                    ~ contains (pageYOffset + 80) s)
   | None =>
       forall j s, sections st !! j = Some s -> ~ contains (pageYOffset + 80) s
   end) /\
  (isScrolling st = true -> updateActiveSection pageYOffset st = st) /\
  (inThrottle st = false ->
   currentActiveSection (onScroll pageYOffset st)
   = currentActiveSection (updateActiveSection pageYOffset st)) /\
  (inThrottle st = true -> onScroll pageYOffset st = st).
Proof.
  split; [| split; [| split]].
  - intros Hs. unfold updateActiveSection. rewrite Hs.
    destruct (updateActiveLinks_current
                (findActiveSection pageYOffset (sections st)) st) as [-> _].
    unfold findActiveSection, headerOffset.
    pose proof (find_from_spec (pageYOffset + 80) (sections st) (length (sections st)))
      as Hspec.
    destruct (find_from (pageYOffset + 80) (sections st) (length (sections st))) as [i|].
    + destruct Hspec as (_ & Hi & Hafter). split; [done |].
      intros j s Hj Hl. apply (Hafter j s); [| done].
      split; [done |]. by apply lookup_lt_Some in Hl.
    + intros j s Hl. apply (Hspec j s); [| done]. by apply lookup_lt_Some in Hl.
  - intros Hs. unfold updateActiveSection. by rewrite Hs.
  - intros Ht. unfold onScroll. by rewrite Ht.
  - intros Ht. unfold onScroll. by rewrite Ht.
Qed.

Lemma active_section_is_last_containing_witness :
  isScrolling reading_about = false /\
  currentActiveSection (updateActiveSection 1300 reading_about) = None /\
  (forall j s, two_sections !! j = Some s -> ~ contains (1300 + 80) s).
Proof.
  split; [reflexivity |]. split; [reflexivity |].
  destruct (active_section_is_last_containing 1300 reading_about) as (H & _).
  exact (H eq_refl).
Defined.

End ActiveSection.

(* ===================================================================== *)
(** ** The field validator *)
(* ===================================================================== *)

Section RuleOrder.
Import Forms.

Lemma defaultRules_inherited (name : jsstring) :
  defaultRules name = FromPrototype -> inherited name = true.
Proof.
  unfold defaultRules, table_get. destruct (ownRules name); [done |].
  by destruct (inherited name).
Qed.

Lemma check_rules_fails (value : jsstring) (before : list rule) (r : rule)
    (rest : list rule) (msg : jsstring) :
  Forall (passes value) before ->
  fails_with value r msg ->
  check_rules value (before ++ r :: rest)
  = Normal (Some msg, List.filter known_rule before ++ [r]).
Proof.
  intros Hb (v & Hv & Hno & ->).
  induction Hb as [| x before Hx Hb IH]; cbn [app check_rules List.filter].
  - by rewrite Hv, Hno.
  - unfold passes in Hx. unfold known_rule.
    destruct (defaultRules (ruleName x)) as [vx | |]; [| done |].
    + by rewrite Hx, IH.
    + by rewrite IH.
Qed.

Lemma check_rules_passes (value : jsstring) (rules : list rule) :
  Forall (passes value) rules ->
  check_rules value rules = Normal (None, List.filter known_rule rules).
Proof.
  induction 1 as [| x rules Hx Hb IH]; cbn [check_rules List.filter]; [done |].
  unfold passes in Hx. unfold known_rule.
  destruct (defaultRules (ruleName x)) as [vx | |]; [| done |].
  - by rewrite Hx, IH.
  - by rewrite IH.
Qed.

Lemma check_rules_throws (value : jsstring) (before : list rule) (r : rule)
    (rest : list rule) :
  Forall (passes value) before ->
  defaultRules (ruleName r) = FromPrototype ->
  check_rules value (before ++ r :: rest) = Throw TypeError.
Proof.
  intros Hb Hr.
  induction Hb as [| x before Hx Hb IH]; cbn [app check_rules].
  - by rewrite Hr.
  - unfold passes in Hx.
    destruct (defaultRules (ruleName x)) as [vx | |]; [| done |].
    + by rewrite Hx, IH.
    + by rewrite IH.
Qed.

(** Where the loop over the rules ends. *)
Lemma rules_cases (value : jsstring) (rules : list rule) :
  Forall (passes value) rules \/
  exists before r rest,
    rules = before ++ r :: rest /\
    Forall (passes value) before /\
    ((exists msg, fails_with value r msg) \/
     defaultRules (ruleName r) = FromPrototype).
Proof.
  induction rules as [| x rules IH]; [by left |].
  assert (passes value x \/ (exists msg, fails_with value x msg) \/
          defaultRules (ruleName x) = FromPrototype) as [Hx | Hx].
  { unfold passes, fails_with.
    destruct (defaultRules (ruleName x)) as [v | |]; [| right; by right | by left].
    destruct (validate v value (ruleParams x)) eqn:Hok; [by left |].
    right. left. eexists _, v. by repeat split. }
  - destruct IH as [IH | (before & r & rest & -> & Hb & Hr)].
    + left. by constructor.
    + right. exists (x :: before), r, rest. split; [done |]. split; [by constructor | done].
  - right. by exists [], x, rules.
Qed.




End RuleOrder.

(* ===================================================================== *)
(** ** The form manager, one call at a time *)
(* ===================================================================== *)

Section FormCalls.
Import Forms.

Lemma subject_unfold (n : jsstring) (form : Form) :
  subject n form
  = match validationRules form with
    | Some table =>
        match table !! n with
        | Some rules =>
            match fields form !! n with
            | Some f => Some (rules, trim (value f))
            | None => None
            end
        | None => None
        end
    | None => None
    end.
Proof.
  unfold subject. destruct (validationRules form) as [table |]; [| done].
  cbn. destruct (table !! n); [| done]. cbn. by destruct (fields form !! n).
Qed.

Lemma same_input_refl (form : Form) : same_input form form.
Proof. by repeat split. Qed.

Lemma same_input_trans (a b c : Form) :
  same_input a b -> same_input b c -> same_input a c.
Proof.
  intros (H1 & H2 & H3) (J1 & J2 & J3).
  split; [congruence |]. split; [congruence |]. intros m. by rewrite J3.
Qed.

Lemma same_input_field (a b : Form) (n : jsstring) (f : Field) :
  same_input a b ->
  fields a !! n = Some f ->
  exists f', fields b !! n = Some f' /\ value f' = value f /\ parent f' = parent f.
Proof.
  intros (_ & _ & H) Hf. specialize (H n). rewrite Hf in H.
  destruct (fields b !! n) as [f' |]; [| done].
  injection H as Hv Hp. by exists f'.
Qed.

Lemma same_input_field_inv (a b : Form) (n : jsstring) (f' : Field) :
  same_input a b ->
  fields b !! n = Some f' ->
  exists f, fields a !! n = Some f /\ value f' = value f /\ parent f' = parent f.
Proof.
  intros (_ & _ & H) Hf. specialize (H n). rewrite Hf in H.
  destruct (fields a !! n) as [f |]; [| done].
  injection H as Hv Hp. by exists f.
Qed.

Lemma same_input_subject (a b : Form) (n : jsstring) :
  same_input a b -> subject n b = subject n a.
Proof.
  intros Hs. rewrite !subject_unfold. destruct Hs as (-> & _ & H).
  destruct (validationRules a) as [table |]; [| done].
  destruct (table !! n); [| done]. specialize (H n).
  destruct (fields b !! n) as [f' |], (fields a !! n) as [f |]; try done.
  injection H as -> _. done.
Qed.

Lemma same_input_breaks (a b : Form) (n : jsstring) :
  same_input a b -> breaks n b <-> breaks n a.
Proof.
  intros Hs. unfold breaks, inherits_rules.
  rewrite (same_input_subject a b n Hs). destruct Hs as (-> & _ & H).
  specialize (H n).
  assert (is_Some (fields b !! n) <-> is_Some (fields a !! n)) as Hiff.
  { destruct (fields b !! n), (fields a !! n); done. }
  by setoid_rewrite Hiff.
Qed.



(** What [setFieldError] and [clearFieldError] change. *)
Lemma settle_effect (n : jsstring) (m : option jsstring) (form : Form) :
  same_input form (settle n m form) /\
  (forall k, k <> n ->
     errors (settle n m form) !! k = errors form !! k /\
     fields (settle n m form) !! k = fields form !! k) /\
  errors (settle n m form) !! n = m /\
  fields (settle n m form) !! n = mark (bool_decide (is_Some m)) <$> fields form !! n /\
  (forall f, fields form !! n = Some f -> messages (settle n m form) !! parent f = m) /\
  (forall p, (forall f, fields form !! n = Some f -> parent f <> p) ->
             messages (settle n m form) !! p = messages form !! p).
Proof.
  assert (forall b k,
            (fun f => (value f, parent f)) <$> alter (mark b) n (fields form) !! k
            = (fun f => (value f, parent f)) <$> fields form !! k) as Hlay.
  { intros b k. destruct (decide (k = n)) as [-> | Hne].
    - rewrite lookup_alter_eq. destruct (fields form !! n); [| done]. by destruct b.
    - by rewrite lookup_alter_ne. }
  destruct m as [msg |];
    cbn [settle setFieldError clearFieldError validationRules field_order errors fields
         messages].
  - split; [split; [done | split; [done | intros k; apply Hlay]] |].
    split; [| split; [| split; [| split]]].
    + intros k Hne. by rewrite lookup_insert_ne, lookup_alter_ne.
    + apply lookup_insert_eq.
    + by rewrite lookup_alter_eq.
    + intros f ->. apply lookup_insert_eq.
    + intros p Hp. destruct (fields form !! n) as [f |]; [| done].
      rewrite lookup_insert_ne; [done |]. by apply Hp.
  - split; [split; [done | split; [done | intros k; apply Hlay]] |].
    split; [| split; [| split; [| split]]].
    + intros k Hne. by rewrite lookup_delete_ne, lookup_alter_ne.
    + apply lookup_delete_eq.
    + by rewrite lookup_alter_eq.
    + intros f ->. apply lookup_delete_eq.
    + intros p Hp. destruct (fields form !! n) as [f |]; [| done].
      rewrite lookup_delete_ne; [done |]. by apply Hp.
Qed.

Lemma check_rules_throw (value : jsstring) (rules : list rule) (e : exn) :
  check_rules value rules = Throw e -> e = TypeError.
Proof.
  induction rules as [| x rules IH]; cbn [check_rules]; [done |].
  destruct (defaultRules (ruleName x)) as [v | |]; [| congruence | done].
  destruct (validate v value (ruleParams x)); cbn [negb]; [| done].
  destruct (check_rules value rules) as [[m calls] | e']; [done |].
  cbn. intros [= <-]. by apply IH.
Qed.

(** What one call of [validateField] does. *)
Lemma validateField_effect (n : jsstring) (form : Form) :
  match validateField n form with
  | Throw e => e = TypeError /\ breaks n form
  | Normal r =>
      ~ breaks n form /\
      match subject n form with
      | Some s =>
          exists m,
            verdict s = Normal m /\
            isValid r = bool_decide (m = None) /\
            after r = settle n m form
      | None => isValid r = true /\ after r = form
      end
  end.
Proof.
  unfold validateField, breaks, inherits_rules. rewrite subject_unfold.
  destruct (validationRules form) as [table |] eqn:Ht.
  2: { split; [| done]. intros [(tb & [=] & _) | (s & e & [=] & _)]. }
  destruct (fields form !! n) as [f |] eqn:Hf.
  2: { destruct (table !! n).
       - split; [| done]. intros [(tb & _ & [? [=]] & _) | (s & e & [=] & _)].
       - split; [| done]. intros [(tb & _ & [? [=]] & _) | (s & e & [=] & _)]. }
  destruct (table !! n) as [rules |] eqn:Hr; cbn [table_get].
  - destruct (check_rules (trim (value f)) rules) as [[m calls] | e] eqn:Hc.
    + assert (verdict (rules, trim (value f)) = Normal m) as Hv.
      { unfold verdict. cbn [fst snd]. by rewrite Hc. }
      destruct m as [msg |]; cbn [mbind completion_bind].
      * split; [| by exists (Some msg)].
        intros [(tb & [= <-] & _ & Hn & _) | (s & e & [= <-] & He)]; congruence.
      * split; [| by exists None].
        intros [(tb & [= <-] & _ & Hn & _) | (s & e & [= <-] & He)]; congruence.
    + cbn [mbind completion_bind]. split; [by apply check_rules_throw in Hc |].
      right. exists (rules, trim (value f)), e. split; [done |].
      unfold verdict. cbn [fst snd]. by rewrite Hc.
  - destruct (inherited n) eqn:Hi.
    + split; [done |]. left. exists table. by repeat split.
    + split; [| done].
      intros [(tb & _ & _ & _ & Hn) | (s & e & [=] & _)]. congruence.
Qed.

Lemma validateField_after (n : jsstring) (form : Form) (r : Validated) :
  validateField n form = Normal r ->
  after r = form \/ exists m, after r = settle n m form.
Proof.
  intros Hr. pose proof (validateField_effect n form) as He. rewrite Hr in He.
  destruct He as (_ & He). destruct (subject n form).
  - destruct He as (m & _ & _ & ->). right. by exists m.
  - left. by destruct He.
Qed.

Lemma validateField_same_input (n : jsstring) (form : Form) (r : Validated) :
  validateField n form = Normal r -> same_input form (after r).
Proof.
  intros Hr. destruct (validateField_after n form r Hr) as [-> | (m & ->)].
  - apply same_input_refl.
  - apply settle_effect.
Qed.

Lemma breaks_dec (n : jsstring) (form : Form) : breaks n form \/ ~ breaks n form.
Proof.
  pose proof (validateField_effect n form) as He.
  destruct (validateField n form); [right | left]; by destruct He.
Qed.

Lemma validateField_throws (n : jsstring) (form : Form) :
  breaks n form -> validateField n form = Throw TypeError.
Proof.
  intros Hb. pose proof (validateField_effect n form) as He.
  destruct (validateField n form) as [r | e].
  - by destruct He.
  - by destruct He as (-> & _).
Qed.

Lemma validate_from_throw (names : list jsstring) (fm : Form) (e : exn) :
  validate_from names (fm, Throw e) = (fm, Throw e).
Proof. induction names as [| a names IH]; [done |]. exact IH. Qed.

Lemma validate_from_cons (a : jsstring) (names : list jsstring) (fm : Form) (ok : bool) :
  validate_from (a :: names) (fm, Normal ok)
  = match validateField a fm with
    | Normal r => validate_from names (after r, Normal (ok && isValid r))
    | Throw e => (fm, Throw e)
    end.
Proof.
  unfold validate_from at 1. cbn [fold_left].
  destruct (validateField a fm) as [r | e]; [done |]. apply validate_from_throw.
Qed.

Lemma validateForm_unfold (form : Form) :
  validateForm form = validate_from (field_order form) (form, Normal true).
Proof. reflexivity. Qed.







Lemma defaultRules_required :
  defaultRules (lit "required")
  = Own {| validate := fun value _ => Validation.isNotEmpty value;
           message := lit "This field is required" |}.
Proof. reflexivity. Qed.

Lemma defaultRules_email :
  defaultRules (lit "email")
  = Own {| validate := fun value _ => Validation.isEmail value;
           message := lit "Please enter a valid email address" |}.
Proof. reflexivity. Qed.

End FormCalls.

(* ===================================================================== *)
(** ** A required field left empty *)
(* ===================================================================== *)

Section RequiredField.
Import Forms.

(** A form whose table of rules declares [required] for the field
    [fieldName], with no rule name before it that [defaultRules] only
    inherits. *)
Variable fieldName : jsstring.
Variable table : gmap (list N) (list rule).
Variable rules : list rule.
Hypothesis rules_of_field : table !! fieldName = Some rules.
Hypothesis required_reached :
  exists before r rest,
    rules = before ++ r :: rest /\
    Forall sound_name before /\
    ruleName r = lit "required".













End RequiredField.

(* ===================================================================== *)
(** ** The contact form *)
(* ===================================================================== *)

Section ContactForm.
Import Forms.




(** The two values of the specification's scenario for [email]. *)
Example email_scenario :
  (exists result,
     validateField (lit "email") (contact_form (lit "not-an-email")) = Normal result /\
     isValid result = false /\
     errors (after result) !! lit "email"
     = Some (lit "Please enter a valid email address")) /\
  (exists result,
     validateField (lit "email") (contact_form (lit "a@b.co")) = Normal result /\
     isValid result = true /\
     errors (after result) !! lit "email" = None).
Proof. split; eexists; (split; [vm_compute; reflexivity |]); split; vm_compute; reflexivity. Qed.

End ContactForm.

(* ===================================================================== *)
(** * Further properties of the code *)
(* ===================================================================== *)

(** ** Class lists, continued *)

Lemma class_remove_idem (names cl : list jsstring) :
  class_remove names (class_remove names cl) = class_remove names cl.
Proof.
  unfold class_remove. induction cl as [| c cl IH]; [done |].
  rewrite filter_cons.
  destruct (decide (negb (existsb (streq c) names))) as [H | H].
  - rewrite filter_cons. destruct (decide _); [| done]. by rewrite IH.
  - done.
Qed.

Lemma class_add_idem (name : jsstring) (cl : list jsstring) :
  class_add name (class_add name cl) = class_add name cl.
Proof.
  unfold class_add at 2. destruct (existsb (streq name) cl) eqn:H.
  - unfold class_add. by rewrite H.
  - unfold class_add. rewrite existsb_app, H. cbn [existsb].
    by rewrite streq_refl.
Qed.

Lemma class_remove_app (names a b : list jsstring) :
  class_remove names (a ++ b) = class_remove names a ++ class_remove names b.
Proof. unfold class_remove. apply filter_app. Qed.

(** Replacing the theme class twice is replacing it once. *)
Lemma class_replace_idem (e : jsstring) (names cl : list jsstring) :
  class_add e (class_remove names (class_add e (class_remove names cl)))
  = class_add e (class_remove names cl).
Proof.
  set (x := class_remove names cl).
  assert (class_remove names x = x) as Hx by apply class_remove_idem.
  unfold class_add at 2. destruct (existsb (streq e) x) eqn:He.
  - rewrite Hx. unfold class_add. by rewrite He.
  - rewrite class_remove_app, Hx. unfold class_remove at 1.
    rewrite filter_cons, filter_nil.
    destruct (decide _).
    + unfold class_add. rewrite existsb_app, He. cbn [existsb].
      by rewrite streq_refl.
    + rewrite app_nil_r. unfold class_add. by rewrite He.
Qed.

Lemma class_contains_add (name : jsstring) (cl : list jsstring) :
  class_contains name (class_add name cl) = true.
Proof. apply existsb_streq, class_add_In. Qed.

Lemma class_contains_remove (name : jsstring) (cl : list jsstring) :
  class_contains name (class_remove [name] cl) = false.
Proof.
  apply not_true_iff_false. intros H. apply existsb_streq, class_remove_In in H.
  destruct H as [_ H]. apply H. by left.
Qed.

Lemma class_add_present (name : jsstring) (cl : list jsstring) :
  class_contains name cl = true -> class_add name cl = cl.
Proof. unfold class_contains, class_add. by intros ->. Qed.

Lemma class_remove_absent (name : jsstring) (cl : list jsstring) :
  class_contains name cl = false -> class_remove [name] cl = cl.
Proof.
  unfold class_contains, class_remove. induction cl as [| c cl IH]; [done |].
  intros H. cbn [existsb] in H. apply orb_false_iff in H as [Hc H].
  rewrite filter_cons.
  destruct (decide _) as [_ | Hn]; [by rewrite IH |].
  destruct Hn. cbn [existsb].
  assert (streq c name = false) as ->; [| done].
  apply streq_false. intros ->. by rewrite streq_refl in Hc.
Qed.

(** ** The preference store *)





(** ** The theme manager beyond the resolver *)

Lemma document_ext (d1 d2 : Document) :
  html_classes d1 = html_classes d2 ->
  html_data_theme d1 = html_data_theme d2 ->
  body_classes d1 = body_classes d2 ->
  toggleButton d1 = toggleButton d2 ->
  meta_theme_color d1 = meta_theme_color d2 ->
  d1 = d2.
Proof. destruct d1, d2. simpl. by intros -> -> -> -> ->. Qed.

Section ThemeManagerRest.
Import Theme.

(** What [updateToggleButton] makes of a button. *)
Lemma applyTheme_button (st : State) :
  toggleButton (document (applyTheme st))
  = button_after (getEffectiveTheme st) <$> toggleButton (document st).
Proof.
  unfold applyTheme, updateMetaThemeColor, updateToggleButton, button_after.
  cbn [document set_document emit toggleButton].
  destruct (toggleButton (document st)) as [b |]; [| done].
  cbn [fmap option_fmap option_map].
  destruct (icon b) eqn:Hi; reflexivity.
Qed.

(** X4.  A preference set while the store takes the write survives a
    reload: a manager constructed afterwards on the resulting store holds
    that preference, whatever the ambient scheme, the motion setting and
    the document of the new page are. *)
Theorem preference_survives_reload
    (t : jsstring) (st : State) (dark reduced : bool) (d : Document) :
  valid_theme t ->
  LocalStorage.blocked (storage st) = false ->
  LocalStorage.full (storage st) = false ->
  exists st1 st2,
    setTheme (JStr t) st = Normal st1 /\
    construct (storage st1) dark reduced d = Normal st2 /\
    currentTheme st2 = t /\
    getEffectiveTheme st2 = resolve t dark /\
    html_data_theme (document st2) = Some (resolve t dark).
Proof.
  intros Hv Hb Hf.
  destruct (setTheme_valid t st Hv) as (ok & ls & fx & st1 & Hset & Hst & _ & Hls & _).
  destruct (Storage_set_total (storage st) STORAGE_KEY t) as (ok' & ls' & fx' & Hset' & Hcase).
  rewrite Hset in Hset'. injection Hset' as <- <- <-.
  rewrite Hb, Hf in Hcase. cbn [orb] in Hcase.
  destruct Hcase as (_ & _ & Hitems & Hb' & _).
  exists st1.
  unfold construct.
  set (s0 := {| currentTheme := []; storage := storage st1; prefersDark := dark;
                prefersReducedMotion := reduced; document := d; trace := [] |}).
  assert (prefersDark (setupToggleButton s0) = dark) as Hp.
  { unfold setupToggleButton. by destruct (toggleButton (document s0)). }
  destruct (setupToggleButton_frame s0) as (Fs & _).
  destruct (loadSavedTheme_spec (setupToggleButton s0)) as (stored & gx & Hget & Hload).
  rewrite Fs in Hget. change (storage s0) with (storage st1) in Hget.
  assert (Storage.get (storage st1) STORAGE_KEY JNull = Normal (JStr t, [])) as Hgot.
  { apply (Storage_get_after_set (storage st)); [done | by rewrite Hls | by rewrite Hls]. }
  rewrite Hgot in Hget. injection Hget as <- <-.
  assert (includes THEME_VALUES (JStr t) = true) as Hin.
  { apply includes_spec. exists t. split; [done |]. by apply valid_theme_In. }
  rewrite Hin in Hload.
  unfold init. rewrite Hload.
  set (s2 := set_currentTheme t (emit [] (setupToggleButton s0))).
  eexists. split; [done |]. split; [reflexivity |].
  destruct (applyTheme_frame s2) as (F1 & _ & F3 & _).
  destruct (applyTheme_document s2) as (_ & D2 & _).
  assert (getEffectiveTheme s2 = resolve t dark) as He.
  { rewrite getEffectiveTheme_resolve. by rewrite <- Hp. }
  split; [exact F1 |]. split.
  - rewrite getEffectiveTheme_resolve.
    change (resolve (currentTheme (applyTheme s2)) (prefersDark (applyTheme s2))
            = resolve t dark).
    rewrite F1, F3. by rewrite <- Hp.
  - change (html_data_theme (document (applyTheme s2)) = Some (resolve t dark)).
    by rewrite D2, He.
Qed.

Lemma preference_survives_reload_witness :
  valid_theme DARK /\
  exists st1 st2,
    setTheme (JStr DARK) (following_system false empty_storage) = Normal st1 /\
    construct (storage st1) false false page = Normal st2 /\
    currentTheme st2 = DARK.
Proof.
  assert (valid_theme DARK) as Hv by (right; by left).
  split; [exact Hv |].
  destruct (preference_survives_reload DARK (following_system false empty_storage)
              false false page Hv eq_refl eq_refl)
    as (st1 & st2 & H1 & H2 & H3 & _).
  exists st1, st2. by repeat split.
Defined.

(** X5.  After [applyTheme] the root element carries the effective theme
    as a class, neither of the classes light and dark besides it, and
    every other class it had; applying the theme once more changes
    nothing in the document. *)
Theorem applyTheme_settles_the_document (st : State) :
  (forall c,
     In c (html_classes (document (applyTheme st))) <->
     c = getEffectiveTheme st \/
     (In c (html_classes (document st)) /\ c <> LIGHT /\ c <> DARK)) /\
  document (applyTheme (applyTheme st)) = document (applyTheme st).
Proof.
  split.
  - intros c. destruct (applyTheme_document st) as (-> & _).
    split.
    + intros H. apply class_add_In_inv in H as [-> | H]; [by left |].
      apply class_remove_In in H as [H Hn]. right. split; [done |].
      split; intros ->; apply Hn; simpl; tauto.
    + intros [-> | (H & Hl & Hd)]; [apply class_add_In |].
      unfold class_add. destruct (existsb _ _).
      * apply class_remove_In. split; [done |].
        intros [<- | [<- | []]]; done.
      * apply in_app_iff. left. apply class_remove_In. split; [done |].
        intros [<- | [<- | []]]; done.
  - assert (getEffectiveTheme (applyTheme st) = getEffectiveTheme st) as He.
    { rewrite !getEffectiveTheme_resolve.
      by destruct (applyTheme_frame st) as (-> & _ & -> & _). }
    apply document_ext.
    + destruct (applyTheme_document (applyTheme st)) as (-> & _).
      destruct (applyTheme_document st) as (-> & _).
      rewrite He. apply class_replace_idem.
    + destruct (applyTheme_document (applyTheme st)) as (_ & -> & _).
      destruct (applyTheme_document st) as (_ & -> & _). by rewrite He.
    + destruct (applyTheme_frame (applyTheme st)) as (_ & _ & _ & _ & ->). done.
    + rewrite (applyTheme_button (applyTheme st)), He, (applyTheme_button st).
      destruct (toggleButton (document st)) as [b |]; [| done].
      cbn [fmap option_fmap option_map]. unfold button_after.
      destruct (icon b) eqn:Hi; [| by rewrite Hi].
      cbn [icon btn_classes btn_attrs].
      by rewrite class_add_idem, insert_insert_eq.
    + destruct (applyTheme_document (applyTheme st)) as (_ & _ & -> & _).
      destruct (applyTheme_document st) as (_ & _ & -> & _). by rewrite He.
Qed.

(** X6.  In every state a manager can reach, the preference is one of the
    three values, the effective theme is light or dark, [isDark] and
    [isLight] are each other's negation, and [getThemeInfo] lists the
    preference among the available themes. *)
Theorem reachable_theme_is_light_or_dark (st : State) :
  reachable st ->
  valid_theme (currentTheme st) /\
  (getEffectiveTheme st = LIGHT \/ getEffectiveTheme st = DARK) /\
  isDark st = negb (isLight st) /\
  In (current (getThemeInfo st)) (available (getThemeInfo st)) /\
  In (effective (getThemeInfo st)) (available (getThemeInfo st)) /\
  (current (getThemeInfo st) = SYSTEM ->
   effective (getThemeInfo st) = systemPreference (getThemeInfo st)).
Proof.
  intros Hr. pose proof (reachable_valid st Hr) as Hv.
  pose proof (getEffectiveTheme_valid st Hv) as He.
  split; [done |]. split; [done |].
  unfold isDark, isLight, getThemeInfo.
  cbn [current effective available systemPreference].
  split; [by destruct He as [-> | ->] |].
  split; [by apply valid_theme_In |].
  split; [destruct He as [-> | ->]; simpl; tauto |].
  intros Hs. unfold getEffectiveTheme. rewrite Hs. by rewrite streq_refl.
Qed.

Lemma reachable_theme_is_light_or_dark_witness :
  reachable fresh_manager /\
  currentTheme fresh_manager = SYSTEM /\
  isDark fresh_manager = false.
Proof.
  assert (reachable fresh_manager) as Hr.
  { apply (reach_construct empty_storage false false page). by vm_compute. }
  split; [exact Hr |].
  destruct (reachable_theme_is_light_or_dark fresh_manager Hr) as (_ & _ & _ & _ & _ & _).
  split; by vm_compute.
Defined.

(** X7.  The listeners for a change of the ambient scheme, for the page
    becoming visible and for the timers never change the preference or
    the store.  With a concrete preference the first two leave the
    document alone; when the preference follows the system, a change of
    the ambient scheme shows on the document. *)
Theorem listeners_keep_preference_and_store (st : State) :
  (forall dark,
     storage (onSystemChange dark st) = storage st /\
     currentTheme (onSystemChange dark st) = currentTheme st) /\
  (forall hidden,
     storage (onVisibilityChange hidden st) = storage st /\
     currentTheme (onVisibilityChange hidden st) = currentTheme st /\
     prefersDark (onVisibilityChange hidden st) = prefersDark st /\
     (hidden = true -> onVisibilityChange hidden st = st)) /\
  (forall a,
     storage (onTimer a st) = storage st /\
     currentTheme (onTimer a st) = currentTheme st /\
     html_classes (document (onTimer a st)) = html_classes (document st) /\
     html_data_theme (document (onTimer a st)) = html_data_theme (document st)) /\
  (currentTheme st <> SYSTEM ->
   forall dark hidden,
     document (onSystemChange dark st) = document st /\
     onVisibilityChange hidden st = st) /\
  (currentTheme st = SYSTEM ->
   forall dark,
     getEffectiveTheme (onSystemChange dark st) = ambient dark /\
     html_data_theme (document (onSystemChange dark st)) = Some (ambient dark) /\
     In (ambient dark) (html_classes (document (onSystemChange dark st)))).
Proof.
  split; [| split; [| split; [| split]]].
  - intros dark. by destruct (onSystemChange_follows_ambient dark st) as (? & ? & _).
  - intros hidden. unfold onVisibilityChange.
    destruct hidden; cbn [negb andb]; [done |].
    destruct (streq (currentTheme st) SYSTEM); [| done].
    destruct (applyTheme_frame st) as (-> & -> & -> & _). by repeat split.
  - intros a. unfold onTimer.
    destruct a; [by destruct (toggleButton (document st)) | done].
  - intros Hne dark hidden.
    destruct (onSystemChange_follows_ambient dark st) as (_ & _ & _ & H).
    split; [by apply H |].
    unfold onVisibilityChange. apply streq_false in Hne. rewrite Hne.
    by rewrite andb_false_r.
  - intros Hs dark.
    destruct (onSystemChange_follows_ambient dark st) as (_ & _ & H & _).
    destruct (H Hs) as (H1 & H2). split; [done |]. split; [done |].
    unfold onSystemChange. cbn [set_prefersDark currentTheme]. rewrite Hs, streq_refl.
    destruct (applyTheme_document (set_prefersDark dark st)) as (-> & _).
    rewrite getEffectiveTheme_resolve. cbn [set_prefersDark currentTheme prefersDark].
    rewrite Hs. unfold resolve. rewrite streq_refl. apply class_add_In.
Qed.

Lemma listeners_keep_preference_and_store_witness :
  let explicit := set_currentTheme DARK (following_system false empty_storage) in
  let following := following_system false empty_storage in
  currentTheme explicit <> SYSTEM /\
  currentTheme following = SYSTEM /\
  document (onSystemChange true explicit) = document explicit /\
  html_data_theme (document (onSystemChange true following)) = Some (ambient true).
Proof.
  intros explicit following.
  assert (currentTheme explicit <> SYSTEM) as Hne by (by vm_compute).
  assert (currentTheme following = SYSTEM) as Hs by reflexivity.
  split; [exact Hne |]. split; [exact Hs |].
  destruct (listeners_keep_preference_and_store explicit) as (_ & _ & _ & Hc & _).
  destruct (listeners_keep_preference_and_store following) as (_ & _ & _ & _ & Hf).
  split; [apply (Hc Hne true false) | apply (Hf Hs true)].
Defined.

(** X8.  When the page has the toggle button with its icon, [applyTheme]
    leaves the button announcing the theme the next toggle sets: its
    aria-label names the preference [toggle] then stores, its icon is the
    sun in the dark theme and the moon otherwise, and its other
    attributes are kept. *)
Theorem toggle_button_announces_next_theme
    (st : State) (b : ToggleButton) (c : jsstring) :
  toggleButton (document st) = Some b ->
  icon b = Some c ->
  exists b' st',
    toggleButton (document (applyTheme st)) = Some b' /\
    toggle (applyTheme st) = Normal st' /\
    btn_attrs b' !! lit "aria-label"
    = Some (lit "Switch to " ++ currentTheme st' ++ lit " theme") /\
    icon b' = Some (if isDark st then lit "fas fa-sun" else lit "fas fa-moon") /\
    (forall k, k <> lit "aria-label" -> btn_attrs b' !! k = btn_attrs b !! k).
Proof.
  intros Hb Hi.
  destruct (toggle_result (applyTheme st)) as (st' & Ht & Hc & _).
  assert (getEffectiveTheme (applyTheme st) = getEffectiveTheme st) as He.
  { rewrite !getEffectiveTheme_resolve.
    by destruct (applyTheme_frame st) as (-> & _ & -> & _). }
  rewrite He in Hc.
  rewrite applyTheme_button, Hb. cbn [fmap option_fmap option_map].
  unfold button_after. rewrite Hi.
  eexists _, st'. split; [reflexivity |]. split; [exact Ht |].
  cbn [btn_attrs icon]. rewrite Hc. unfold isDark.
  split; [| split; [done |]].
  - rewrite lookup_insert_eq. by destruct (streq (getEffectiveTheme st) DARK).
  - intros k Hk. by rewrite lookup_insert_ne.
Qed.

Lemma toggle_button_announces_next_theme_witness :
  exists b' st',
    toggleButton (document (applyTheme (following_system false empty_storage))) = Some b' /\
    toggle (applyTheme (following_system false empty_storage)) = Normal st' /\
    btn_attrs b' !! lit "aria-label" = Some (lit "Switch to dark theme") /\
    currentTheme st' = DARK.
Proof.
  destruct (toggle_button_announces_next_theme (following_system false empty_storage)
              {| btn_classes := []; btn_attrs := ∅; icon := Some (lit "fas fa-moon") |}
              (lit "fas fa-moon") eq_refl eq_refl)
    as (b' & st' & H1 & H2 & H3 & _).
  exists b', st'. split; [exact H1 |]. split; [exact H2 |].
  assert (currentTheme st' = DARK) as Hc.
  { destruct (toggle_result (applyTheme (following_system false empty_storage)))
      as (st'' & Ht & Hc & _).
    rewrite H2 in Ht. injection Ht as <-. exact Hc. }
  split; [| exact Hc]. rewrite H3, Hc. reflexivity.
Defined.

Lemma Storage_set_no_timer (ls : LocalStorage.t) (key value : jsstring) :
  exists ok ls' fx,
    Storage.set ls key value = Normal (ok, ls', fx) /\
    forall a ms, ~ In (SetTimeout a ms) fx.
Proof.
  unfold Storage.set, LocalStorage.setItem.
  destruct (LocalStorage.blocked ls); [| destruct (LocalStorage.full ls)];
    cbn [mbind completion_bind try_catch]; eexists _, _, _; (split; [reflexivity |]);
    intros a ms; simpl; intuition discriminate.
Qed.

(** [applyTheme] sets no timer but the one of the toggle button. *)
Lemma applyTheme_timers (st : State) :
  exists fx,
    trace (applyTheme st) = trace st ++ fx /\
    forall a ms, In (SetTimeout a ms) fx -> a = RemoveThemeSwitching.
Proof.
  unfold applyTheme, updateMetaThemeColor, updateToggleButton.
  cbn [document set_document emit toggleButton trace].
  destruct (toggleButton (document st)) as [b |]; [destruct (icon b) |];
    cbn [document set_document emit toggleButton trace];
    rewrite <- ?app_assoc; eexists; (split; [reflexivity |]);
    intros a ms; simpl; intuition congruence.
Qed.

(** X9.  [setTheme] animates the change only when the user has not asked
    for reduced motion: otherwise the body keeps its classes and the
    300 ms timer is not set.  When the animation runs, the body carries
    the class theme-transitioning until that timer fires, which leaves
    the body with the classes it had before. *)
Theorem animation_respects_reduced_motion (t : jsstring) (st : State) :
  valid_theme t ->
  exists st' fx,
    setTheme (JStr t) st = Normal st' /\
    trace st' = trace st ++ fx /\
    (forall c,
       In c (body_classes (document (onTimer RemoveThemeTransitioning st'))) <->
       In c (body_classes (document st)) /\ c <> lit "theme-transitioning") /\
    if prefersReducedMotion st
    then body_classes (document st') = body_classes (document st) /\
         ~ In (SetTimeout RemoveThemeTransitioning 300) fx
    else In (lit "theme-transitioning") (body_classes (document st')) /\
         In (SetTimeout RemoveThemeTransitioning 300) fx.
Proof.
  intros Hv.
  destruct (Storage_set_no_timer (storage st) STORAGE_KEY t) as (ok & ls & fx & Hset & Hfx).
  unfold setTheme.
  assert (includes THEME_VALUES (JStr t) = true) as ->.
  { apply includes_spec. exists t. split; [done | by apply valid_theme_In]. }
  cbn [negb]. cbn [set_currentTheme storage]. rewrite Hset. cbn [mbind completion_bind].
  set (st1 := emit fx (set_storage ls (set_currentTheme t st))).
  destruct (applyTheme_frame st1) as (_ & _ & _ & F4 & F5).
  destruct (applyTheme_timers st1) as (gx & Htr & Hgx).
  rewrite F4. change (prefersReducedMotion st1) with (prefersReducedMotion st).
  change (body_classes (document st1)) with (body_classes (document st)) in F5.
  change (trace st1) with (trace st ++ fx) in Htr.
  assert (forall cl c,
            In c (class_remove [lit "theme-transitioning"] cl) <->
            In c cl /\ c <> lit "theme-transitioning") as Hrem.
  { intros cl c. rewrite class_remove_In. simpl. intuition congruence. }
  destruct (prefersReducedMotion st); cbn [negb]; eexists _, _;
    (split; [reflexivity |]).
  - cbn [emit trace document]. rewrite Htr, <- !app_assoc.
    split; [reflexivity |].
    unfold onTimer. cbn [emit document set_document body_classes].
    rewrite F5. split; [apply Hrem |]. split; [done |].
    rewrite !in_app_iff. intros [H | [H | [H | []]]]; [by apply Hfx in H | | done].
    by apply Hgx in H.
  - unfold animateThemeChange.
    cbn [emit trace document set_document body_classes]. rewrite Htr, <- !app_assoc.
    split; [reflexivity |].
    unfold onTimer. cbn [emit document set_document body_classes].
    rewrite F5. split; [| split; [apply class_add_In |]].
    + intros c. rewrite Hrem. split.
      * intros [H Hne]. split; [| done].
        apply class_add_In_inv in H as [-> | H]; done.
      * intros [H Hne]. split; [| done].
        unfold class_add. destruct (existsb _ _); [done |].
        apply in_app_iff. by left.
    + rewrite !in_app_iff. right. right. left. by left.
Qed.

Lemma animation_respects_reduced_motion_witness :
  valid_theme DARK /\
  exists st',
    setTheme (JStr DARK) (following_system false empty_storage) = Normal st' /\
    forall c,
      In c (body_classes (document (onTimer RemoveThemeTransitioning st'))) <->
      In c [] /\ c <> lit "theme-transitioning".
Proof.
  assert (valid_theme DARK) as Hv by (right; by left).
  split; [exact Hv |].
  destruct (animation_respects_reduced_motion DARK (following_system false empty_storage) Hv)
    as (st' & fx & H1 & _ & H3 & _).
  exists st'. split; [exact H1 | exact H3].
Defined.

End ThemeManagerRest.

(** ** The legacy script *)

Section LegacyScript.

(** X10.  In the legacy script a click flips the class dark of the root
    element and stores the matching word, and the statements run at the
    next load of the page read that word and leave the document exactly
    as the click left it. *)
Theorem legacy_click_then_reload
    (st : Legacy.State) (b : ToggleButton) (c : jsstring) :
  toggleButton (Legacy.document st) = Some b ->
  icon b = Some c ->
  LocalStorage.blocked (Legacy.storage st) = false ->
  LocalStorage.full (Legacy.storage st) = false ->
  let wasDark := class_contains (lit "dark") (html_classes (Legacy.document st)) in
  let word := if wasDark then lit "light" else lit "dark" in
  exists st1 st2,
    Legacy.click st = Normal st1 /\
    class_contains (lit "dark") (html_classes (Legacy.document st1)) = negb wasDark /\
    LocalStorage.items (Legacy.storage st1) !! lit "theme" = Some word /\
    Legacy.load st1 = Normal (word, st2) /\
    Legacy.document st2 = Legacy.document st1 /\
    Legacy.storage st2 = Legacy.storage st1.
Proof.
  intros Hb Hi Hbl Hfu wasDark word.
  unfold Legacy.click, Legacy.updateThemeIcon, LocalStorage.setItem.
  rewrite Hbl, Hfu. cbn [mbind completion_bind Legacy.set_html_classes toggleButton].
  rewrite Hb, Hi. cbn [mbind completion_bind].
  eexists _, _. split; [reflexivity |].
  cbn [Legacy.document Legacy.storage html_classes LocalStorage.items].
  fold wasDark. fold word.
  split; [| split; [by rewrite lookup_insert_eq |]].
  { unfold class_toggle. destruct wasDark; cbn [negb];
      [apply class_contains_remove | apply class_contains_add]. }
  unfold Legacy.load, Legacy.updateThemeIcon, LocalStorage.getItem.
  cbn [Legacy.document Legacy.storage toggleButton LocalStorage.blocked
       LocalStorage.items Legacy.set_html_classes html_classes icon].
  rewrite lookup_insert_eq. cbn [mbind completion_bind].
  assert (truthy (JStr word) = true) as -> by (by unfold word; destruct wasDark).
  assert (streq word (lit "dark") = negb wasDark) as Hw
    by (by unfold word; destruct wasDark).
  rewrite Hw.
  assert (class_toggle (lit "dark") (negb wasDark)
            (class_toggle (lit "dark") (negb wasDark)
               (html_classes (Legacy.document st)))
          = class_toggle (lit "dark") (negb wasDark)
              (html_classes (Legacy.document st))) as ->.
  { unfold class_toggle. destruct wasDark; cbn [negb];
      [apply class_remove_idem | apply class_add_idem]. }
  cbn [html_data_theme body_classes toggleButton meta_theme_color btn_classes btn_attrs
       mbind completion_bind].
  split; [reflexivity |]. split; reflexivity.
Qed.

Lemma legacy_click_then_reload_witness :
  exists st1 st2,
    Legacy.click {| Legacy.storage := empty_storage; Legacy.document := page |}
    = Normal st1 /\
    Legacy.load st1 = Normal (lit "dark", st2) /\
    Legacy.document st2 = Legacy.document st1.
Proof.
  destruct (legacy_click_then_reload
              {| Legacy.storage := empty_storage; Legacy.document := page |}
              {| btn_classes := []; btn_attrs := ∅; icon := Some (lit "fas fa-moon") |}
              (lit "fas fa-moon") eq_refl eq_refl eq_refl eq_refl)
    as (st1 & st2 & H1 & _ & _ & H4 & H5 & _).
  exists st1, st2. split; [exact H1 |]. split; [exact H4 | exact H5].
Defined.

(** X11.  What the statements of the legacy script do when the page
    loads.  Without the button they throw; with a store that cannot be
    read they throw; without the icon they throw.  Otherwise the root
    element ends with the class dark exactly when the stored word is
    dark: any other stored word, an empty entry and no entry at all give
    the light theme.  The other classes and the store are left alone. *)
Theorem legacy_load_outcomes (st : Legacy.State) :
  match toggleButton (Legacy.document st) with
  | None => Legacy.load st = Throw TypeError
  | Some b =>
      if LocalStorage.blocked (Legacy.storage st)
      then Legacy.load st = Throw SecurityError
      else
        match icon b with
        | None => Legacy.load st = Throw TypeError
        | Some _ =>
            exists w st',
              Legacy.load st = Normal (w, st') /\
              Legacy.storage st' = Legacy.storage st /\
              (In (lit "dark") (html_classes (Legacy.document st')) <->
               LocalStorage.items (Legacy.storage st) !! lit "theme" = Some (lit "dark")) /\
              (forall c, c <> lit "dark" ->
                 In c (html_classes (Legacy.document st')) <->
                 In c (html_classes (Legacy.document st)))
        end
  end.
Proof.
  unfold Legacy.load, Legacy.updateThemeIcon, LocalStorage.getItem.
  destruct (toggleButton (Legacy.document st)) as [b |] eqn:Hb; [| done].
  destruct (LocalStorage.blocked (Legacy.storage st)); [done |].
  cbn [mbind completion_bind Legacy.set_html_classes toggleButton]. rewrite Hb.
  destruct (icon b) as [c |]; [| done]. cbn [mbind completion_bind].
  eexists _, _. split; [reflexivity |].
  cbn [Legacy.storage Legacy.document html_classes]. split; [done |].
  set (saved := match LocalStorage.items (Legacy.storage st) !! Legacy.THEME_KEY with
                | Some s => if truthy (JStr s) then s else lit "light"
                | None => lit "light"
                end).
  assert (streq saved (lit "dark") = true <->
          LocalStorage.items (Legacy.storage st) !! lit "theme" = Some (lit "dark")) as Hs.
  { rewrite streq_true. unfold saved.
    change Legacy.THEME_KEY with (lit "theme").
    destruct (LocalStorage.items (Legacy.storage st) !! lit "theme") as [s |];
      [| by split].
    destruct s as [| x s]; [by split |].
    cbn [truthy]. split; intros H; congruence. }
  unfold class_toggle. destruct (streq saved (lit "dark")) eqn:Hd;
    cbn [Legacy.set_html_classes html_classes].
  - split.
    + split; [intros _; by apply Hs | intros _; apply class_add_In].
    + intros c' Hne. split.
      * intros H. by apply class_add_In_inv in H as [-> | H].
      * intros H. unfold class_add. destruct (existsb _ _); [done |].
        apply in_app_iff. by left.
  - split.
    + rewrite class_remove_In. split.
      * intros [_ H]. destruct H. by left.
      * intros H. apply Hs in H. discriminate.
    + intros c' Hne. rewrite class_remove_In. split; [by intros [H _] |].
      intros H. split; [done |]. by intros [<- | []].
Qed.

End LegacyScript.

(** ** The emitter and the function wrappers *)

Section EventsProperties.
Import Events.

Lemma remove_first_last (cb : nat) (l : list nat) :
  Permutation (remove_first cb (l ++ [cb])) l /\
  List.filter (fun x => negb (Nat.eqb x cb)) (remove_first cb (l ++ [cb]))
  = List.filter (fun x => negb (Nat.eqb x cb)) l /\
  (~ In cb l -> remove_first cb (l ++ [cb]) = l).
Proof.
  induction l as [| x l (IH1 & IH2 & IH3)]; cbn [app remove_first].
  - rewrite Nat.eqb_refl. by repeat split.
  - destruct (Nat.eqb x cb) eqn:Hx.
    + apply Nat.eqb_eq in Hx as ->. split; [| split].
      * symmetry. apply Permutation_cons_append.
      * cbn [List.filter]. rewrite Nat.eqb_refl. cbn [negb].
        rewrite List.filter_app. cbn [List.filter]. rewrite Nat.eqb_refl.
        cbn [negb]. by rewrite app_nil_r.
      * intros H. destruct H. by left.
    + split; [| split].
      * by apply Permutation_cons.
      * cbn [List.filter]. rewrite Hx. cbn [negb]. by rewrite IH2.
      * intros H. rewrite IH3; [done |]. intros Hin. apply H. by right.
Qed.

(** X12.  Subscribing a callback to an event and calling the function
    [on] returned.  Under a name inherited from [Object.prototype] both
    [on] and [emit] throw a [TypeError].  Under any other name the
    callback is called last after the subscription; after unsubscribing,
    the event has the callbacks it had before, each as often as before,
    and the callbacks other than this one in their old order; if the
    callback was not subscribed before, the order is the old one.  Other
    events are not touched. *)
Theorem emitter_subscribe_then_unsubscribe
    (event : jsstring) (cb : nat) (events : gmap (list N) (list nat)) :
  match on event cb events with
  | Throw e =>
      e = TypeError /\ inherited event = true /\ emit event events = Throw TypeError
  | Normal ev1 =>
      exists before after ev2,
        emit event events = Normal before /\
        emit event ev1 = Normal (before ++ [cb]) /\
        unsubscribe event cb ev1 = Normal ev2 /\
        emit event ev2 = Normal after /\
        Permutation after before /\
        List.filter (fun x => negb (Nat.eqb x cb)) after
        = List.filter (fun x => negb (Nat.eqb x cb)) before /\
        (~ In cb before -> after = before) /\
        (forall other, other <> event ->
           emit other ev1 = emit other events /\
           emit other ev2 = emit other events)
  end.
Proof.
  unfold on, emit, unsubscribe, read.
  destruct (inherited event) eqn:Hi; [done |].
  assert (forall l (m : gmap (list N) (list nat)) other,
            other <> event ->
            (if inherited other then Inherited
             else match <[event := l]> m !! other with
                  | Some l' => Callbacks l'
                  | None => Undefined
                  end)
            = (if inherited other then Inherited
               else match m !! other with
                    | Some l' => Callbacks l'
                    | None => Undefined
                    end)) as Hother.
  { intros l m other Hne. by rewrite lookup_insert_ne. }
  destruct (events !! event) as [l |] eqn:Hl; cbv beta iota.
  - exists l, (remove_first cb (l ++ [cb])), (<[event := remove_first cb (l ++ [cb])]>
                                                 (<[event := l ++ [cb]]> events)).
    rewrite ?Hi, !lookup_insert_eq.
    destruct (remove_first_last cb l) as (H1 & H2 & H3).
    split; [done |]. split; [done |]. split; [done |]. split; [done |].
    split; [done |]. split; [done |]. split; [done |].
    intros other Hne. by rewrite !Hother.
  - exists [], (remove_first cb ([] ++ [cb])), (<[event := remove_first cb ([] ++ [cb])]>
                                                  (<[event := [cb]]> events)).
    rewrite ?Hi, !lookup_insert_eq.
    destruct (remove_first_last cb []) as (H1 & H2 & H3).
    split; [done |]. split; [done |]. split; [done |]. split; [done |].
    split; [done |]. split; [done |]. split; [done |].
    intros other Hne. by rewrite !Hother.
Qed.

(** X13.  A burst of calls of a debounced function followed by its timer
    calls the function once: with the arguments of the last call of the
    burst, or, when [immediate] is set, with those of the first call, and
    then only if no timer was pending when the burst began. *)
Theorem debounce_burst_calls_once {A : Type}
    (immediate : bool) (timeout : option A) (a : A) (rest : list A) :
  drive (debounce_step immediate) (map Call (a :: rest) ++ [Fire]) timeout
  = (None,
     if immediate
     then match timeout with None => [a] | Some _ => [] end
     else [List.last rest a]).
Proof.
  revert a timeout. induction rest as [| b rest IH]; intros a timeout.
  - cbn. by destruct immediate, timeout.
  - change (map Call (a :: b :: rest) ++ [Fire])
      with (Call a :: (map Call (b :: rest) ++ [Fire])).
    cbn [drive debounce_step]. rewrite IH.
    change (List.last (b :: rest) a) with
      (match rest with [] => b | _ :: _ => List.last rest a end).
    destruct immediate; cbn [andb negb app].
    + destruct timeout; by rewrite ?app_nil_r.
    + f_equal. f_equal. destruct rest as [| c rest]; [done |].
      clear. revert c. induction rest as [| d rest IH]; intros c; [done |].
      cbn [List.last] in *. apply IH.
Qed.

Lemma throttle_calls_bound {A : Type} (ts : list (tick A)) (s : bool) :
  (length (snd (drive throttle_step ts s)) <= fires ts + (if s then 0 else 1))%nat.
Proof.
  revert s. induction ts as [| t ts IH]; intros s; [cbn; lia |].
  cbn [drive]. destruct t as [args |]; cbn [throttle_step].
  - destruct s; cbn [negb].
    + specialize (IH true). destruct (drive throttle_step ts true) as [s2 c2].
      cbn in *. unfold fires in *. cbn [List.filter]. lia.
    + specialize (IH true). destruct (drive throttle_step ts true) as [s2 c2].
      cbn in *. unfold fires in *. cbn [List.filter]. lia.
  - specialize (IH false). destruct (drive throttle_step ts false) as [s2 c2].
    cbn in *. unfold fires in *. cbn [List.filter length]. destruct s; lia.
Qed.

(** X14.  A throttled function passes the first call of a window and
    drops the calls that follow until its timer has gone off, so over any
    run it makes at most one call more than timers have gone off.  The
    function [once] returns calls its function for the first call only. *)
Theorem throttle_one_call_per_window {A : Type} :
  (forall (a : A) (rest : list A),
     drive throttle_step (map Call (a :: rest)) false = (true, [a])) /\
  (forall (rest : list A),
     drive throttle_step (map Call rest) true = (true, [])) /\
  (forall (ts : list (tick A)) (s : bool),
     (length (snd (drive throttle_step ts s))
      <= fires ts + (if s then 0 else 1))%nat) /\
  (forall (a : A) (rest : list A), once_run (a :: rest) = [a]).
Proof.
  assert (forall rest : list A,
            drive throttle_step (map Call rest) true = (true, [])) as Hdrop.
  { induction rest as [| b rest IH]; [done |].
    cbn [map drive throttle_step negb]. by rewrite IH. }
  split; [| split; [done | split; [apply throttle_calls_bound |]]].
  - intros a rest. cbn [map drive throttle_step negb]. by rewrite Hdrop.
  - intros a rest. unfold once_run. cbn [fold_left once_call negb app option_list].
    assert (forall (l : list A) calls,
              fold_left
                (fun '(executed, calls) args =>
                   let '(executed', r) := once_call args executed in
                   (executed', calls ++ option_list r))
                l (true, calls) = (true, calls)) as Hdone.
    { induction l as [| b l IH]; intros calls; [done |].
      cbn [fold_left once_call negb option_list]. rewrite app_nil_r. apply IH. }
    by rewrite Hdone.
Qed.

End EventsProperties.

(** ** Device classes, truncation, the arrow keys, the header *)

Section DeviceProperties.
Import Device.

Lemma android_not_mobile_contains (s : jsstring) :
  android_not_mobile s = true -> contains_ci (lit "Android") s = true.
Proof.
  induction s as [| c s IH].
  - intros H. by vm_compute in H.
  - change (android_not_mobile (c :: s))
      with ((starts_ci (lit "Android") (c :: s) &&
             negb (dot_star_then (lit "Mobile") (drop 7 (c :: s))))
            || android_not_mobile s).
    change (contains_ci (lit "Android") (c :: s))
      with (starts_ci (lit "Android") (c :: s) || contains_ci (lit "Android") s).
    intros H. apply orb_true_iff in H as [H | H].
    + apply andb_true_iff in H as [-> _]. done.
    + rewrite (IH H). apply orb_true_r.
Qed.

(** X15.  Whatever the user agent, what [isTablet] accepts [isMobile]
    accepts too.  So [isDesktop] is the negation of [isMobile], and the
    class [setupDeviceDetection] puts on the body is is-mobile or
    is-desktop, never is-tablet. *)
Theorem tablets_are_classed_as_mobile (userAgent : jsstring) :
  (isTablet userAgent = true -> isMobile userAgent = true) /\
  isDesktop userAgent = negb (isMobile userAgent) /\
  deviceClass userAgent
  = (if isMobile userAgent then lit "is-mobile" else lit "is-desktop").
Proof.
  assert (isTablet userAgent = true -> isMobile userAgent = true) as Himp.
  { unfold isTablet, isMobile. intros H. apply orb_true_iff in H as [H | H].
    - cbn [existsb]. rewrite H. by rewrite !orb_true_r.
    - apply android_not_mobile_contains in H. cbn [existsb]. by rewrite H. }
  split; [done |].
  unfold isDesktop, deviceClass.
  destruct (isMobile userAgent); [done |].
  destruct (isTablet userAgent); [| done].
  by discriminate Himp.
Qed.

End DeviceProperties.

Section FormatProperties.
Import Format.

(** X16.  [Format.truncate] returns a string that fits as it is; a longer
    one is cut to [length] code units and the suffix is put after them,
    so the result can be longer than [length] by the suffix but not by
    more.  Truncating the result again changes nothing. *)
Theorem truncate_fits_and_settles (str : jsstring) (len : Z) (suffix : jsstring) :
  ((Z.of_nat (length str) <= len)%Z -> truncate str len suffix = str) /\
  ((len < Z.of_nat (length str))%Z ->
   truncate str len suffix = take (Z.to_nat len) str ++ suffix /\
   length (truncate str len suffix) = (Z.to_nat len + length suffix)%nat) /\
  ((0 <= len)%Z ->
   (Z.of_nat (length (truncate str len suffix)) <= len + Z.of_nat (length suffix))%Z) /\
  truncate (truncate str len suffix) len suffix = truncate str len suffix.
Proof.
  unfold truncate.
  destruct (len <? Z.of_nat (length str))%Z eqn:Hlt.
  - apply Z.ltb_lt in Hlt.
    assert (length (take (Z.to_nat len) str) = Z.to_nat len) as Htake.
    { rewrite length_take. lia. }
    split; [lia |]. split; [| split].
    + intros _. split; [done |]. rewrite length_app. lia.
    + intros Hpos. rewrite length_app. lia.
    + destruct (len <? _)%Z eqn:Hlt'; [| done].
      by rewrite take_app_length'.
  - apply Z.ltb_ge in Hlt. split; [done |]. split; [lia |]. split; [lia |].
    by rewrite (proj2 (Z.ltb_ge _ _) Hlt).
Qed.

End FormatProperties.

Section KeyboardProperties.
Import Keyboard.

(** X17.  On a link of the menu the arrow keys, Home and End move the
    focus to a link of the menu: down or right to the next one and from
    the last to the first, up or left back again. *)
Theorem arrow_keys_cycle_through_links (index length : nat) :
  (index < length)%nat ->
  (forall key j, onLinkKey key index length = Some j -> (j < length)%nat) /\
  (exists j,
     onLinkKey (lit "ArrowDown") index length = Some j /\
     onLinkKey (lit "ArrowRight") index length = Some j /\
     j = (if decide (S index = length) then 0%nat else S index) /\
     onLinkKey (lit "ArrowUp") j length = Some index /\
     onLinkKey (lit "ArrowLeft") j length = Some index) /\
  onLinkKey (lit "Home") index length = Some 0%nat /\
  onLinkKey (lit "End") index length = Some (length - 1)%nat.
Proof.
  intros Hlt.
  assert (((index + 1) mod length)%nat
          = if decide (S index = length) then 0%nat else S index) as Hnext.
  { destruct (decide (S index = length)) as [<- | Hne].
    - replace (index + 1)%nat with (S index) by lia. apply Nat.Div0.mod_same.
    - rewrite Nat.mod_small; lia. }
  assert (forall j, j = (if decide (S index = length) then 0%nat else S index) ->
                    ((j + length - 1) mod length)%nat = index) as Hprev.
  { intros j ->. destruct (decide (S index = length)) as [<- | Hne].
    - rewrite Nat.mod_small; lia.
    - replace (S index + length - 1)%nat with (index + 1 * length)%nat by lia.
      rewrite Nat.Div0.mod_add. apply Nat.mod_small. lia. }
  split; [| split; [| split]].
  - intros key j. unfold onLinkKey.
    repeat match goal with |- context [if ?c then _ else _] => destruct c end;
      intros [= <-]; try lia; apply Nat.mod_upper_bound; lia.
  - eexists. split; [reflexivity |]. split; [reflexivity |].
    split; [exact Hnext |].
    rewrite Hnext. split.
    + change (onLinkKey (lit "ArrowUp") ?j length)
        with (Some ((j + length - 1) mod length)%nat). by rewrite Hprev.
    + change (onLinkKey (lit "ArrowLeft") ?j length)
        with (Some ((j + length - 1) mod length)%nat). by rewrite Hprev.
  - reflexivity.
  - reflexivity.
Qed.

Lemma arrow_keys_cycle_through_links_witness :
  (2 < 3)%nat /\
  onLinkKey (lit "ArrowDown") 2 3 = Some 0%nat /\
  onLinkKey (lit "ArrowUp") 0 3 = Some 2%nat.
Proof.
  assert (2 < 3)%nat as H by lia.
  split; [exact H |].
  destruct (arrow_keys_cycle_through_links 2 3 H) as (_ & (j & H1 & _ & -> & H2 & _) & _).
  split; [exact H1 | exact H2].
Defined.

End KeyboardProperties.

Section HeaderProperties.
Import Header.

Lemma class_toggle_In (name : jsstring) (force : bool) (cl : list jsstring) :
  In name (class_toggle name force cl) <-> force = true.
Proof.
  unfold class_toggle. destruct force.
  - split; [done | intros _; apply class_add_In].
  - rewrite class_remove_In. split; [| done]. intros [_ H]. destruct H. by left.
Qed.

Lemma updateHeader_step (isDesktop : bool) (y : Z) (st : State) :
  let st' := updateHeader isDesktop y st in
  (In (lit "scrolled") (classes st') <-> (100 < y)%Z) /\
  lastScrollY st' = y /\
  ((y <= 100)%Z -> isHeaderHidden st' = false) /\
  (isDesktop = false -> isHeaderHidden st = false -> isHeaderHidden st' = false) /\
  (isHeaderHidden st' = true -> isHeaderHidden st = false ->
   isDesktop = true /\ (100 < y)%Z /\ (lastScrollY st < y)%Z) /\
  (isHeaderHidden st' = false -> isHeaderHidden st = true ->
   (y <= 100)%Z \/ isDesktop = true /\ (y <= lastScrollY st)%Z) /\
  (in_step st -> in_step st').
Proof.
  unfold updateHeader, in_step.
  destruct (100 <? y)%Z eqn:Hy; [apply Z.ltb_lt in Hy | apply Z.ltb_ge in Hy];
    destruct (lastScrollY st <? y)%Z eqn:Hd;
    [apply Z.ltb_lt in Hd | apply Z.ltb_ge in Hd
     | apply Z.ltb_lt in Hd | apply Z.ltb_ge in Hd];
    destruct isDesktop, (isHeaderHidden st), (transform st);
    cbn [andb negb classes transform lastScrollY isHeaderHidden];
    rewrite class_toggle_In;
    repeat split; try done; try lia; try (intros; lia); intuition (try lia; try done).
Qed.

(** X18.  The scroll listener of the header.  The header carries the
    class scrolled exactly when the page is scrolled by more than 100
    pixels.  It is hidden only on a desktop device, only beyond those 100
    pixels and only when the page was scrolled down; at the top it is
    always shown, and on other devices it is never hidden, however the
    page is scrolled.  The transform written to it always agrees with
    the flag. *)
Theorem header_hides_only_scrolling_down_on_desktop
    (isDesktop : bool) (y : Z) (ys : list Z) (st : State) :
  let st' := updateHeader isDesktop y st in
  (In (lit "scrolled") (classes st') <-> (100 < y)%Z) /\
  ((y <= 100)%Z -> isHeaderHidden st' = false) /\
  (isHeaderHidden st' = true -> isHeaderHidden st = false ->
   isDesktop = true /\ (100 < y)%Z /\ (lastScrollY st < y)%Z) /\
  (isHeaderHidden st' = false -> isHeaderHidden st = true ->
   (y <= 100)%Z \/ isDesktop = true /\ (y <= lastScrollY st)%Z) /\
  (isHeaderHidden st = false -> isHeaderHidden (scroll_run false ys st) = false) /\
  (in_step st -> in_step (scroll_run isDesktop ys st)).
Proof.
  destruct (updateHeader_step isDesktop y st) as (H1 & _ & H3 & _ & H5 & H6 & _).
  split; [done |]. split; [done |]. split; [done |]. split; [done |]. split.
  - clear H1 H3 H5 H6. revert st.
    induction ys as [| y' ys IH]; intros st' Hh; [done |].
    cbn [scroll_run fold_left]. apply IH.
    by destruct (updateHeader_step false y' st') as (_ & _ & _ & H & _); apply H.
  - clear H1 H3 H5 H6. revert st.
    induction ys as [| y' ys IH]; intros st' Hs; [done |].
    cbn [scroll_run fold_left]. apply IH.
    by destruct (updateHeader_step isDesktop y' st') as (_ & _ & _ & _ & _ & _ & H); apply H.
Qed.

End HeaderProperties.

(** ** The mobile menu *)

Section MenuProperties.
Import Menu.

Lemma openMobileMenu_spec (st : State) :
  listening st = true ->
  exists st',
    openMobileMenu st = Normal st' /\ listening st' = true /\
    is_open st' = true /\ synced st'.
Proof.
  unfold listening, openMobileMenu, element.
  destruct (mobileMenuToggle st) as [t |]; [| done].
  destruct (navLinksContainer st) as [c |]; [| done]. intros _.
  cbn [mbind completion_bind]. eexists. split; [reflexivity |].
  unfold synced, is_open.
  cbn [mobileMenuToggle navLinksContainer bodyOverflow set_attr add_class classes attrs].
  rewrite class_contains_add. split; [done |]. split; [done |].
  eexists _, _. split; [reflexivity |]. split; [reflexivity |].
  cbn [classes attrs set_attr add_class]. rewrite ?class_contains_add, !lookup_insert_eq. done.
Qed.

Lemma closeMobileMenu_spec (st : State) :
  listening st = true ->
  exists st',
    closeMobileMenu st = Normal st' /\ listening st' = true /\
    is_open st' = false /\ synced st'.
Proof.
  unfold listening, closeMobileMenu, element.
  destruct (mobileMenuToggle st) as [t |]; [| done].
  destruct (navLinksContainer st) as [c |]; [| done]. intros _.
  cbn [mbind completion_bind]. eexists. split; [reflexivity |].
  unfold synced, is_open.
  cbn [mobileMenuToggle navLinksContainer bodyOverflow set_attr remove_class classes attrs].
  rewrite class_contains_remove. split; [done |]. split; [done |].
  eexists _, _. split; [reflexivity |]. split; [reflexivity |].
  cbn [classes attrs set_attr remove_class]. rewrite ?class_contains_remove, !lookup_insert_eq. done.
Qed.

Lemma isMobileMenuOpen_spec (st : State) :
  listening st = true -> isMobileMenuOpen st = Normal (is_open st).
Proof.
  unfold listening, isMobileMenuOpen, is_open, element.
  by destruct (mobileMenuToggle st).
Qed.

Lemma close_if_open_spec (cond : bool) (st : State) :
  listening st = true ->
  exists st',
    close_if_open cond st = Normal st' /\ listening st' = true /\
    is_open st' = is_open st && negb cond /\
    (synced st \/ is_open st' <> is_open st -> synced st').
Proof.
  intros Hl. unfold close_if_open. destruct cond.
  - rewrite (isMobileMenuOpen_spec st Hl). cbn [mbind completion_bind].
    destruct (is_open st) eqn:Ho.
    + destruct (closeMobileMenu_spec st Hl) as (st' & -> & Hl' & Ho' & Hs).
      exists st'. by rewrite Ho'.
    + exists st. rewrite Ho. split; [done |]. split; [done |]. split; [done |].
      by intros [H | H].
  - exists st. rewrite andb_true_r. split; [done |]. split; [done |]. split; [done |].
    by intros [H | H].
Qed.

(** X19.  While the toggle and the container of the mobile menu are
    there, no event throws.  A click on the toggle flips the menu; a
    click on a link or outside the menu, the Escape key and a resize to
    768 pixels or more close it; other keys and narrower widths leave it
    as it is.  Whenever an event changes the state of the menu, and
    whenever the class on the container, the aria attributes and the
    scroll lock of the body agreed with the toggle before, they agree
    with it afterwards. *)
Theorem menu_events_keep_menu_in_step (e : event) (st : State) :
  listening st = true ->
  exists st',
    handle e st = Normal st' /\
    listening st' = true /\
    is_open st' = open_after e (is_open st) /\
    (synced st \/ is_open st' <> is_open st -> synced st').
Proof.
  intros Hl. unfold handle, open_after. destruct e as [| hasTarget inContainer | | key | w].
  - rewrite Hl. unfold toggleMobileMenu. rewrite (isMobileMenuOpen_spec st Hl).
    cbn [mbind completion_bind]. destruct (is_open st) eqn:Ho.
    + destruct (closeMobileMenu_spec st Hl) as (st' & -> & Hl' & Ho' & Hs).
      exists st'. cbn [mbind completion_bind close_if_open]. by rewrite Ho'.
    + destruct (openMobileMenu_spec st Hl) as (st' & -> & Hl' & Ho' & Hs).
      exists st'. cbn [mbind completion_bind close_if_open]. by rewrite Ho'.
  - assert (exists st1, (if hasTarget then closeMobileMenu st else Normal st) = Normal st1 /\
                        listening st1 = true) as (st1 & -> & Hl1).
    { destruct hasTarget; [| by exists st].
      destruct (closeMobileMenu_spec st Hl) as (st1 & -> & Hl1 & _). by exists st1. }
    cbn [mbind completion_bind]. rewrite Hl1.
    destruct (closeMobileMenu_spec st1 Hl1) as (st2 & -> & Hl2 & Ho2 & Hs2).
    cbn [mbind completion_bind].
    destruct (close_if_open_spec (negb inContainer) st2 Hl2) as (st3 & -> & Hl3 & Ho3 & Hs3).
    exists st3. rewrite Ho2 in Ho3. cbn [andb] in Ho3.
    split; [done |]. split; [done |]. split; [done |].
    intros _. apply Hs3. by left.
  - rewrite Hl.
    destruct (close_if_open_spec true st Hl) as (st' & -> & Hl' & Ho' & Hs).
    exists st'. cbn [negb] in Ho'. rewrite andb_false_r in Ho'. done.
  - rewrite Hl.
    destruct (close_if_open_spec (streq key (lit "Escape")) st Hl)
      as (st' & -> & Hl' & Ho' & Hs).
    by exists st'.
  - rewrite Hl.
    destruct (close_if_open_spec (mobileBreakpoint <=? w)%Z st Hl)
      as (st' & -> & Hl' & Ho' & Hs).
    exists st'. unfold mobileBreakpoint in Ho'.
    rewrite <- (Z.ltb_antisym 768 w) in Ho'. done.
Qed.

Lemma menu_events_keep_menu_in_step_witness :
  listening closed_menu = true /\
  exists st',
    handle ToggleClick closed_menu = Normal st' /\
    is_open st' = true /\
    synced st'.
Proof.
  split; [reflexivity |].
  destruct (menu_events_keep_menu_in_step ToggleClick closed_menu eq_refl)
    as (st' & H1 & _ & H3 & H4).
  exists st'. split; [exact H1 |]. split; [exact H3 |].
  apply H4. right. rewrite H3. by vm_compute.
Defined.

(** X20.  When the toggle or the container of the mobile menu is missing,
    [setupMobileMenu] attaches nothing, so the events leave the state as
    it is, with one exception: a click on a link whose section exists
    throws a [TypeError], because the listener of [setupSmoothScrolling]
    closes the menu without a guard.  The three methods of the menu
    throw it as well. *)
Theorem menu_without_its_elements (st : State) :
  listening st = false ->
  (forall e,
     handle e st
     = match e with
       | LinkClick true _ => Throw TypeError
       | _ => Normal st
       end) /\
  openMobileMenu st = Throw TypeError /\
  closeMobileMenu st = Throw TypeError /\
  toggleMobileMenu st = Throw TypeError.
Proof.
  unfold listening. intros Hl.
  assert (closeMobileMenu st = Throw TypeError) as Hc.
  { unfold closeMobileMenu, element.
    destruct (mobileMenuToggle st); [| done].
    by destruct (navLinksContainer st). }
  assert (openMobileMenu st = Throw TypeError) as Ho.
  { unfold openMobileMenu, element.
    destruct (mobileMenuToggle st); [| done].
    by destruct (navLinksContainer st). }
  split; [| split; [done | split; [done |]]].
  - intros e. unfold handle, listening.
    destruct e as [| [] inContainer | | key | w]; rewrite ?Hc; cbn [mbind completion_bind];
      try done; by rewrite Hl.
  - unfold toggleMobileMenu, isMobileMenuOpen, element.
    destruct (mobileMenuToggle st) as [t |]; [| done].
    cbn [mbind completion_bind]. rewrite Hc, Ho. by destruct (class_contains _ _).
Qed.

Lemma menu_without_its_elements_witness :
  listening no_menu = false /\
  handle (LinkClick true true) no_menu = Throw TypeError /\
  handle OtherClick no_menu = Normal no_menu.
Proof.
  split; [reflexivity |].
  destruct (menu_without_its_elements no_menu eq_refl) as (H & _).
  split; [apply (H (LinkClick true true)) | apply (H OtherClick)].
Defined.

End MenuProperties.

(** ** The navigation links *)

Section LinksProperties.
Import Navigation.

Lemma lookup_map {A B : Type} (f : A -> B) (l : list A) (i : nat) :
  map f l !! i = f <$> l !! i.
Proof.
  revert i. induction l as [| x l IH]; intros [| i]; cbn; auto.
Qed.

Lemma updateActiveLinks_highlighted (a : option nat) (st : State) :
  a <> currentActiveSection st -> highlighted (updateActiveLinks a st).
Proof.
  intros Hne. unfold updateActiveLinks. rewrite bool_decide_eq_false_2 by done.
  unfold highlighted. cbn [navLinks currentActiveSection sections].
  intros j cl Hj.
  assert (forall cl0, ~ In (lit "active") (class_remove [lit "active"] cl0)) as Hrem.
  { intros cl0 H. apply class_remove_In in H as [_ H]. apply H. by left. }
  destruct a as [i |].
  - destruct (sections st !! i) as [s |] eqn:Hs.
    + destruct (decide (link s = j)) as [<- | Hjs].
      * rewrite list_lookup_alter_eq, lookup_map in Hj.
        destruct (navLinks st !! link s) as [cl0 |]; [| done].
        injection Hj as <-. split; [| intros _; apply class_add_In].
        intros _. by exists i, s.
      * rewrite list_lookup_alter_ne, lookup_map in Hj by done.
        destruct (navLinks st !! j) as [cl0 |]; [| done].
        injection Hj as <-. split; [by intros H; apply Hrem in H |].
        intros (i' & s' & [= <-] & Hs' & Hl). rewrite Hs in Hs'.
        injection Hs' as <-. by destruct Hjs.
    + rewrite lookup_map in Hj.
      destruct (navLinks st !! j) as [cl0 |]; [| done].
      injection Hj as <-. split; [by intros H; apply Hrem in H |].
      intros (i' & s' & [= <-] & Hs' & _). by rewrite Hs in Hs'.
  - rewrite lookup_map in Hj.
    destruct (navLinks st !! j) as [cl0 |]; [| done].
    injection Hj as <-. split; [by intros H; apply Hrem in H |].
    by intros (i' & s' & [=] & _).
Qed.

Lemma updateActiveSection_cases (pageYOffset : Z) (st : State) :
  updateActiveSection pageYOffset st = st \/
  exists a, a <> currentActiveSection st /\
            updateActiveSection pageYOffset st = updateActiveLinks a st.
Proof.
  unfold updateActiveSection. destruct (isScrolling st); [by left |].
  set (a := findActiveSection pageYOffset (sections st)).
  destruct (decide (a = currentActiveSection st)) as [Heq | Hne].
  - left. unfold updateActiveLinks. by rewrite bool_decide_eq_true_2.
  - right. by exists a.
Qed.

(** X21.  A scroll update that leaves the active section as it was
    writes nothing at all.  One that changes it leaves the class active
    on exactly the link of the new active section, on none when there is
    no active section any more, whatever the links carried before; and
    once the links are like that, they stay like that through every
    scroll event and throttle timer.  The other classes of the links are
    never touched. *)
Theorem active_link_follows_active_section (pageYOffset : Z) (st : State) :
  let st' := updateActiveSection pageYOffset st in
  (currentActiveSection st' = currentActiveSection st -> st' = st) /\
  (currentActiveSection st' <> currentActiveSection st -> highlighted st') /\
  (highlighted st ->
   highlighted st' /\ highlighted (onScroll pageYOffset st) /\
   highlighted (onThrottleTimer st)) /\
  (forall j,
     match navLinks st !! j, navLinks st' !! j with
     | Some cl, Some cl' =>
         forall c, c <> lit "active" -> In c cl' <-> In c cl
     | None, None => True
     | _, _ => False
     end).
Proof.
  cbv zeta.
  destruct (updateActiveSection_cases pageYOffset st) as [Heq | (a & Hne & Heq)].
  - assert (highlighted st -> highlighted (onScroll pageYOffset st)) as Hon.
    { unfold onScroll. destruct (inThrottle st); [done |]. by rewrite Heq. }
    rewrite Heq. split; [done |]. split; [done |]. split;
      [intros H; split; [done |]; split; [by apply Hon | exact H] |].
    intros j. by destruct (navLinks st !! j).
  - pose proof (updateActiveLinks_highlighted a st Hne) as Hh.
    assert (currentActiveSection (updateActiveLinks a st) = a) as Hcur
      by apply updateActiveLinks_current.
    rewrite Heq. split; [| split; [| split]].
    + rewrite Hcur. by intros ->.
    + done.
    + intros H. split; [done |]. split; [| exact H].
      unfold onScroll. destruct (inThrottle st); [done |]. rewrite Heq. exact Hh.
    + intros j. unfold updateActiveLinks. rewrite bool_decide_eq_false_2 by done.
      cbn [navLinks].
      assert (forall cl0 c, c <> lit "active" ->
                In c (class_remove [lit "active"] cl0) <-> In c cl0) as Hrem.
      { intros cl0 c Hc. rewrite class_remove_In. split; [by intros [? _] |].
        intros H. split; [done |]. by intros [<- | []]. }
      assert (forall cl0 c, c <> lit "active" ->
                In c (class_add (lit "active") (class_remove [lit "active"] cl0))
                <-> In c cl0) as Hadd.
      { intros cl0 c Hc. rewrite <- (Hrem cl0 c Hc). split.
        - intros H. by apply class_add_In_inv in H as [-> | H].
        - intros H. unfold class_add. destruct (existsb _ _); [done |].
          apply in_app_iff. by left. }
      assert (match navLinks st !! j,
                    map (class_remove [lit "active"]) (navLinks st) !! j with
              | Some cl, Some cl' => forall c, c <> lit "active" -> In c cl' <-> In c cl
              | None, None => True
              | _, _ => False
              end) as Hcleared.
      { rewrite lookup_map. destruct (navLinks st !! j); [exact (Hrem _) | done]. }
      destruct a as [i |]; [| done].
      destruct (sections st !! i) as [s |]; [| done].
      destruct (decide (link s = j)) as [<- | Hjs].
      * rewrite list_lookup_alter_eq, lookup_map.
        destruct (navLinks st !! link s); [exact (Hadd _) | done].
      * by rewrite list_lookup_alter_ne.
Qed.

End LinksProperties.

(** ** The form manager beyond one field *)

Section FormsRest.
Import Forms.

Lemma mark_idem (b : bool) (f : Field) : mark b (mark b f) = mark b f.
Proof.
  destruct b; cbn [mark value defaultValue classes aria_invalid parent].
  - by rewrite class_add_idem.
  - by rewrite class_remove_idem.
Qed.

Lemma subject_field (n : jsstring) (form : Form) (s : list rule * jsstring) :
  subject n form = Some s -> exists f, fields form !! n = Some f.
Proof.
  rewrite subject_unfold. destruct (validationRules form) as [table |]; [| done].
  destruct (table !! n); [| done]. destruct (fields form !! n) as [f |]; [| done].
  by exists f.
Qed.

Lemma validate_from_app (l1 l2 : list jsstring) (start : Form * completion bool) :
  validate_from (l1 ++ l2) start = validate_from l2 (validate_from l1 start).
Proof. unfold validate_from. apply fold_left_app. Qed.

(** What a call of [validateField] that returns does, field by field. *)
Lemma validateField_step (a : jsstring) (form : Form) (r : Validated) :
  validateField a form = Normal r ->
  same_input form (after r) /\
  (forall k, k <> a ->
     errors (after r) !! k = errors form !! k /\
     fields (after r) !! k = fields form !! k) /\
  match subject a form with
  | Some s =>
      verdict s = Normal (errors (after r) !! a) /\
      isValid r = bool_decide (errors (after r) !! a = None) /\
      fields (after r) !! a
      = mark (bool_decide (is_Some (errors (after r) !! a))) <$> fields form !! a /\
      (forall f, fields form !! a = Some f ->
                 messages (after r) !! parent f = errors (after r) !! a) /\
      (forall p, (forall f, fields form !! a = Some f -> parent f <> p) ->
                 messages (after r) !! p = messages form !! p)
  | None => isValid r = true /\ after r = form
  end.
Proof.
  intros Hr. split; [by apply (validateField_same_input a) |].
  pose proof (validateField_effect a form) as He. rewrite Hr in He.
  destruct He as (_ & He). destruct (subject a form) as [s |].
  - destruct He as (m & Hv & Hok & ->).
    destruct (settle_effect a m form) as (_ & Hfr & Herr & Hfl & Hm & Hp).
    rewrite Herr. split; [exact Hfr |]. split; [done |]. split; [done |].
    split; [done |]. split; [exact Hm | exact Hp].
  - destruct He as (Hok & ->). by repeat split.
Qed.

(** The loop of [validateForm] over fields that do not break it. *)
Lemma validate_loop (names : list jsstring) :
  forall (ok : bool) (form : Form),
    (forall n, In n names -> ~ breaks n form) ->
    exists ok' form',
      validate_from names (form, Normal ok) = (form', Normal ok') /\
      same_input form form' /\
      (ok' = true <->
       ok = true /\
       forall n s, In n names -> subject n form = Some s -> verdict s = Normal None) /\
      validated names form form'.
Proof.
  induction names as [| a rest IH]; intros ok form Hnb.
  - exists ok, form. split; [done |]. split; [apply same_input_refl |].
    split; [split; [by intros -> | by intros [-> _]] |].
    split; [by intros n s [] |]. split; [done |].
    split; [| done]. intros before n later s f Heq. by destruct before.
  - rewrite validate_from_cons.
    destruct (validateField a form) as [r | e] eqn:Hr.
    2: { pose proof (validateField_effect a form) as He. rewrite Hr in He.
         destruct He as (_ & He). destruct (Hnb a); [by left | done]. }
    destruct (validateField_step a form r Hr) as (Hsame & Hfr & Ha).
    set (form1 := after r) in *.
    assert (forall n, subject n form1 = subject n form) as Hsub
        by (intros n; by apply same_input_subject).
    destruct (IH (ok && isValid r) form1) as (ok' & form' & Hrun & Hsame' & Hok & Hval).
    { intros n Hn. rewrite (same_input_breaks form form1 n Hsame). apply Hnb. by right. }
    exists ok', form'. split; [done |].
    split; [by apply (same_input_trans form form1) |].
    destruct Hval as (V1 & V2 & V3 & V4).
    split; [| split; [| split; [| split]]].
    + rewrite Hok. split.
      * intros [Hb Hall]. apply andb_true_iff in Hb as [-> Hv]. split; [done |].
        intros n s [<- | Hin] Hs.
        -- rewrite Hs in Ha. destruct Ha as (Hverd & Hb & _). rewrite Hb in Hv.
           apply bool_decide_eq_true in Hv. by rewrite Hverd, Hv.
        -- apply (Hall n s Hin). by rewrite Hsub.
      * intros [-> Hall]. split.
        -- cbn [andb]. destruct (subject a form) as [s |] eqn:Hs.
           ++ destruct Ha as (Hverd & -> & _). apply bool_decide_eq_true.
              specialize (Hall a s (or_introl eq_refl) Hs). congruence.
           ++ by destruct Ha.
        -- intros n s Hin Hs. rewrite Hsub in Hs. apply (Hall n s); [by right | done].
    + intros n s Hin Hs. destruct (subject_field n form s Hs) as (f & Hf).
      destruct (decide (n ∈ rest)) as [Hin' | Hnin].
      * apply list_elem_of_In in Hin'.
        destruct (V1 n s Hin') as (Hverd & f1 & Hf1 & Hf'); [by rewrite Hsub |].
        split; [done |]. exists f. split; [done |]. rewrite Hf'. f_equal.
        destruct (decide (n = a)) as [-> | Hne].
        -- rewrite Hs in Ha. destruct Ha as (Hverd1 & _ & Hfl & _).
           rewrite Hf1, Hf in Hfl. injection Hfl as ->.
           assert (errors form1 !! a = errors form' !! a) as -> by congruence.
           apply mark_idem.
        -- destruct (Hfr n Hne) as (_ & Hfn). congruence.
      * rewrite list_elem_of_In in Hnin.
        destruct (V2 n (or_introl Hnin)) as (-> & ->).
        destruct Hin as [<- | Hin]; [| done].
        rewrite Hs in Ha. destruct Ha as (Hverd1 & _ & Hfl & _).
        split; [done |]. exists f. split; [done |]. by rewrite Hfl, Hf.
    + intros n Hn.
      assert (errors form1 !! n = errors form !! n /\
              fields form1 !! n = fields form !! n) as (<- & <-).
      { destruct (decide (n = a)) as [-> | Hne]; [| by apply Hfr].
        destruct Hn as [Hn | Hn]; [destruct Hn; by left |].
        rewrite Hn in Ha. destruct Ha as (_ & Ha). subst form1. by rewrite Ha. }
      apply V2. destruct Hn as [Hn | Hn].
      * left. intros Hin. apply Hn. by right.
      * right. by rewrite Hsub.
    + intros before n later s f Heq Hs Hf Hlast.
      destruct before as [| b before]; cbn [app] in Heq; injection Heq as <- ->.
      * rewrite Hs in Ha. destruct Ha as (Hverd & _ & _ & Hm & _).
        rewrite V4; [by rewrite (Hm f Hf) |].
        intros k g Hk Hg Hp. rewrite Hsub.
        destruct (same_input_field_inv form form1 k g Hsame Hg) as (g0 & Hg0 & _ & Hpg).
        apply (Hlast k g0 Hk Hg0). congruence.
      * destruct (same_input_field form form1 n f Hsame Hf) as (f1 & Hf1 & _ & Hp1).
        rewrite <- Hp1. apply (V3 before n later s f1); [done | by rewrite Hsub | done |].
        intros k g Hk Hg Hp. rewrite Hsub.
        destruct (same_input_field_inv form form1 k g Hsame Hg) as (g0 & Hg0 & _ & Hpg).
        apply (Hlast k g0 Hk Hg0). congruence.
    + intros p Hp. rewrite V4.
      * destruct (subject a form) as [s |] eqn:Hs.
        -- destruct Ha as (_ & _ & _ & _ & Hm). apply Hm.
           intros f Hf Hpf.
           specialize (Hp a f (or_introl eq_refl) Hf Hpf). congruence.
        -- destruct Ha as (_ & Ha). subst form1. by rewrite Ha.
      * intros n f1 Hn Hf1 Hpf. rewrite Hsub.
        destruct (same_input_field_inv form form1 n f1 Hsame Hf1) as (f0 & Hf0 & _ & Hp0).
        apply (Hp n f0); [by right | done | congruence].
Qed.

(** The loop of [validateForm] up to a field that breaks it. *)
Lemma validate_loop_breaks (before : list jsstring) (n : jsstring)
    (rest : list jsstring) (ok : bool) (form : Form) :
  (forall k, In k before -> ~ breaks k form) ->
  breaks n form ->
  exists form',
    validate_from (before ++ n :: rest) (form, Normal ok) = (form', Throw TypeError) /\
    same_input form form' /\
    validated before form form'.
Proof.
  intros Hnb Hb.
  destruct (validate_loop before ok form Hnb) as (ok' & form' & Hrun & Hsame & _ & Hval).
  exists form'. split; [| done].
  rewrite validate_from_app, Hrun, validate_from_cons.
  rewrite (validateField_throws n form'); [done |].
  by apply (same_input_breaks form form' n).
Qed.

(** The fields of a list break no call, or there is a first that does. *)
Lemma first_break (form : Form) (names : list jsstring) :
  (forall n, In n names -> ~ breaks n form) \/
  exists before n rest,
    names = before ++ n :: rest /\
    (forall k, In k before -> ~ breaks k form) /\
    breaks n form.
Proof.
  induction names as [| a names IH]; [left; by intros n [] |].
  destruct (breaks_dec a form) as [Ha | Ha]; [right; by exists [], a, names |].
  destruct IH as [IH | (before & n & rest & -> & Hb & Hn)].
  - left. intros n [<- | Hin]; [done | by apply IH].
  - right. exists (a :: before), n, rest. split; [done |]. split; [| done].
    intros k [<- | Hk]; [done | by apply Hb].
Qed.


(** Either the rules accept every field, or some field has a message. *)
Lemma verdicts_cases (form : Form) (names : list jsstring) :
  (forall n, In n names -> ~ breaks n form) ->
  (forall n s, In n names -> subject n form = Some s -> verdict s = Normal None) \/
  (exists n s msg, In n names /\ subject n form = Some s /\ verdict s = Normal (Some msg)).
Proof.
  intros Hnb.
  induction names as [| a rest IH]; [left; by intros n s [] |].
  destruct IH as [IH | (n & s & msg & Hin & Hs & Hv)].
  - intros n Hn. apply Hnb. by right.
  - destruct (subject a form) as [s |] eqn:Hs.
    + destruct (verdict s) as [[msg |] | e] eqn:Hv.
      * right. exists a, s, msg. split; [by left | done].
      * left. intros n s' [<- | Hin] Hs'; [congruence | by apply (IH n)].
      * destruct (Hnb a (or_introl eq_refl)). right. by exists s, e.
    + left. intros n s' [<- | Hin] Hs'; [congruence | by apply (IH n)].
  - right. exists n, s, msg. split; [by right | done].
Qed.

(** The loop of [getFormData] from any point on. *)
Lemma getFormData_loop (form : Form) (names : list jsstring) :
  forall (data : gmap (list N) (list N)) (n v : jsstring),
    fold_left
      (fun data fieldName =>
         match fields form !! fieldName with
         | Some f =>
             if streq fieldName (lit "__proto__") then data
             else <[fieldName := trim (value f)]> data
         | None => data
         end)
      names data !! n = Some v <->
    (n <> lit "__proto__" /\ In n names /\
     exists f, fields form !! n = Some f /\ v = trim (value f)) \/
    (~ (n <> lit "__proto__" /\ In n names /\ is_Some (fields form !! n)) /\
     data !! n = Some v).
Proof.
  induction names as [| a rest IH]; intros data n v.
  - cbn. split; [intros H; right; split; [by intros (_ & [] & _) | done] |].
    intros [(_ & [] & _) | (_ & H)]. done.
  - cbn [fold_left]. rewrite IH. clear IH.
    destruct (fields form !! a) as [fa |] eqn:Hfa.
    + destruct (streq a (lit "__proto__")) eqn:Hp.
      * apply streq_true in Hp as ->. split.
        -- intros [(H1 & H2 & H3) | (H1 & H2)]; [left; split; [done |]; split; [by right | done] |].
           right. split; [| done]. intros (Hn & [<- | Hin] & Hf); [done |]. by apply H1.
        -- intros [(H1 & [<- | H2] & H3) | (H1 & H2)]; [done | by left |].
           right. split; [| done]. intros (Hn & Hin & Hf). apply H1.
           split; [done |]. split; [by right | done].
      * apply streq_false in Hp. split.
        -- intros [(H1 & H2 & H3) | (H1 & H2)]; [left; split; [done |]; split; [by right | done] |].
           destruct (decide (n = a)) as [-> | Hne].
           ++ rewrite lookup_insert_eq in H2. injection H2 as <-.
              left. split; [done |]. split; [by left |]. by exists fa.
           ++ rewrite lookup_insert_ne in H2 by done.
              right. split; [| done]. intros (Hn & [<- | Hin] & Hf); [done |]. by apply H1.
        -- intros [(H1 & [<- | H2] & (f & Hf & ->)) | (H1 & H2)].
           ++ destruct (decide (a ∈ rest)) as [Hin | Hnin].
              ** apply list_elem_of_In in Hin. left. split; [done |]. split; [done |]. by exists f.
              ** rewrite list_elem_of_In in Hnin. right. split; [by intros (_ & ? & _) |].
                 rewrite lookup_insert_eq. congruence.
           ++ left. split; [done |]. split; [done |]. by exists f.
           ++ right. split.
              ** intros (Hn & Hin & Hf). apply H1. split; [done |]. split; [by right | done].
              ** rewrite lookup_insert_ne; [done |]. intros <-. apply H1.
                 split; [done |]. split; [by left | by rewrite Hfa].
    + split.
      * intros [(H1 & H2 & H3) | (H1 & H2)]; [left; split; [done |]; split; [by right | done] |].
        right. split; [| done]. intros (Hn & [<- | Hin] & Hf).
        -- rewrite Hfa in Hf. by destruct Hf.
        -- by apply H1.
      * intros [(H1 & [<- | H2] & (f & Hf & ->)) | (H1 & H2)]; [congruence | |].
        -- left. split; [done |]. split; [done |]. by exists f.
        -- right. split; [| done]. intros (Hn & Hin & Hf). apply H1.
           split; [done |]. split; [by right | done].
Qed.

(** X23.  [handleFormSubmit] validates the form first.  Its promise is
    rejected, with a [TypeError], exactly when [validateField] throws at
    one of the fields.  It calls the submit handler exactly when there
    is one, no field makes [validateField] throw and the rules accept
    every field; a failed validation hands nothing over and leaves the
    form with errors.  The data handed over has, for every registered
    field, its value as typed with the white space around it trimmed
    off, and nothing else; a field called [__proto__] is not in it. *)
Theorem submit_hands_over_only_valid_data (hasOnSubmit : bool) (form : Form) :
  let sub := handleFormSubmit hasOnSubmit form in
  form_after sub = fst (validateForm form) /\
  (rejected sub = Some TypeError <->
   exists n, In n (field_order form) /\ breaks n form) /\
  (rejected sub = None <-> forall n, In n (field_order form) -> ~ breaks n form) /\
  (is_Some (submitted sub) <->
   hasOnSubmit = true /\
   (forall n, In n (field_order form) -> ~ breaks n form) /\
   forall n s, In n (field_order form) -> subject n form = Some s ->
               verdict s = Normal None) /\
  (forall data n v,
     submitted sub = Some data ->
     (data !! n = Some v <->
      n <> lit "__proto__" /\ In n (field_order form) /\
      exists f, fields form !! n = Some f /\ v = trim (value f))) /\
  (snd (validateForm form) = Normal false ->
   submitted sub = None /\ rejected sub = None /\ hasErrors (form_after sub) = true).
Proof.
  cbv zeta. unfold handleFormSubmit. rewrite validateForm_unfold.
  destruct (first_break form (field_order form))
    as [Hnb | (before & k & rest & Horder & Hnb & Hk)].
  - destruct (validate_loop (field_order form) true form Hnb)
      as (ok' & form' & -> & Hsame & Hok & (V1 & _)).
    cbn [fst snd].
    assert (ok' = true <->
            forall n s, In n (field_order form) -> subject n form = Some s ->
                        verdict s = Normal None) as Hok'.
    { rewrite Hok. split; [by intros [_ H] | by intros H]. }
    assert (~ exists n, In n (field_order form) /\ breaks n form) as Hno.
    { intros (n & Hin & Hb). by apply (Hnb n). }
    destruct ok'; cbn [negb form_after submitted rejected].
    + split; [done |]. split; [split; [done | intros H; by destruct Hno] |].
      split; [by split; [intros _; exact Hnb |] |].
      split; [| split; [| done]].
      * destruct hasOnSubmit.
        -- split; [intros _; split; [done |]; split; [done | by apply Hok'] |].
           by intros _; eexists.
        -- split; [by intros [? ?] | by intros [? _]].
      * intros data n v Hd. destruct hasOnSubmit; [| done]. injection Hd as <-.
        unfold getFormData. destruct Hsame as (_ & -> & Hlay).
        rewrite (getFormData_loop form' (field_order form) ∅ n v).
        rewrite lookup_empty.
        assert (forall k, (exists f, fields form' !! k = Some f /\ v = trim (value f)) <->
                          (exists f, fields form !! k = Some f /\ v = trim (value f))) as Hex.
        { intros k. specialize (Hlay k).
          destruct (fields form' !! k) as [f' |], (fields form !! k) as [f |];
            cbn in Hlay; try done.
          injection Hlay as Hv _.
          split; intros (f0 & [= <-] & ->); eexists; (split; [reflexivity | congruence]). }
        rewrite Hex. split; [by intros [H | [_ [=]]] | by left].
    + split; [done |]. split; [split; [done | intros H; by destruct Hno] |].
      split; [by split; [intros _; exact Hnb |] |].
      split; [| split; [done |]].
      * split; [by intros [? [=]] |]. intros (_ & _ & H). by apply Hok' in H.
      * intros _. split; [done |]. split; [done |].
        destruct (verdicts_cases form (field_order form) Hnb)
          as [Hall | (n & s & msg & Hin & Hs & Hv)].
        -- by apply Hok' in Hall.
        -- destruct (V1 n s Hin Hs) as (He & _). rewrite Hv in He. injection He as He.
           unfold hasErrors. apply Nat.ltb_lt.
           assert (size (errors form') <> 0%nat); [| lia].
           apply map_size_non_empty_iff. intros Hempty.
           by rewrite Hempty, lookup_empty in He.
  - rewrite Horder.
    destruct (validate_loop_breaks before k rest true form Hnb Hk) as (form' & -> & _).
    cbn [fst snd form_after submitted rejected].
    assert (In k (field_order form)) as Hin.
    { rewrite Horder. apply in_or_app. right. by left. }
    rewrite <- Horder.
    split; [done |]. split; [split; [intros _; by exists k | done] |].
    split; [split; [done | intros H; by destruct (H k Hin)] |].
    split; [split; [by intros [? [=]] | intros (_ & H & _); by destruct (H k Hin)] |].
    split; done.
Qed.

(** A control named [constructor] stops the validation, whatever the
    other fields hold, and the submit handler is not called. *)
Example constructor_control_breaks_validation :
  breaks (lit "constructor") (with_constructor (lit "a@b.co")) /\
  snd (validateForm (with_constructor (lit "a@b.co"))) = Throw TypeError /\
  snd (validateForm (with_constructor [])) = Throw TypeError /\
  errors (fst (validateForm (with_constructor []))) !! lit "email"
  = Some (lit "This field is required") /\
  submitted (handleFormSubmit true (with_constructor (lit "a@b.co"))) = None /\
  rejected (handleFormSubmit true (with_constructor (lit "a@b.co"))) = Some TypeError.
Proof.
  split; [| repeat split; by vm_compute].
  left. exists {[ lit "email" := [RName (lit "required")] ]}.
  split; [done |]. split; [eexists; by vm_compute |]. split; by vm_compute.
Qed.

Lemma clear_loop_same (names : list jsstring) :
  forall form : Form,
    same_input form (fold_left (fun fm fieldName => clearFieldError fieldName fm) names form).
Proof.
  induction names as [| a rest IH]; intros form; [apply same_input_refl |].
  cbn [fold_left]. apply (same_input_trans form (clearFieldError a form)); [| apply IH].
  apply (settle_effect a None form).
Qed.















End FormsRest.

(** ** The validators *)

Section RegexProperties.
Import Regex.

Lemma matches_cat_inv (a b : re) (s : jsstring) :
  matches (Cat a b) s ->
  exists s1 s2, s = s1 ++ s2 /\ matches a s1 /\ matches b s2.
Proof. inversion 1; subst. by eexists _, _. Qed.

Lemma matches_class_inv (p : N -> bool) (s : jsstring) :
  matches (Class p) s -> exists c, s = [c] /\ p c = true.
Proof. inversion 1; subst. by eexists. Qed.

Lemma matches_alt_inv (a b : re) (s : jsstring) :
  matches (Alt a b) s -> matches a s \/ matches b s.
Proof. inversion 1; subst; [by left | by right]. Qed.

Lemma matches_eps_inv (s : jsstring) : matches Eps s -> s = [].
Proof. by inversion 1. Qed.

Lemma nullable_matches (r : re) : nullable r = true <-> matches r [].
Proof.
  split.
  - induction r as [| | p | a IHa b IHb | a IHa b IHb | a IHa]; cbn [nullable];
      intros H; try discriminate.
    + constructor.
    + apply andb_true_iff in H as [Ha Hb].
      change (@nil N) with (@nil N ++ []). constructor; auto.
    + apply orb_true_iff in H as [H | H];
        [apply matches_alt_l | apply matches_alt_r]; auto.
    + constructor.
  - remember [] as s eqn:Hs. intros H.
    induction H as [| p c Hp | a b s t _ IHa _ IHb | a b s _ IH | a b s _ IH
                    | a | a s t _ _ _ _]; cbn [nullable]; try done.
    + apply app_eq_nil in Hs as [-> ->]. by rewrite IHa, IHb.
    + by rewrite IH.
    + rewrite IH by done. apply orb_true_r.
Qed.

Lemma deriv_matches (c : N) (r : re) (s : jsstring) :
  matches (deriv c r) s <-> matches r (c :: s).
Proof.
  split.
  - revert s.
    induction r as [| | p | a IHa b IHb | a IHa b IHb | a IHa]; intros s;
      cbn [deriv]; intros H.
    + inversion H.
    + inversion H.
    + destruct (p c) eqn:Hp; [| inversion H].
      apply matches_eps_inv in H as ->. by constructor.
    + destruct (nullable a) eqn:Hn.
      * apply matches_alt_inv in H as [H | H].
        -- apply matches_cat_inv in H as (s1 & s2 & -> & H1 & H2).
           change (c :: s1 ++ s2) with ((c :: s1) ++ s2). constructor; auto.
        -- change (c :: s) with ([] ++ c :: s). constructor; [| auto].
           by apply nullable_matches.
      * apply matches_cat_inv in H as (s1 & s2 & -> & H1 & H2).
        change (c :: s1 ++ s2) with ((c :: s1) ++ s2). constructor; auto.
    + apply matches_alt_inv in H as [H | H];
        [apply matches_alt_l | apply matches_alt_r]; auto.
    + apply matches_cat_inv in H as (s1 & s2 & -> & H1 & H2).
      change (c :: s1 ++ s2) with ((c :: s1) ++ s2). constructor; auto.
  - remember (c :: s) as w eqn:Hw. intros H. revert s Hw.
    induction H as [| p c0 Hp | a b s1 t Ha IHa Hb IHb | a b s1 _ IH | a b s1 _ IH
                    | a | a s1 t Ha IHa Hb IHb]; intros s Hw; cbn [deriv].
    + discriminate.
    + injection Hw as -> <-. rewrite Hp. constructor.
    + destruct s1 as [| x s1].
      * cbn in Hw. subst t.
        rewrite (proj2 (nullable_matches a) Ha).
        apply matches_alt_r. by apply IHb.
      * injection Hw as -> <-.
        destruct (nullable a); [apply matches_alt_l |]; constructor; auto.
    + apply matches_alt_l. auto.
    + apply matches_alt_r. auto.
    + discriminate.
    + destruct s1 as [| x s1].
      * cbn in Hw. subst t. by apply IHb.
      * injection Hw as -> <-. constructor; auto.
Qed.

(** The matcher decides the language of the pattern. *)
Lemma test_matches (r : re) (s : jsstring) : test r s = true <-> matches r s.
Proof.
  unfold test. revert r. induction s as [| c s IH]; intros r.
  - apply nullable_matches.
  - cbn [fold_left]. rewrite IH. apply deriv_matches.
Qed.

Lemma matches_star_class (p : N -> bool) (s : jsstring) :
  matches (Star (Class p)) s <-> Forall (fun c => p c = true) s.
Proof.
  split.
  - remember (Star (Class p)) as r eqn:Hr. intros H.
    induction H as [| | | | | a | a s t Ha _ Hb IHb]; try discriminate.
    + constructor.
    + injection Hr as ->. apply matches_class_inv in Ha as (c & -> & Hc).
      constructor; auto.
  - induction 1 as [| c s Hc _ IH]; [constructor |].
    change (c :: s) with ([c] ++ s). constructor; [by constructor | done].
Qed.

Lemma matches_plus_class (p : N -> bool) (s : jsstring) :
  matches (Plus (Class p)) s <-> s <> [] /\ Forall (fun c => p c = true) s.
Proof.
  unfold Plus. split.
  - intros H. apply matches_cat_inv in H as (s1 & s2 & -> & H1 & H2).
    apply matches_class_inv in H1 as (c & -> & Hc).
    apply matches_star_class in H2. split; [done |]. by constructor.
  - intros [Hne H]. destruct H as [| c s Hc H]; [done |].
    change (c :: s) with ([c] ++ s). constructor; [by constructor |].
    by apply matches_star_class.
Qed.

Lemma matches_upto_class (p : N -> bool) (n : nat) (s : jsstring) :
  matches (UpTo n (Class p)) s <->
  (length s <= n)%nat /\ Forall (fun c => p c = true) s.
Proof.
  revert s. induction n as [| n IH]; intros s; cbn [UpTo]; unfold Opt.
  - split.
    + intros H. apply matches_eps_inv in H as ->. split; [done | constructor].
    + intros [Hl _]. destruct s; [constructor | cbn in Hl; lia].
  - split.
    + intros H. apply matches_alt_inv in H as [H | H].
      * apply matches_eps_inv in H as ->. split; [cbn; lia | constructor].
      * apply matches_cat_inv in H as (s1 & s2 & -> & H1 & H2).
        apply matches_class_inv in H1 as (c & -> & Hc).
        apply IH in H2 as [Hl Hf]. split; [cbn; lia | by constructor].
    + intros [Hl Hf]. destruct Hf as [| c s Hc Hf]; [apply matches_alt_l; constructor |].
      apply matches_alt_r. change (c :: s) with ([c] ++ s).
      constructor; [by constructor |]. apply IH. split; [cbn in Hl; lia | done].
Qed.

End RegexProperties.

Section ValidationProperties.
Import Regex Validation.

Lemma not_space_at_plain (c : N) : not_space_at c = true <-> plain c.
Proof.
  unfold not_space_at, plain. rewrite negb_true_iff, orb_false_iff, N.eqb_neq. tauto.
Qed.

Lemma Forall_plain (s : jsstring) :
  Forall (fun c => not_space_at c = true) s <-> Forall plain s.
Proof. apply Forall_iff. intros c. apply not_space_at_plain. Qed.

(** X26.  [isEmail] accepts exactly the strings that consist of a
    non-empty part, an at sign, a second non-empty part, a dot and a
    third non-empty part, where no part holds white space or an at sign.
    The parts after the at sign may hold further dots. *)
Theorem isEmail_characterised (email : jsstring) :
  isEmail email = true <->
  exists user domain rest,
    email = user ++ 64 :: domain ++ 46 :: rest /\
    user <> [] /\ domain <> [] /\ rest <> [] /\
    Forall plain user /\ Forall plain domain /\ Forall plain rest.
Proof.
  unfold isEmail, email_re. rewrite test_matches. split.
  - intros H.
    apply matches_cat_inv in H as (user & s1 & -> & Hu & H).
    apply matches_cat_inv in H as (at_ & s2 & -> & Ha & H).
    apply matches_cat_inv in H as (domain & s3 & -> & Hd & H).
    apply matches_cat_inv in H as (dot & rest & -> & Hdot & Hr).
    apply matches_class_inv in Ha as (a & -> & Ha). apply N.eqb_eq in Ha as <-.
    apply matches_class_inv in Hdot as (d & -> & Hdot). apply N.eqb_eq in Hdot as <-.
    apply matches_plus_class in Hu as [Hu1 Hu2].
    apply matches_plus_class in Hd as [Hd1 Hd2].
    apply matches_plus_class in Hr as [Hr1 Hr2].
    exists user, domain, rest. rewrite <- !Forall_plain. by repeat split.
  - intros (user & domain & rest & -> & Hu & Hd & Hr & Fu & Fd & Fr).
    rewrite <- Forall_plain in Fu, Fd, Fr.
    constructor; [by apply matches_plus_class |].
    change (64 :: domain ++ 46 :: rest) with ([64] ++ (domain ++ ([46] ++ rest))).
    constructor; [by constructor |].
    constructor; [by apply matches_plus_class |].
    constructor; [by constructor |]. by apply matches_plus_class.
Qed.

(** X27.  [isPhone] looks only at what is left of the number when white
    space, hyphens and parentheses are taken out, and accepts exactly: an
    optional plus sign, a digit from 1 to 9, and at most fifteen further
    digits. *)
Theorem isPhone_characterised (phone : jsstring) :
  isPhone phone = true <->
  exists plus first rest,
    List.filter (fun c => negb (phone_noise c)) phone = plus ++ first :: rest /\
    (plus = [] \/ plus = [43]) /\
    (49 <= first <= 57) /\
    Forall (fun c => 48 <= c <= 57) rest /\
    (length rest <= 15)%nat.
Proof.
  unfold isPhone, phone_re. rewrite test_matches.
  set (digits := List.filter (fun c => negb (phone_noise c)) phone).
  assert (forall lo hi c, (lo <=? c) && (c <=? hi) = true <-> lo <= c <= hi) as Hrange.
  { intros lo hi c. rewrite andb_true_iff, !N.leb_le. done. }
  split.
  - intros H.
    apply matches_cat_inv in H as (plus & s1 & -> & Hp & H).
    apply matches_cat_inv in H as (first & rest & -> & Hf & Hr).
    apply matches_class_inv in Hf as (f & -> & Hf). apply Hrange in Hf.
    apply matches_upto_class in Hr as [Hl Hr].
    exists plus, f, rest. split; [done |]. split; [| split; [done | split; [| done]]].
    + apply matches_alt_inv in Hp as [Hp | Hp].
      * left. by apply matches_eps_inv.
      * right. apply matches_class_inv in Hp as (c & -> & Hc).
        by apply N.eqb_eq in Hc as <-.
    + eapply Forall_impl; [exact Hr |]. intros c Hc. by apply Hrange.
  - intros (plus & first & rest & -> & Hp & Hf & Hr & Hl).
    constructor.
    + destruct Hp as [-> | ->]; [apply matches_alt_l; constructor |].
      apply matches_alt_r. by constructor.
    + change (first :: rest) with ([first] ++ rest).
      constructor; [constructor; by apply Hrange |].
      apply matches_upto_class. split; [done |].
      eapply Forall_impl; [exact Hr |]. intros c Hc. by apply Hrange.
Qed.

Lemma trim_start_cases (s : jsstring) :
  (trim_start s = [] /\ Forall (fun c => is_space c = true) s) \/
  (exists c r, trim_start s = c :: r /\ is_space c = false /\
               Exists (fun c => is_space c = false) s).
Proof.
  induction s as [| c s IH]; [left; by split |].
  cbn [trim_start]. destruct (is_space c) eqn:Hc.
  - destruct IH as [[-> Hf] | (c' & r & -> & Hc' & He)].
    + left. split; [done | by constructor].
    + right. exists c', r. split; [done |]. split; [done |]. by apply Exists_cons_tl.
  - right. exists c, s. split; [done |]. split; [done |]. by apply Exists_cons_hd.
Qed.

Lemma trim_nil (s : jsstring) :
  (trim s = [] <-> Forall (fun c => is_space c = true) s) /\
  (trim s <> [] <-> Exists (fun c => is_space c = false) s).
Proof.
  assert (forall (X : jsstring), rev X = [] <-> X = []) as Hrev.
  { intros X. split; [| by intros ->]. intros H.
    rewrite <- (rev_involutive X), H. done. }
  assert (forall (X : jsstring),
            Forall (fun c => is_space c = true) X ->
            Exists (fun c => is_space c = false) X -> False) as Hno.
  { intros X Hf He. apply Exists_exists in He as (c & Hin & Hc).
    rewrite Forall_forall in Hf. specialize (Hf c Hin). congruence. }
  unfold trim. rewrite Hrev.
  destruct (trim_start_cases s) as [[Hs Hf] | (c & r & Hs & Hc & He)].
  - rewrite Hs. cbn. split; split; try done. intros H. by destruct (Hno s).
  - destruct (trim_start_cases (rev (trim_start s)))
      as [[Ht Hf] | (c' & r' & Ht & Hc' & He')].
    + exfalso. rewrite Hs in Hf. apply Forall_rev in Hf. rewrite rev_involutive in Hf.
      inversion Hf; subst. congruence.
    + rewrite Ht. split; split; try done. intros Hf. by destruct (Hno s).
Qed.

(** X28.  [isNotEmpty] accepts exactly the strings that hold a character
    other than white space.  So the rule required turns down a value of
    white space only, with its own message, and no rule after it is
    asked. *)
Theorem required_means_a_visible_character (str : jsstring) (rest : list Forms.rule) :
  (isNotEmpty str = true <-> Exists (fun c => is_space c = false) str) /\
  (Forall (fun c => is_space c = true) str ->
   Forms.check_rules (trim str) (Forms.RName (lit "required") :: rest)
   = Normal (Some (lit "This field is required"), [Forms.RName (lit "required")])).
Proof.
  destruct (trim_nil str) as (Hnil & Hne). split.
  - unfold isNotEmpty. rewrite <- Hne, Nat.ltb_lt.
    destruct (trim str); cbn; [split; [lia | done] | split; [done | lia]].
  - intros Hf. apply Hnil in Hf. rewrite Hf. reflexivity.
Qed.

End ValidationProperties.

(** ** The rules of the contact form *)

Section ContactFormRules.
Import Forms.

Lemma defaultRules_minLength :
  defaultRules (lit "minLength")
  = Own {| validate :=
             fun value ps => Validation.minLength value (int_val <$> param0 ps);
           message := lit "Field is too short" |}.
Proof. reflexivity. Qed.

Lemma isNotEmpty_visible (v : jsstring) :
  Validation.isNotEmpty v = true <-> visible v.
Proof.
  destruct (trim_nil v) as (_ & Hne). unfold Validation.isNotEmpty, visible.
  rewrite <- Hne, Nat.ltb_lt.
  destruct (trim v); cbn; [split; [lia | done] | split; [done | lia]].
Qed.

Lemma isEmail_visible (v : jsstring) :
  Validation.isEmail v = true -> visible v.
Proof.
  unfold Validation.isEmail, Validation.email_re. rewrite test_matches. intros H.
  apply matches_cat_inv in H as (user & s1 & -> & Hu & _).
  apply matches_plus_class in Hu as [Hne Hf].
  destruct Hf as [| c user Hc _]; [done |].
  apply Exists_cons_hd. apply not_space_at_plain in Hc. by destruct Hc.
Qed.

Lemma verdict_required (v : jsstring) :
  verdict ([RName (lit "required")], v) = Normal None <-> visible v.
Proof.
  unfold verdict. cbn [fst snd check_rules ruleName ruleParams].
  rewrite defaultRules_required. cbn [validate].
  rewrite <- isNotEmpty_visible. by destruct (Validation.isNotEmpty v).
Qed.

Lemma verdict_required_minLength (v : jsstring) (k : jsint) :
  verdict ([RName (lit "required"); RObject (lit "minLength") (PValue k)], v)
  = Normal None <->
  visible v /\ (int_val k <= Z.of_nat (length v))%Z.
Proof.
  unfold verdict. cbn [fst snd check_rules ruleName ruleParams].
  rewrite defaultRules_required, defaultRules_minLength. cbn [validate param0].
  rewrite <- isNotEmpty_visible. unfold Validation.minLength.
  cbn [fmap option_fmap option_map].
  destruct (Validation.isNotEmpty v); cbn [negb];
    [| by split; [| intros []]].
  destruct (int_val k <=? Z.of_nat (length v))%Z eqn:Hk; cbn [negb].
  - apply Z.leb_le in Hk. by split.
  - apply Z.leb_gt in Hk. split; [done |]. intros [_ H]. lia.
Qed.

Lemma verdict_required_email (v : jsstring) :
  verdict ([RName (lit "required"); RName (lit "email")], v) = Normal None <->
  Validation.isEmail v = true.
Proof.
  unfold verdict. cbn [fst snd check_rules ruleName ruleParams].
  rewrite defaultRules_required, defaultRules_email. cbn [validate].
  destruct (Validation.isNotEmpty v) eqn:Hv; cbn [negb].
  - by destruct (Validation.isEmail v).
  - split; [done |]. intros He.
    apply not_true_iff_false in Hv. destruct Hv.
    by apply isNotEmpty_visible, isEmail_visible.
Qed.

(** Rules whose names are not inherited ones give a verdict. *)
Lemma verdict_sound (rules : list rule) (v : jsstring) :
  Forall sound_name rules -> exists m, verdict (rules, v) = Normal m.
Proof.
  intros Hs. unfold verdict. cbn [fst snd].
  destruct (check_rules v rules) as [[m calls] | e] eqn:Hc; [by exists m |].
  destruct (rules_cases v rules)
    as [Hall | (before & r & rest & -> & Hb & [[msg Hfail] | Hproto])].
  - by rewrite (check_rules_passes v rules Hall) in Hc.
  - by rewrite (check_rules_fails v before r rest msg Hb Hfail) in Hc.
  - apply Forall_app in Hs as [_ Hs]. apply Forall_cons in Hs as [Hr _].
    apply defaultRules_inherited in Hproto. unfold sound_name in Hr. congruence.
Qed.

(** The table of rules of the contact form, entry by entry. *)
Lemma contact_rules_lookup (n : jsstring) (rules : list rule) :
  contact_rules !! n = Some rules <->
  (n = lit "name" /\
   rules = [RName (lit "required"); RObject (lit "minLength") (PValue two)]) \/
  (n = lit "email" /\ rules = [RName (lit "required"); RName (lit "email")]) \/
  (n = lit "subject" /\ rules = [RName (lit "required")]) \/
  (n = lit "message" /\
   rules = [RName (lit "required"); RObject (lit "minLength") (PValue ten)]).
Proof.
  unfold contact_rules. rewrite !lookup_insert_Some, lookup_empty. split.
  - intros [(<- & <-) | (_ & [(<- & <-) | (_ & [(<- & <-) | (_ & [(<- & <-) | (_ & [=])])])])].
    + by left.
    + right. by left.
    + right. right. by left.
    + right. right. by right.
  - intros [(-> & ->) | [(-> & ->) | [(-> & ->) | (-> & ->)]]].
    + by left.
    + right. split; [by vm_compute |]. by left.
    + right. split; [by vm_compute |]. right. split; [by vm_compute |]. by left.
    + right. split; [by vm_compute |]. right. split; [by vm_compute |].
      right. split; [by vm_compute |]. by left.
Qed.

(** X29.  The contact form as [setupContactForm] registers it passes
    [validateForm] exactly when, with the white space around the values
    trimmed off, the name holds a character other than white space and
    at least 2 code units, the email address is one [isEmail] accepts,
    the subject holds a character other than white space, and the
    message holds one and at least 10 code units, and none of the
    controls of the form has a name that the table of rules inherits
    from [Object.prototype].  The last is so when the form has no other
    controls than these four. *)
Theorem contact_form_accepts
    (form : Form) (nameField emailField subjectField messageField : Field) :
  validationRules form = Some contact_rules ->
  fields form !! lit "name" = Some nameField ->
  fields form !! lit "email" = Some emailField ->
  fields form !! lit "subject" = Some subjectField ->
  fields form !! lit "message" = Some messageField ->
  (forall n,
     In n [lit "name"; lit "email"; lit "subject"; lit "message"] ->
     In n (field_order form)) ->
  let accepted :=
    (visible (trim (value nameField)) /\ (2 <= length (trim (value nameField)))%nat) /\
    Validation.isEmail (trim (value emailField)) = true /\
    visible (trim (value subjectField)) /\
    (visible (trim (value messageField)) /\
     (10 <= length (trim (value messageField)))%nat) in
  (snd (validateForm form) = Normal true <->
   accepted /\
   forall n, In n (field_order form) -> is_Some (fields form !! n) ->
             inherited n = false) /\
  ((forall n, In n (field_order form) ->
              In n [lit "name"; lit "email"; lit "subject"; lit "message"]) ->
   (snd (validateForm form) = Normal true <-> accepted)).
Proof.
  intros Ht Hn He Hs Hm Hin accepted.
  assert (snd (validateForm form) = Normal true <->
          accepted /\
          forall n, In n (field_order form) -> is_Some (fields form !! n) ->
                    inherited n = false) as Hmain; cycle 1.
  { split; [exact Hmain |]. intros Honly. rewrite Hmain. split; [by intros [? _] |].
    intros Hacc. split; [done |]. intros n Hn' _.
    destruct (Honly n Hn') as [<- | [<- | [<- | [<- | []]]]]; by vm_compute. }
  subst accepted.
  assert (forall n s,
            subject n form = Some s <->
            (n = lit "name" /\
             s = ([RName (lit "required"); RObject (lit "minLength") (PValue two)],
                  trim (value nameField))) \/
            (n = lit "email" /\
             s = ([RName (lit "required"); RName (lit "email")], trim (value emailField))) \/
            (n = lit "subject" /\
             s = ([RName (lit "required")], trim (value subjectField))) \/
            (n = lit "message" /\
             s = ([RName (lit "required"); RObject (lit "minLength") (PValue ten)],
                  trim (value messageField)))) as Hsub.
  { intros n s. rewrite subject_unfold, Ht.
    destruct (contact_rules !! n) as [rules |] eqn:Hr.
    - apply contact_rules_lookup in Hr
        as [(-> & ->) | [(-> & ->) | [(-> & ->) | (-> & ->)]]].
      + rewrite Hn. split; [intros [= <-]; by left |].
        intros [(_ & ->) | [(E & _) | [(E & _) | (E & _)]]]; [done | | |]; by vm_compute in E.
      + rewrite He. split; [intros [= <-]; right; by left |].
        intros [(E & _) | [(_ & ->) | [(E & _) | (E & _)]]]; [| done | |]; by vm_compute in E.
      + rewrite Hs. split; [intros [= <-]; right; right; by left |].
        intros [(E & _) | [(E & _) | [(_ & ->) | (E & _)]]]; [| | done |]; by vm_compute in E.
      + rewrite Hm. split; [intros [= <-]; right; right; by right |].
        intros [(E & _) | [(E & _) | [(E & _) | (_ & ->)]]]; [| | | done]; by vm_compute in E.
    - split; [done |].
      intros [(-> & _) | [(-> & _) | [(-> & _) | (-> & _)]]]; by vm_compute in Hr. }
  assert (forall n, breaks n form <->
                    is_Some (fields form !! n) /\ inherited n = true) as Hbr.
  { intros n. split.
    - intros [(tb & Htb & Hf & _ & Hi) | (s & e & Hs' & Hv)]; [done |].
      destruct (verdict_sound (fst s) (snd s)) as (m & Hm').
      + apply Hsub in Hs' as [(_ & ->) | [(_ & ->) | [(_ & ->) | (_ & ->)]]];
          cbn [fst]; repeat constructor.
      + destruct s. cbn [fst snd] in Hm'. congruence.
    - intros [Hf Hi]. left. exists contact_rules. split; [done |]. split; [done |].
      split; [| done].
      destruct (contact_rules !! n) as [rules |] eqn:Hr; [| done].
      apply contact_rules_lookup in Hr
        as [(-> & _) | [(-> & _) | [(-> & _) | (-> & _)]]]; by vm_compute in Hi. }
  assert ((forall n s, In n (field_order form) -> subject n form = Some s ->
                       verdict s = Normal None) <->
          (visible (trim (value nameField)) /\ (2 <= length (trim (value nameField)))%nat) /\
          Validation.isEmail (trim (value emailField)) = true /\
          visible (trim (value subjectField)) /\
          (visible (trim (value messageField)) /\
           (10 <= length (trim (value messageField)))%nat)) as Hall.
  { split.
    - intros Hall.
      assert (forall n, In n [lit "name"; lit "email"; lit "subject"; lit "message"] ->
                        forall s, subject n form = Some s -> verdict s = Normal None)
        as Hall'.
      { intros n Hn' s Hs'. apply (Hall n s); [by apply Hin | done]. }
      split; [| split; [| split]].
      + assert (visible (trim (value nameField)) /\
                (2 <= Z.of_nat (length (trim (value nameField))))%Z) as [V L];
          [| split; [done | lia]].
        apply (verdict_required_minLength _ two).
        apply (Hall' (lit "name")); [by left |]. apply Hsub. by left.
      + apply verdict_required_email.
        apply (Hall' (lit "email")); [right; by left |]. apply Hsub. right. by left.
      + apply verdict_required.
        apply (Hall' (lit "subject")); [right; right; by left |].
        apply Hsub. right. right. by left.
      + assert (visible (trim (value messageField)) /\
                (10 <= Z.of_nat (length (trim (value messageField))))%Z) as [V L];
          [| split; [done | lia]].
        apply (verdict_required_minLength _ ten).
        apply (Hall' (lit "message")); [right; right; right; by left |].
        apply Hsub. right. right. by right.
    - intros ((V1 & L1) & V2 & V3 & V4 & L4) n s _ Hs'.
      apply Hsub in Hs' as [(_ & ->) | [(_ & ->) | [(_ & ->) | (_ & ->)]]].
      + apply verdict_required_minLength. split; [done |]. cbn [two int_val]. lia.
      + by apply verdict_required_email.
      + by apply verdict_required.
      + apply verdict_required_minLength. split; [done |]. cbn [ten int_val]. lia. }
  rewrite <- Hall. rewrite validateForm_unfold.
  destruct (first_break form (field_order form))
    as [Hnb | (before & k & rest & Horder & Hnb & Hk)].
  - destruct (validate_loop (field_order form) true form Hnb)
      as (ok' & form' & -> & _ & Hok & _).
    cbn [snd]. split.
    + intros [= ->]. split; [by apply Hok |].
      intros n Hn' Hf. destruct (inherited n) eqn:Hi; [| done].
      destruct (Hnb n Hn'). by apply Hbr.
    + intros [Hv _]. f_equal. apply Hok. by split.
  - rewrite Horder.
    destruct (validate_loop_breaks before k rest true form Hnb Hk) as (form' & -> & _).
    cbn [snd]. split; [done |]. intros [_ Hno].
    apply Hbr in Hk as [Hf Hi]. rewrite Hno in Hi; [done | | done].
    apply in_or_app. right. by left.
Qed.

Lemma contact_form_accepts_witness :
  snd (validateForm (contact_form (lit "me@example.org"))) = Normal true <->
  (visible [] /\ (2 <= 0)%nat) /\
  Validation.isEmail (lit "me@example.org") = true /\
  visible [] /\ (visible [] /\ (10 <= 0)%nat).
Proof.
  destruct (contact_form_accepts (contact_form (lit "me@example.org"))
              (blank [] 0) (blank (lit "me@example.org") 1) (blank [] 2) (blank [] 3))
    as (_ & Honly); try reflexivity.
  - intros n Hn. exact Hn.
  - apply Honly. intros n Hn. exact Hn.
Defined.

End ContactFormRules.
